(** * bulk_load_timescaledb: the batching pipeline of [cmd/bulk_load_timescaledb/main.go]

    A shallow embedding of the loader: the reader ([scan]), the worker loop
    ([processBatches]), the reporter ([report]), the schema bootstrap
    ([initBenchmarkDB]) and the shutdown protocol of [main], with the
    properties of the pipeline proved over them.

    Conventions.  Go's [int], [int64] and [time.Duration] are [Z] with the
    64-bit wrap-around written out ([wrap64]); Go strings are [string] (a
    sequence of bytes); the reader's [map[string][]string] is a
    [gmap string (list string)]; a panic or [log.Fatalf] is the [Fatal]
    branch of [outcome]; the database driver is an oracle that says which
    calls fail, and a log of the calls made. *)

From Stdlib Require Import ZArith String Ascii List Lia DecimalString.
From Stdlib Require Import Floats.PrimFloat Floats.SpecFloat Floats.FloatOps.
From stdpp Require Import gmap strings list fin_maps.

Local Open Scope string_scope.
Local Open Scope list_scope.
Local Open Scope Z_scope.

(** ** Machine integers *)

Definition two63 : Z := 9223372036854775808.
Definition two64 : Z := 18446744073709551616.

(** The value an [int64] holds after an arithmetic result [z]. *)
Definition wrap64 (z : Z) : Z := (z + two63) mod two64 - two63.

(** ** The database driver *)

(** One value of the row handed to [stmt.Exec]: the slot [make] left empty,
    the timestamp, or a field passed through as text.  [ArgTime secs nsec]
    stands for the string of line 211,
    [time.Unix(secs, nsec).Format("2006-01-02 15:04:05.999999 -7:00")]: it
    names the instant the string is made from and leaves the rendering
    undone (the digits of the local zone, the fraction cut at microseconds,
    the text [-7:00] copied as it stands), which depends on the zone of the
    machine.  Nothing below depends on the characters of that string. *)
Inductive arg : Type :=
  | ArgNil
  | ArgTime (secs nsec : Z)
  | ArgText (value : string).

(** The calls the loader makes of the database driver. *)
Inductive db_call : Type :=
  | Connect (dsn : string)       (* sqlx.MustConnect *)
  | MustExec (sql : string)      (* db.MustExec, dbBench.MustExec *)
  | Begin                        (* dbBench.MustBegin *)
  | Prepare (copyCmd : string)   (* tx.Prepare *)
  | Exec (args : list arg)       (* stmt.Exec *)
  | CloseStmt                    (* stmt.Close *)
  | Commit                       (* tx.Commit *)
  | CloseDb.                     (* the deferred Close *)

(** ** Fatal outcomes

    Every error of the loader ends the process: a run-time panic, an
    explicit [panic(err)], a [Must...] call of sqlx, or [log.Fatalf]. *)

Inductive fatal : Type :=
  | IndexOutOfRange (index len : nat)      (* parts[1] on a one-element slice *)
  | ReadError (msg : string)               (* log.Fatalf("Error reading input: ...") *)
  | ParseError (value : string)            (* panic(err) after strconv.ParseInt *)
  | DbError (call : db_call)               (* panic(err) / Must... of the driver *)
  | UnknownIndexType (token : string)      (* panic("Unknown index type ...") *)
  | ChanSizeOutOfRange.                    (* make(chan ..., workers), workers < 0 *)

Inductive outcome (A : Type) : Type :=
  | Done (a : A)
  | Fatal (e : fatal).
Arguments Done {A} a.
Arguments Fatal {A} e.

#[export] Instance outcome_bind : MBind outcome :=
  fun A B (f : A -> outcome B) (x : outcome A) =>
    match x with
    | Done a => f a
    | Fatal e => Fatal e
    end.

#[export] Instance outcome_ret : MRet outcome := fun A (a : A) => Done a.

Definition is_done {A : Type} (x : outcome A) : bool :=
  match x with Done _ => true | Fatal _ => false end.

(** ** The pieces of Go's [strings] and [strconv] the loader calls *)

Module GoStrings.

(** The separator of every split in the loader is the one byte [","]. *)
Definition comma : ascii := ","%char.

(** [Cut sep s]: the text before and after the first [sep] of [s]. *)
Fixpoint Cut (sep : ascii) (s : string) : option (string * string) :=
  match s with
  | EmptyString => None
  | String a s' =>
      if Ascii.eqb a sep then Some (EmptyString, s')
      else match Cut sep s' with
           | Some (before, after) => Some (String a before, after)
           | None => None
           end
  end.

(** [strings.Split(s, sep)]: all the pieces, one more than there are
    separators; never empty. *)
Fixpoint Split (sep : ascii) (s : string) : list string :=
  match s with
  | EmptyString => [EmptyString]
  | String a s' =>
      if Ascii.eqb a sep then EmptyString :: Split sep s'
      else match Split sep s' with
           | piece :: rest => String a piece :: rest
           | [] => [String a EmptyString]
           end
  end.

(** The loop of [genSplit]: at most [cuts] cuts, the rest unsplit. *)
Fixpoint split_loop (sep : ascii) (s : string) (cuts : nat) : list string :=
  match cuts with
  | O => [s]
  | S cuts' =>
      match Cut sep s with
      | Some (before, after) => before :: split_loop sep after cuts'
      | None => [s]
      end
  end.

(** [strings.SplitN(s, sep, n)]: [nil] for [n = 0], every piece for
    [n < 0], at most [n] pieces otherwise. *)
Definition SplitN (sep : ascii) (s : string) (n : Z) : list string :=
  if n =? 0 then []
  else if n <? 0 then Split sep s
  else split_loop sep s (Z.to_nat (n - 1)).

(** [s] holds the byte [c]. *)
Fixpoint contains (c : ascii) (s : string) : bool :=
  match s with
  | EmptyString => false
  | String a s' => Ascii.eqb a c || contains c s'
  end.

(** [strings.Join(pieces, sep)]. *)
Fixpoint Join (pieces : list string) (sep : string) : string :=
  match pieces with
  | [] => EmptyString
  | [p] => p
  | p :: rest => (p ++ sep ++ Join rest sep)%string
  end.

End GoStrings.

Module GoStrconv.

Definition digit (a : ascii) : option Z :=
  let n := Z.of_N (N_of_ascii a) in
  if (48 <=? n) && (n <=? 57) then Some (n - 48) else None.

(** The digits of [s] read in base 10 onto [acc]; [None] at a byte that is
    no digit. *)
Fixpoint digits (s : string) (acc : Z) : option Z :=
  match s with
  | EmptyString => Some acc
  | String a s' =>
      match digit a with
      | Some d => digits s' (10 * acc + d)
      | None => None
      end
  end.

(** [strconv.ParseInt(s, 10, 64)]: an optional sign, then one digit or
    more, the value within [int64]; [None] is the call's [err != nil]
    (a syntax or a range error). *)
Definition ParseInt (s : string) : option Z :=
  match s with
  | EmptyString => None
  | String a s' =>
      let '(neg, body) :=
        if Ascii.eqb a "+"%char then (false, s')
        else if Ascii.eqb a "-"%char then (true, s')
        else (false, s) in
      match body with
      | EmptyString => None
      | _ =>
          match digits body 0 with
          | None => None
          | Some un =>
              if negb neg && (two63 <=? un) then None
              else if neg && (two63 <? un) then None
              else Some (if neg then - un else un)
          end
      end
  end.

End GoStrconv.

Import GoStrings GoStrconv.

(** ** Program options (the flag variables) *)

Record Options : Type := {
  postgresConnect : string;
  workers : Z;
  batchSize : Z;
  doLoad : bool;
  makeHypertable : bool;
  logBatches : bool;
  tagIndex : string;
  fieldIndex : string;
  fieldIndexCount : Z;
  reportingPeriod : Z;
  numberPartitions : Z
}.

(** The defaults [init] gives the flags. *)
Definition defaults : Options := {|
  postgresConnect := "host=postgres user=postgres sslmode=disable";
  workers := 1;
  batchSize := 10000;
  doLoad := true;
  makeHypertable := true;
  logBatches := false;
  tagIndex := "VALUE-TIME,TIME-VALUE";
  fieldIndex := "TIME-VALUE";
  fieldIndexCount := -1;
  reportingPeriod := 1000;
  numberPartitions := 1
|}.

(** ** The reader: [scan] *)

Record hypertableBatch : Type := {
  hypertable : string;
  rows : list string
}.

(** What [bufio.Scanner] gives: the lines of the input, and the error
    [scanner.Err()] reports once [Scan] has returned false. *)
Record Scanner : Type := {
  lines : list string;
  err : option string
}.

(** Go ranges over a map in an order it does not specify and that changes
    from one loop to the next.  [range at m] is the order of the loop that
    starts when [at] lines have been read; all that is known of it is that
    it visits every entry once. *)
Class MapRange : Type := {
  range : Z -> gmap string (list string) -> list (string * list string);
  range_perm : forall at_ m, range at_ m ≡ₚ map_to_list m
}.

(** The order stdpp lists a map in, for running the model. *)
#[export] Instance listed_order : MapRange := {|
  range := fun _ m => map_to_list m;
  range_perm := fun _ _ => reflexivity _
|}.

(** The locals of [scan], and what it has sent on [batchChan] so far. *)
Record scan_state : Type := {
  batch : gmap string (list string);
  n : Z;
  linesRead : Z;
  sent : list hypertableBatch
}.

Definition scan_init : scan_state :=
  {| batch := ∅; n := 0; linesRead := 0; sent := [] |}.

Section Reader.
Context `{MapRange}.

(** [for hypertable, rows := range batch { batchChan <- &hypertableBatch{hypertable, rows} }] *)
Definition flush (at_ : Z) (m : gmap string (list string)) : list hypertableBatch :=
  (fun e => {| hypertable := fst e; rows := snd e |}) <$> range at_ m.

(** The split and the append of one line (lines 144 to 147): [parts[1]]
    panics when the line has no comma. *)
Definition accumulate (m : gmap string (list string)) (text : string)
  : outcome (gmap string (list string)) :=
  let parts := SplitN comma text 2 in
  match parts !! 0%nat with
  | None => Fatal (IndexOutOfRange 0 (length parts))
  | Some hypertable =>
      match parts !! 1%nat with
      | None => Fatal (IndexOutOfRange 1 (length parts))
      | Some copyLine =>
          Done (<[hypertable := (default [] (m !! hypertable) ++ [copyLine])%list]> m)
      end
  end.

(** One turn of the loop of [scan]. *)
Definition scan_line (itemsPerBatch : Z) (st : scan_state) (text : string)
  : outcome scan_state :=
  let linesRead' := wrap64 (linesRead st + 1) in
  m ← accumulate (batch st) text;
  let n' := wrap64 (n st + 1) in
  if itemsPerBatch <=? n' then
    Done {| batch := ∅; n := 0; linesRead := linesRead';
            sent := (sent st ++ flush linesRead' m)%list |}
  else
    Done {| batch := m; n := n'; linesRead := linesRead'; sent := sent st |}.

(** [for scanner.Scan() { ... }] *)
Fixpoint scan_loop (itemsPerBatch : Z) (st : scan_state) (ls : list string)
  : outcome scan_state :=
  match ls with
  | [] => Done st
  | text :: rest =>
      st' ← scan_line itemsPerBatch st text;
      scan_loop itemsPerBatch st' rest
  end.

(** The last flush (lines 165 to 169). *)
Definition final_flush (st : scan_state) : list hypertableBatch :=
  if 0 <? n st then flush (linesRead st) (batch st) else [].

(** What a call of [scan] that returns leaves behind: the value returned,
    every batch sent on [batchChan] in the order sent, and [inputDone]
    closed.

    [scan] below is the function of the input alone: what [scan] sends, in
    order, and how it ends once every send has been received.  A send on
    [batchChan] (lines 152 and 167) waits for room in the buffer or for a
    worker at its receive; the waiting is in the step relation of the
    goroutines further down, which takes from here the batches to send.  So
    [scan ... = Done r] describes a call of [scan] that returns, and
    [Fatal e] one that panics or exits; neither says that the call gets that
    far. *)
Record scanned : Type := {
  itemsRead : Z;
  batchChan : list hypertableBatch;
  inputDone : bool
}.

Definition scan (itemsPerBatch : Z) (scanner : Scanner) : outcome scanned :=
  st ← scan_loop itemsPerBatch scan_init (lines scanner);
  match err scanner with
  | Some msg => Fatal (ReadError msg)
  | None =>
      Done {| itemsRead := linesRead st;
              batchChan := (sent st ++ final_flush st)%list;
              inputDone := true |}
  end.

End Reader.

(** The rows of a list of batches, counted. *)
Definition row_count (bs : list hypertableBatch) : nat :=
  sum_list_with (fun b => length (rows b)) bs.

(** The rows a map of accumulators holds. *)
Definition held (m : gmap string (list string)) : nat :=
  sum_list_with (fun e => length (snd e)) (map_to_list m).

(** The rows sent for the relation [h], in the order sent. *)
Definition rows_for (h : string) (bs : list hypertableBatch) : list string :=
  concat (rows <$> filter (fun b => hypertable b = h) bs).

(** The copy lines the input has for the relation [h], in the order read. *)
Definition lines_for (h : string) (ls : list string) : list string :=
  snd <$> filter (fun p => fst p = h) (omap (Cut comma) ls).

(** ** The workers: [processBatches] *)

(** The shared counters, the driver calls made so far, the [BATCH:] lines
    printed, and the worker's local [columnCountWorker]. *)
Record world : Type := {
  columnCount : Z;
  rowCount : Z;
  calls : list db_call;
  batchLines : list Z;
  columnCountWorker : Z
}.

Definition world_init : world :=
  {| columnCount := 0; rowCount := 0; calls := []; batchLines := [];
     columnCountWorker := 0 |}.

(** A step of a worker: it ends in a value or in a panic, and leaves the
    world as it is at that point. *)
Definition run (A : Type) : Type := world -> outcome A * world.

#[export] Instance run_ret : MRet run := fun A (a : A) w => (Done a, w).

#[export] Instance run_bind : MBind run :=
  fun A B (f : A -> run B) (x : run A) w =>
    match x w with
    | (Done a, w') => f a w'
    | (Fatal e, w') => (Fatal e, w')
    end.

(** The driver: whether a call succeeds, given the calls made before it. *)
Definition Driver : Type := list db_call -> db_call -> bool.

(** The driver that never fails. *)
Definition sound_driver : Driver := fun _ _ => true.

Definition dquote : string := String "034"%char EmptyString.

Section Worker.
Variable opts : Options.
Variable driver : Driver.

(** A call of the driver whose error the loader turns into a panic. *)
Definition call (c : db_call) : run unit := fun w =>
  let w' := {| columnCount := columnCount w; rowCount := rowCount w;
               calls := calls w ++ [c]; batchLines := batchLines w;
               columnCountWorker := columnCountWorker w |} in
  if driver (calls w) c then (Done tt, w') else (Fatal (DbError c), w').

Definition lift {A : Type} (x : outcome A) : run A := fun w => (x, w).

(** [columnCountWorker += int64(len(sp))] *)
Definition count_columns (k : nat) : run unit := fun w =>
  (Done tt,
   {| columnCount := columnCount w; rowCount := rowCount w;
      calls := calls w; batchLines := batchLines w;
      columnCountWorker := wrap64 (columnCountWorker w + Z.of_nat k) |}).

(** Lines 221 to 223: the two [atomic.AddInt64] and the reset. *)
Definition add_counters (nrows : nat) : run unit := fun w =>
  (Done tt,
   {| columnCount := wrap64 (columnCount w + columnCountWorker w);
      rowCount := wrap64 (rowCount w + Z.of_nat nrows);
      calls := calls w; batchLines := batchLines w;
      columnCountWorker := 0 |}).

Definition print_batch : run unit := fun w =>
  (Done tt,
   {| columnCount := columnCount w; rowCount := rowCount w;
      calls := calls w; batchLines := batchLines w ++ [batchSize opts];
      columnCountWorker := columnCountWorker w |}).

(** [for ind, value := range sp { ... }] over the slots of [in].  The
    first slot takes the timestamp of line 211, kept as the instant
    [time.Unix(secs, timeInt%1000000000)] that [Format] renders (see
    [ArgTime]). *)
Fixpoint fill (ind : nat) (sp : list string) (in_ : list arg) : outcome (list arg) :=
  match sp with
  | [] => Done in_
  | value :: rest =>
      if Nat.eqb ind 0 then
        match ParseInt value with
        | None => Fatal (ParseError value)
        | Some timeInt =>
            let secs := Z.quot timeInt 1000000000 in
            fill (S ind) rest (<[ind := ArgTime secs (Z.rem timeInt 1000000000)]> in_)
        end
      else fill (S ind) rest (<[ind := ArgText value]> in_)
  end.

(** The body of the loop over the rows of a batch (lines 201 to 219). *)
Definition process_row (line : string) : run unit :=
  let sp := Split comma line in
  _ ← count_columns (length sp);
  in_ ← lift (fill 0 sp (replicate (length sp) ArgNil));
  call (Exec in_).

Fixpoint process_rows (ls : list string) : run unit :=
  match ls with
  | [] => mret tt
  | line :: rest => _ ← process_row line; process_rows rest
  end.

(** [fmt.Sprintf("COPY \"%s\" FROM STDIN", hypertable)] *)
Definition copyCmd (b : hypertableBatch) : string :=
  ("COPY " ++ dquote ++ hypertable b ++ dquote ++ " FROM STDIN")%string.

(** The body of [for hypertableBatch := range batchChan]. *)
Definition processBatch (b : hypertableBatch) : run unit :=
  if negb (doLoad opts) then mret tt
  else
    _ ← call Begin;
    _ ← call (Prepare (copyCmd b));
    _ ← process_rows (rows b);
    _ ← add_counters (length (rows b));
    _ ← call CloseStmt;
    _ ← call Commit;
    if logBatches opts then print_batch else mret tt.

Fixpoint process_all (received : list hypertableBatch) : run unit :=
  match received with
  | [] => mret tt
  | b :: rest => _ ← processBatch b; process_all rest
  end.

(** [processBatches] on the batches this worker receives before the channel
    is closed and empty.  The deferred [dbBench.Close()] runs on return and
    on a panic alike; it is registered once [MustConnect] has succeeded. *)
Definition processBatches (received : list hypertableBatch) : run unit := fun w =>
  match call (Connect (postgresConnect opts ++ " dbname=benchmark")%string) w with
  | (Done _, w1) =>
      match process_all received w1 with
      | (Done _, w2) => (Done tt, snd (call CloseDb w2))
      | (Fatal e, w2) => (Fatal e, snd (call CloseDb w2))
      end
  | (Fatal e, w1) => (Fatal e, w1)
  end.

End Worker.

(** The first field of a row, the one the worker parses. *)
Definition leading (line : string) : string := hd EmptyString (Split comma line).

(** The fields of a batch as [columnCountWorker] counts them. *)
Definition field_count (ls : list string) : Z :=
  foldl (fun acc line => wrap64 (acc + Z.of_nat (length (Split comma line)))) 0 ls.

Definition is_exec (c : db_call) : bool :=
  match c with Exec _ => true | _ => false end.

(** The rows handed to the driver so far. *)
Definition exec_count (cs : list db_call) : nat := length (filter (fun c => is_exec c = true) cs).

(** ** The schema bootstrap: [initBenchmarkDB] *)

(** What one header line becomes: the locals [hypertable],
    [partitioningField], [fieldDef] and [indexes] of the loop. *)
Record relation : Type := {
  table : string;
  partitioningField : string;
  fieldDef : list string;
  indexes : list string
}.

(** [%v] of an [int]. *)
Definition itoa (z : Z) : string := NilZero.string_of_int (Z.to_int z).

Section SchemaInit.
Variable opts : Options.
Variable driver : Driver.

(** The body of the loop over the index types (lines 286 to 297). *)
Definition index_token (hypertable field idx : string) (ixs : list string)
  : outcome (list string) :=
  indexDef ←
    (if String.eqb idx "TIME-VALUE" then Done ("(time, " ++ field ++ ")")%string
     else if String.eqb idx "VALUE-TIME" then Done ("(" ++ field ++ ",time)")%string
     else if negb (String.eqb idx "") then Fatal (UnknownIndexType idx)
     else Done "");
  if negb (String.eqb idx "")
  then Done (ixs ++ [("CREATE INDEX ON " ++ hypertable ++ " " ++ indexDef)%string])
  else Done ixs.

(** [for _, idx := range strings.Split(idxType, ",")] *)
Fixpoint index_loop (hypertable field : string) (idxTypes : list string)
    (ixs : list string) : outcome (list string) :=
  match idxTypes with
  | [] => Done ixs
  | idx :: rest =>
      ixs' ← index_token hypertable field idx ixs;
      index_loop hypertable field rest ixs'
  end.

(** [fieldIndexCount == -1 || idx <= fieldIndexCount] *)
Definition indexed (idx : Z) : bool :=
  (fieldIndexCount opts =? -1) || (idx <=? fieldIndexCount opts).

(** [for idx, field := range parts[1:]] *)
Fixpoint fields_loop (idx : Z) (fields : list string) (r : relation)
  : outcome relation :=
  match fields with
  | [] => Done r
  | field :: rest =>
      if Nat.eqb (String.length field) 0 then fields_loop (idx + 1) rest r
      else
        let fieldType := if idx =? 0 then "TEXT" else "DOUBLE PRECISION" in
        let idxType := if idx =? 0 then tagIndex opts else fieldIndex opts in
        let pf := if idx =? 0 then field else partitioningField r in
        let fd := fieldDef r ++ [(field ++ " " ++ fieldType)%string] in
        ixs ← (if indexed idx
               then index_loop (table r) field (Split comma idxType) (indexes r)
               else Done (indexes r));
        fields_loop (idx + 1) rest
          {| table := table r; partitioningField := pf; fieldDef := fd; indexes := ixs |}
  end.

(** Lines 264 to 300: the schema of one header line. *)
Definition derive_schema (text : string) : outcome relation :=
  let parts := Split comma text in
  match parts !! 0%nat with
  | None => Fatal (IndexOutOfRange 0 (length parts))
  | Some hypertable =>
      fields_loop 0 (drop 1 parts)
        {| table := hypertable; partitioningField := ""; fieldDef := []; indexes := [] |}
  end.

Definition create_table (r : relation) : string :=
  ("CREATE TABLE " ++ table r ++ " (time timestamptz, " ++ Join (fieldDef r) "," ++ ")")%string.

Definition create_hypertable (r : relation) : string :=
  ("SELECT create_hypertable('" ++ table r ++ "'::regclass, 'time'::name, partitioning_column => '"
   ++ partitioningField r ++ "'::name, number_partitions => " ++ itoa (numberPartitions opts)
   ++ "::smallint, chunk_time_interval => 28800000000)")%string.

Fixpoint exec_all (stmts : list string) : run unit :=
  match stmts with
  | [] => mret tt
  | sql :: rest => _ ← call driver (MustExec sql); exec_all rest
  end.

(** Lines 264 to 311: the statements of one header line. *)
Definition create_relation (text : string) : run unit :=
  r ← lift (derive_schema text);
  _ ← call driver (MustExec (create_table r));
  _ ← exec_all (indexes r);
  if makeHypertable opts then call driver (MustExec (create_hypertable r)) else mret tt.

(** [for scanner.Scan() { ... }]: returns at the first empty line, with
    the lines the scanner has left. *)
Fixpoint header_loop (ls : list string) : run (list string) :=
  match ls with
  | [] => mret []
  | text :: rest =>
      if Nat.eqb (String.length text) 0 then mret rest
      else _ ← create_relation text; header_loop rest
  end.

(** [defer db.Close()]: the close runs on return and on a panic alike, and
    its error is dropped. *)
Definition deferred_close {A : Type} (body : run A) : run A := fun w =>
  let '(res, w') := body w in (res, snd (call driver CloseDb w')).

Definition initBenchmarkDB (ls : list string) : run (list string) :=
  _ ← call driver (Connect (postgresConnect opts));
  deferred_close (
    _ ← call driver (MustExec "DROP DATABASE IF EXISTS benchmark");
    _ ← call driver (MustExec "CREATE DATABASE benchmark");
    _ ← call driver (Connect (postgresConnect opts ++ " dbname=benchmark")%string);
    deferred_close (
      _ ← (if makeHypertable opts then
             _ ← call driver (MustExec "CREATE EXTENSION IF NOT EXISTS timescaledb CASCADE");
             call driver (MustExec "SELECT setup_timescaledb()")
           else mret tt);
      header_loop ls)).

(** The [else] branch of [main]: the header is read and dropped. *)
Fixpoint skip_header (ls : list string) : list string :=
  match ls with
  | [] => []
  | text :: rest => if Nat.eqb (String.length text) 0 then rest else skip_header rest
  end.

(** Lines 73 to 83 of [main]: the header phase; what is left of the input. *)
Definition main_header (ls : list string) : run (list string) :=
  if doLoad opts then initBenchmarkDB ls else mret (skip_header ls).

End SchemaInit.

(** The index types the bootstrap understands, and the one it skips. *)
Definition known_index (idx : string) : bool :=
  String.eqb idx "TIME-VALUE" || String.eqb idx "VALUE-TIME".

Definition accepted_index (idx : string) : bool :=
  known_index idx || String.eqb idx "".

(** The index types the loops of one header line look at, in that order. *)
Fixpoint examined_from (opts : Options) (idx : Z) (fields : list string) : list string :=
  match fields with
  | [] => []
  | field :: rest =>
      (if negb (Nat.eqb (String.length field) 0) && indexed opts idx
       then Split comma (if idx =? 0 then tagIndex opts else fieldIndex opts)
       else [])
      ++ examined_from opts (idx + 1) rest
  end.

Definition examined (opts : Options) (text : string) : list string :=
  examined_from opts 0 (drop 1 (Split comma text)).

(** A call that writes rows: the transaction of a batch. *)
Definition is_write (c : db_call) : bool :=
  match c with
  | Begin | Prepare _ | Exec _ | CloseStmt | Commit => true
  | Connect _ | MustExec _ | CloseDb => false
  end.

Definition write_count (cs : list db_call) : nat :=
  length (filter (fun c => is_write c = true) cs).

(** ** The reporter: [report] *)

Module Reporter.

(** [float64(z)] for an [int64] [z]: the nearest binary64. *)
Definition float64 (z : Z) : float := SF2Prim (binary_normalize 53 1024 z 0 false).

(** [time.Time] as the nanoseconds since the Unix epoch. *)
Definition Time : Type := Z.

Definition Second : Z := 1000000000.

(** [t.Sub(u)]: the duration in nanoseconds, kept within [int64]. *)
Definition Sub (t u : Time) : Z :=
  let d := t - u in
  if two63 <=? d then two63 - 1
  else if d <? - two63 then - two63
  else d.

(** [d.Seconds()]: [float64(d / Second) + float64(d % Second) / 1e9]. *)
Definition Seconds (d : Z) : float :=
  PrimFloat.add (float64 (Z.quot d Second))
                (PrimFloat.div (float64 (Z.rem d Second)) (float64 Second)).

(** [t.Unix()] *)
Definition Unix (t : Time) : Z := t / Second.

(** One value received from the ticker, with what the two
    [atomic.LoadInt64] of that turn of the loop read. *)
Record tick : Type := {
  now : Time;
  colCount : Z;
  rowCountRead : Z
}.

(** The values of one [REPORT:] line, in the order printed. *)
Record report_line : Type := {
  time : Z;
  colrate : float;
  rowrate : float;
  overallRowrate : float;
  totalRows : float
}.

(** The locals the loop carries from one tick to the next. *)
Record report_state : Type := {
  prevTime : Time;
  prevColCount : Z;
  prevRowCount : Z
}.

(** The body of [for now := range c]. *)
Definition report_tick (start : Time) (st : report_state) (t : tick)
  : report_line * report_state :=
  let took := Sub (now t) (prevTime st) in
  let colrate := PrimFloat.div (float64 (wrap64 (colCount t - prevColCount st))) (Seconds took) in
  let rowrate := PrimFloat.div (float64 (wrap64 (rowCountRead t - prevRowCount st))) (Seconds took) in
  let overallRowrate := PrimFloat.div (float64 (rowCountRead t)) (Seconds (Sub (now t) start)) in
  ({| time := Unix (now t); colrate := colrate; rowrate := rowrate;
      overallRowrate := overallRowrate; totalRows := float64 (rowCountRead t) |},
   {| prevTime := now t; prevColCount := colCount t; prevRowCount := rowCountRead t |}).

Fixpoint report_loop (start : Time) (st : report_state) (ticks : list tick)
  : list report_line :=
  match ticks with
  | [] => []
  | t :: rest =>
      let '(line, st') := report_tick start st t in
      line :: report_loop start st' rest
  end.

(** [report]: the lines printed for the ticks received, [start] being the
    [time.Now()] taken before the loop. *)
Definition report (start : Time) (ticks : list tick) : list report_line :=
  report_loop start {| prevTime := start; prevColCount := 0; prevRowCount := 0 |} ticks.

(** The overall rate of the column count at a tick, as [overallRowrate] is
    that of the row count: the value C3 expects on the line. *)
Definition overallColrate (start : Time) (t : tick) : float :=
  PrimFloat.div (float64 (colCount t)) (Seconds (Sub (now t) start)).

(** The tick before the [k]-th: the loop's initial locals for the first. *)
Definition previous (start : Time) (ticks : list tick) (k : nat) : tick :=
  match k with
  | O => {| now := start; colCount := 0; rowCountRead := 0 |}
  | S k' => default {| now := start; colCount := 0; rowCountRead := 0 |} (ticks !! k')
  end.

(** The locals the loop holds after the tick [t]. *)
Definition state_of (t : tick) : report_state :=
  {| prevTime := now t; prevColCount := colCount t; prevRowCount := rowCountRead t |}.

(** Two runs of two ticks: the same rows, the same growth of the column
    count over the second period, another column count at the first tick. *)
Definition run_a : list tick :=
  [ {| now := 1000000000; colCount := 6; rowCountRead := 2 |};
    {| now := 2000000000; colCount := 9; rowCountRead := 3 |} ].

Definition run_b : list tick :=
  [ {| now := 1000000000; colCount := 8; rowCountRead := 2 |};
    {| now := 2000000000; colCount := 11; rowCountRead := 3 |} ].

End Reporter.

(** ** The goroutines of [main]: start-up, hand-off and shutdown

    One step of one goroutine at a time.  [main] runs [scan] itself, so the
    reader is [main] between the start of the workers and [<-inputDone]; what
    [scan] sends does not depend on the workers, and is taken from the
    function [scan] above.  A worker handles a batch in one step
    ([processBatch]), and calls [workersGroup.Done()] and the deferred
    [Close] in one step: the relation follows the channel and the WaitGroup
    operation by operation, and shows the counters and the driver calls as
    they are between two batches of a worker, not as they are inside one
    (begin, prepare, the execs, the two adds, close, commit), which is
    [processBatch].  The reporter only reads the counters and prints
    ([report]); it takes no step here. *)

(** The batches [scan] sends before it panics at a line without a comma. *)
Fixpoint good_prefix (ls : list string) : list string :=
  match ls with
  | [] => []
  | l :: rest => if contains comma l then l :: good_prefix rest else []
  end.

(** What the reader does in a run: the batches it sends, in order, and the
    way [scan] ends ([None]: it closes [inputDone] and returns). *)
Record script : Type := {
  to_send : list hypertableBatch;
  reader_end : option fatal
}.

Definition reader_script `{MapRange} (itemsPerBatch : Z) (scanner : Scanner) : script :=
  match scan itemsPerBatch scanner with
  | Done r => {| to_send := batchChan r; reader_end := None |}
  | Fatal e =>
      {| to_send := match scan_loop itemsPerBatch scan_init (good_prefix (lines scanner)) with
                    | Done st => sent st
                    | Fatal _ => []
                    end;
         reader_end := Some e |}
  end.

(** Where [main] is. *)
Inductive main_pc : Type :=
  | Making                 (* line 85: make(chan *hypertableBatch, workers) *)
  | Spawning (i : nat)     (* lines 88 to 91: the loop that starts the workers *)
  | Scanning               (* line 96: inside scan *)
  | WaitInput              (* line 98: <-inputDone *)
  | Closing                (* line 99: close(batchChan) *)
  | Waiting                (* line 100: workersGroup.Wait() *)
  | Summary.               (* lines 101 to 108 *)

(** Where a worker is. *)
Inductive worker_pc : Type :=
  | WStart                          (* line 181: before MustConnect *)
  | WRecv                           (* line 185: at the receive of the range *)
  | WBusy (b : hypertableBatch)     (* lines 186 to 240: holds a batch *)
  | WExited                         (* the range has ended *)
  | WDone.                          (* line 242: workersGroup.Done() called *)

Definition exited (p : worker_pc) : bool :=
  match p with WExited | WDone => true | _ => false end.

Definition announced (p : worker_pc) : bool :=
  match p with WDone => true | _ => false end.

Record state : Type := {
  pc : main_pc;
  pending : list hypertableBatch;    (* what scan has still to send *)
  chan : list hypertableBatch;       (* the buffer of batchChan *)
  chan_closed : bool;                (* close(batchChan) done *)
  input_done : bool;                 (* close(inputDone) done *)
  wg : Z;                            (* the counter of workersGroup *)
  ws : list worker_pc;               (* the workers started so far *)
  shared : world;                    (* counters and driver calls *)
  consumed : list hypertableBatch;   (* the batches received, in order *)
  crashed : option fatal             (* a goroutine has panicked *)
}.

Definition set_pc (s : state) (p : main_pc) : state :=
  {| pc := p; pending := pending s; chan := chan s; chan_closed := chan_closed s;
     input_done := input_done s; wg := wg s; ws := ws s; shared := shared s;
     consumed := consumed s; crashed := crashed s |}.

Definition set_worker (s : state) (i : nat) (p : worker_pc) : state :=
  {| pc := pc s; pending := pending s; chan := chan s; chan_closed := chan_closed s;
     input_done := input_done s; wg := wg s; ws := <[i := p]> (ws s); shared := shared s;
     consumed := consumed s; crashed := crashed s |}.

Definition crash (s : state) (e : fatal) (w : world) : state :=
  {| pc := pc s; pending := pending s; chan := chan s; chan_closed := chan_closed s;
     input_done := input_done s; wg := wg s; ws := ws s; shared := w;
     consumed := consumed s; crashed := Some e |}.

Definition init_state (sc : script) (w : world) : state :=
  {| pc := Making; pending := to_send sc; chan := []; chan_closed := false;
     input_done := false; wg := 0; ws := []; shared := w; consumed := [];
     crashed := None |}.

Section Pipeline.
Variable opts : Options.
Variable driver : Driver.
Variable sc : script.

(** The capacity of [batchChan]. *)
Definition capacity : nat := Z.to_nat (workers opts).

Inductive step : state -> state -> Prop :=
  (* line 85: a negative size panics *)
  | m_make_panics s :
      crashed s = None -> pc s = Making -> workers opts < 0 ->
      step s (crash s ChanSizeOutOfRange (shared s))
  | m_make s :
      crashed s = None -> pc s = Making -> 0 <= workers opts ->
      step s (set_pc s (Spawning 0))
  (* lines 88 to 90: workersGroup.Add(1); go processBatches(...) *)
  | m_spawn s i :
      crashed s = None -> pc s = Spawning i -> Z.of_nat i < workers opts ->
      step s {| pc := Spawning (S i); pending := pending s; chan := chan s;
                chan_closed := chan_closed s; input_done := input_done s;
                wg := wg s + 1; ws := ws s ++ [WStart]; shared := shared s;
                consumed := consumed s; crashed := None |}
  (* line 88, 93, 96: the loop ends; the reporter starts; scan is entered *)
  | m_spawned s i :
      crashed s = None -> pc s = Spawning i -> workers opts <= Z.of_nat i ->
      step s (set_pc s Scanning)
  (* lines 152 and 167: a send into the buffer, when it has room *)
  | m_send s b rest :
      crashed s = None -> pc s = Scanning -> pending s = b :: rest ->
      (length (chan s) < capacity)%nat ->
      step s {| pc := Scanning; pending := rest; chan := chan s ++ [b];
                chan_closed := chan_closed s; input_done := input_done s;
                wg := wg s; ws := ws s; shared := shared s;
                consumed := consumed s; crashed := None |}
  (* the same send met by a worker waiting at its receive *)
  | m_hand_over s b rest i :
      crashed s = None -> pc s = Scanning -> pending s = b :: rest ->
      chan s = [] -> ws s !! i = Some WRecv ->
      step s {| pc := Scanning; pending := rest; chan := [];
                chan_closed := chan_closed s; input_done := input_done s;
                wg := wg s; ws := <[i := WBusy b]> (ws s); shared := shared s;
                consumed := consumed s ++ [b]; crashed := None |}
  (* line 147 or 161: scan panics once it has sent what it could *)
  | m_scan_panics s e :
      crashed s = None -> pc s = Scanning -> pending s = [] ->
      reader_end sc = Some e ->
      step s (crash s e (shared s))
  (* lines 172 to 176: close(inputDone), scan returns *)
  | m_input_done s :
      crashed s = None -> pc s = Scanning -> pending s = [] ->
      reader_end sc = None ->
      step s {| pc := WaitInput; pending := []; chan := chan s;
                chan_closed := chan_closed s; input_done := true;
                wg := wg s; ws := ws s; shared := shared s;
                consumed := consumed s; crashed := None |}
  (* line 98: the receive from the closed inputDone *)
  | m_recv_input_done s :
      crashed s = None -> pc s = WaitInput -> input_done s = true ->
      step s (set_pc s Closing)
  (* line 99 *)
  | m_close s :
      crashed s = None -> pc s = Closing ->
      step s {| pc := Waiting; pending := pending s; chan := chan s;
                chan_closed := true; input_done := input_done s;
                wg := wg s; ws := ws s; shared := shared s;
                consumed := consumed s; crashed := None |}
  (* line 100: Wait returns when the counter is zero *)
  | m_wait s :
      crashed s = None -> pc s = Waiting -> wg s = 0 ->
      step s (set_pc s Summary)
  (* line 181 *)
  | w_connect s i w' :
      crashed s = None -> ws s !! i = Some WStart ->
      call driver (Connect (postgresConnect opts ++ " dbname=benchmark")%string) (shared s)
        = (Done tt, w') ->
      step s {| pc := pc s; pending := pending s; chan := chan s;
                chan_closed := chan_closed s; input_done := input_done s;
                wg := wg s; ws := <[i := WRecv]> (ws s); shared := w';
                consumed := consumed s; crashed := None |}
  | w_connect_panics s i e w' :
      crashed s = None -> ws s !! i = Some WStart ->
      call driver (Connect (postgresConnect opts ++ " dbname=benchmark")%string) (shared s)
        = (Fatal e, w') ->
      step s (crash s e w')
  (* line 185: a receive from the buffer *)
  | w_recv s i b rest :
      crashed s = None -> ws s !! i = Some WRecv -> chan s = b :: rest ->
      step s {| pc := pc s; pending := pending s; chan := rest;
                chan_closed := chan_closed s; input_done := input_done s;
                wg := wg s; ws := <[i := WBusy b]> (ws s); shared := shared s;
                consumed := consumed s ++ [b]; crashed := None |}
  (* lines 186 to 240 *)
  | w_process s i b w' :
      crashed s = None -> ws s !! i = Some (WBusy b) ->
      processBatch opts driver b (shared s) = (Done tt, w') ->
      step s {| pc := pc s; pending := pending s; chan := chan s;
                chan_closed := chan_closed s; input_done := input_done s;
                wg := wg s; ws := <[i := WRecv]> (ws s); shared := w';
                consumed := consumed s; crashed := None |}
  | w_process_panics s i b e w' :
      crashed s = None -> ws s !! i = Some (WBusy b) ->
      processBatch opts driver b (shared s) = (Fatal e, w') ->
      step s (crash s e w')
  (* line 185: the range ends on the closed, empty channel *)
  | w_exit s i :
      crashed s = None -> ws s !! i = Some WRecv ->
      chan s = [] -> chan_closed s = true ->
      step s (set_worker s i WExited)
  (* line 242, then the deferred dbBench.Close() *)
  | w_done s i :
      crashed s = None -> ws s !! i = Some WExited ->
      step s {| pc := pc s; pending := pending s; chan := chan s;
                chan_closed := chan_closed s; input_done := input_done s;
                wg := wg s - 1; ws := <[i := WDone]> (ws s);
                shared := snd (call driver CloseDb (shared s));
                consumed := consumed s; crashed := None |}.

(** The states a run passes through. *)
Inductive reachable (s0 : state) : state -> Prop :=
  | reach_start : reachable s0 s0
  | reach_step s s' : reachable s0 s -> step s s' -> reachable s0 s'.

End Pipeline.

(** The run of [main] on an input: the header phase, then the goroutines. *)
Definition boot `{MapRange} (opts : Options) (driver : Driver) (input : Scanner)
  : outcome state :=
  match main_header opts driver (lines input) world_init with
  | (Done rest, w) =>
      Done (init_state
              (reader_script (batchSize opts) {| lines := rest; err := err input |}) w)
  | (Fatal e, _) => Fatal e
  end.

(** The script of that run. *)
Definition boot_script `{MapRange} (opts : Options) (input : Scanner) : script :=
  reader_script (batchSize opts)
    {| lines := skip_header (lines input); err := err input |}.

(** The workers that have not called [workersGroup.Done()]. *)
Definition active (ps : list worker_pc) : nat :=
  length (filter (fun p => announced p = false) ps).

(** Where the reader has returned, and where [batchChan] is closed. *)
Definition reader_finished (p : main_pc) : bool :=
  match p with
  | WaitInput | Closing | Waiting | Summary => true
  | Making | Spawning _ | Scanning => false
  end.

Definition queue_closed (p : main_pc) : bool :=
  match p with
  | Waiting | Summary => true
  | _ => false
  end.

(** What holds in every state of a run. *)
Record pipeline_inv (opts : Options) (sc : script) (s : state) : Prop := {
  I_conserve : consumed s ++ chan s ++ pending s = to_send sc;
  I_input : input_done s = reader_finished (pc s);
  I_pending : reader_finished (pc s) = true -> pending s = [];
  I_closed : chan_closed s = queue_closed (pc s);
  I_exited : forall i p, ws s !! i = Some p -> exited p = true ->
             chan_closed s = true /\ chan s = [];
  I_wg : wg s = Z.of_nat (active (ws s));
  I_cap : (length (chan s) <= capacity opts)%nat;
  I_spawned : match pc s with
              | Making => ws s = []
              | Spawning i => length (ws s) = i /\ (i <= capacity opts)%nat
              | _ => length (ws s) = capacity opts
              end;
  I_summary : pc s = Summary -> Forall (fun p => p = WDone) (ws s)
}.

(** ** Predicates and sample data of the statements *)

(** What holds of the locals of [scan] once the lines [pre] are read. *)
Record scan_inv (itemsPerBatch : Z) (pre : list string) (st : scan_state) : Prop := {
  inv_lines : Z.of_nat (length pre) < two63 -> linesRead st = Z.of_nat (length pre);
  inv_n : n st = Z.of_nat (held (batch st));
  inv_small : held (batch st) = 0%nat \/ n st < itemsPerBatch;
  inv_total : (row_count (sent st) + held (batch st))%nat = length pre;
  inv_rows : forall h,
    (rows_for h (sent st) ++ default [] (batch st !! h))%list = lines_for h pre;
  inv_batch_nonempty : map_Forall (fun _ l => l <> []) (batch st);
  inv_sent_nonempty : Forall (fun b => rows b <> []) (sent st);
  inv_groups : 1 <= itemsPerBatch ->
    exists groups, sent st = concat groups
      /\ Forall (fun g => Z.of_nat (row_count g) = itemsPerBatch) groups
}.

(** The accumulator [batch] that the lines [ls] build from an empty map:
    lines 144 to 147, once per line. *)
Definition collect (ls : list string) : gmap string (list string) :=
  foldl (fun m text => match accumulate m text with
                       | Done m' => m'
                       | Fatal _ => m
                       end) ∅ ls.

(** The threshold flushes of [scan] once the lines [pre] are read: [pre] is
    a sequence of [blocks] of [itemsPerBatch] lines each, followed by the
    lines [cur] read since the last flush; the loop has sent one flush per
    block, the flush of the accumulator of that block, and holds the
    accumulator of [cur]. *)
Record block_inv `{MapRange} (itemsPerBatch : Z) (pre : list string) (st : scan_state)
    (blocks : list (list string)) (cur : list string)
    (flushes : list (list hypertableBatch)) : Prop := {
  B_pre : pre = (concat blocks ++ cur)%list;
  B_blocks : Forall (fun block => Z.of_nat (length block) = itemsPerBatch) blocks;
  B_cur : Z.of_nat (length cur) < itemsPerBatch;
  B_sent : sent st = concat flushes;
  B_flushes : Forall2 (fun block g => exists at_, g = flush at_ (collect block))
                blocks flushes;
  B_rows : Forall (fun g => Z.of_nat (row_count g) = itemsPerBatch) flushes;
  B_batch : batch st = collect cur;
  B_held : held (batch st) = length cur;
  B_n : n st = Z.of_nat (length cur)
}.

(** Sample inputs of the reader. *)
Definition three_lines : Scanner :=
  {| lines := ["cpu,1,a"; "mem,2,b"; "cpu,3,c"]; err := None |}.

(** What [scan 2 three_lines] returns under [listed_order]. *)
Definition three_lines_scanned : scanned :=
  {| itemsRead := 3;
     batchChan := [ {| hypertable := "cpu"; rows := ["1,a"] |};
                    {| hypertable := "mem"; rows := ["2,b"] |};
                    {| hypertable := "cpu"; rows := ["3,c"] |} ];
     inputDone := true |}.

Definition no_comma_line : Scanner :=
  {| lines := ["cpu"]; err := None |}.

Definition two_relations : Scanner :=
  {| lines := ["cpu,1"; "mem,2"; "cpu,3"; "cpu,4"]; err := None |}.

(** The world once [columnCountWorker] has counted [k] more fields. *)
Definition counted (w : world) (k : nat) : world :=
  {| columnCount := columnCount w; rowCount := rowCount w;
     calls := calls w; batchLines := batchLines w;
     columnCountWorker := wrap64 (columnCountWorker w + Z.of_nat k) |}.

(** A step leaves the shared counters alone. *)
Definition same_counters (w w' : world) : Prop :=
  columnCount w' = columnCount w /\ rowCount w' = rowCount w.

(** [field_count], started from [acc]. *)
Definition field_count_from (acc : Z) (ls : list string) : Z :=
  foldl (fun acc line => wrap64 (acc + Z.of_nat (length (Split comma line)))) acc ls.

(** The counters hold the batch, and every row of it has reached the driver. *)
Definition advanced (b : hypertableBatch) (w w' : world) : Prop :=
  columnCount w' = wrap64 (columnCount w + field_count (rows b))
  /\ rowCount w' = wrap64 (rowCount w + Z.of_nat (length (rows b)))
  /\ exec_count (calls w') = (exec_count (calls w) + length (rows b))%nat.

(** The panics raised after the rows of a batch: closing the statement and
    committing the transaction. *)
Definition after_rows (e : fatal) : bool :=
  match e with
  | DbError CloseStmt | DbError Commit => true
  | _ => false
  end.

(** A driver whose [Commit] fails, and nothing else. *)
Definition commit_fails : Driver :=
  fun _ c => match c with Commit => false | _ => true end.

(** A batch of one well-formed row, and one whose second row has the
    leading field [notanumber]. *)
Definition one_row_batch : hypertableBatch :=
  {| hypertable := "cpu"; rows := ["1000000000,host1,0.5"] |}.

Definition malformed_batch : hypertableBatch :=
  {| hypertable := "cpu";
     rows := ["1000000000,host1,0.5"; "notanumber,host1,0.5"; "2000000000,host1,0.6"] |}.

(** The options of the scenario of C7: the defaults, with the one index
    type [VALUE-TIME] for the tag. *)
Definition scenario_options : Options :=
  {| postgresConnect := postgresConnect defaults;
     workers := workers defaults;
     batchSize := batchSize defaults;
     doLoad := doLoad defaults;
     makeHypertable := makeHypertable defaults;
     logBatches := logBatches defaults;
     tagIndex := "VALUE-TIME";
     fieldIndex := "TIME-VALUE";
     fieldIndexCount := fieldIndexCount defaults;
     reportingPeriod := reportingPeriod defaults;
     numberPartitions := numberPartitions defaults |}.

(** The statements that create an index. *)
Definition is_create_index (c : db_call) : bool :=
  match c with
  | MustExec sql => String.prefix "CREATE INDEX ON " sql
  | _ => false
  end.

(** The header lines the bootstrap reads: those before the first empty one. *)
Fixpoint header_lines (ls : list string) : list string :=
  match ls with
  | [] => []
  | text :: rest =>
      if Nat.eqb (String.length text) 0 then [] else text :: header_lines rest
  end.

(** A step that writes no row, and a step that cannot complete. *)
Definition quiet {A : Type} (x : run A) : Prop :=
  forall w, write_count (calls (snd (x w))) = write_count (calls w).

Definition fails {A : Type} (x : run A) : Prop :=
  forall w, is_done (fst (x w)) = false.

(** What a dry run leaves of the world it started in: the counters, and no
    row written. *)
Definition untouched (w0 w : world) : Prop :=
  columnCount w = columnCount w0 /\ rowCount w = rowCount w0
  /\ write_count (calls w) = write_count (calls w0).

(** A step that, when it completes, returns a value with [P]. *)
Definition returns {A : Type} (x : run A) (P : A -> Prop) : Prop :=
  forall w a w', x w = (Done a, w') -> P a.

(** The run of C6 and C9: the defaults, one header line, one data line. *)
Definition demo_input : Scanner :=
  {| lines := ["cpu,host,usage"; ""; "cpu,1000000000,host1,0.5"]; err := None |}.

Definition dry_options : Options :=
  {| postgresConnect := postgresConnect defaults;
     workers := workers defaults;
     batchSize := batchSize defaults;
     doLoad := false;
     makeHypertable := makeHypertable defaults;
     logBatches := logBatches defaults;
     tagIndex := tagIndex defaults;
     fieldIndex := fieldIndex defaults;
     fieldIndexCount := fieldIndexCount defaults;
     reportingPeriod := reportingPeriod defaults;
     numberPartitions := numberPartitions defaults |}.

Definition demo_script : script :=
  {| to_send := [one_row_batch]; reader_end := None |}.

(** The worlds of that run under the driver that accepts every call: once
    the worker has connected, once it has handled the batch, and at the end. *)
Definition demo_connected (opts : Options) : world :=
  snd (call sound_driver (Connect (postgresConnect opts ++ " dbname=benchmark")%string)
         world_init).

Definition demo_written (opts : Options) : world :=
  snd (processBatch opts sound_driver one_row_batch (demo_connected opts)).

Definition demo_final (opts : Options) : state :=
  {| pc := Summary; pending := []; chan := []; chan_closed := true;
     input_done := true; wg := 0; ws := [WDone];
     shared := snd (call sound_driver CloseDb (demo_written opts));
     consumed := [one_row_batch]; crashed := None |}.

(** ** Descriptions used by the further properties *)

(** The batch a line makes on its own: its relation, and its copy line. *)
Definition line_batch (p : string * string) : hypertableBatch :=
  {| hypertable := fst p; rows := [snd p] |}.

(** What [stmt.Exec] is handed for a row: for the leading field the
    timestamp made from the instant it denotes, in seconds and the nanoseconds
    left over (the string itself is not rendered, see [ArgTime]); the other
    fields as text; [None] when the leading field does not parse. *)
Definition convert (line : string) : option (list arg) :=
  match Split comma line with
  | [] => Some []
  | value :: rest =>
      match ParseInt value with
      | None => None
      | Some timeInt =>
          Some (ArgTime (Z.quot timeInt 1000000000) (Z.rem timeInt 1000000000)
                  :: (ArgText <$> rest))
      end
  end.

(** The driver calls of one batch written to the end. *)
Definition transaction (b : hypertableBatch) (execs : list (list arg)) : list db_call :=
  [Begin; Prepare (copyCmd b)] ++ (Exec <$> execs) ++ [CloseStmt; Commit].

(** The fields of a list of rows, of a list of batches, and of a map of
    accumulators. *)
Definition field_total (ls : list string) : nat :=
  sum_list_with (fun line => length (Split comma line)) ls.

Definition batch_fields (bs : list hypertableBatch) : nat :=
  sum_list_with (fun b => field_total (rows b)) bs.

Definition held_fields (m : gmap string (list string)) : nat :=
  sum_list_with (fun e => field_total (snd e)) (map_to_list m).

(** The copy lines of the input: what follows the first comma of each
    line that has one. *)
Definition copy_lines (ls : list string) : list string :=
  snd <$> omap (Cut comma) ls.

(** A worker inside the body of its loop (lines 186 to 240). *)
Definition writing (p : worker_pc) : bool :=
  match p with WBusy _ => true | _ => false end.

(** What the workers hold at their row loops, measured by [f]. *)
Definition in_hand (f : hypertableBatch -> nat) (ps : list worker_pc) : nat :=
  sum_list_with (fun p => match p with WBusy b => f b | _ => 0%nat end) ps.

(** The counters and the rows written, against the batches received: they
    hold every batch received but those a worker is still writing. *)
Record tally (w0 : world) (s : state) : Prop := {
  T_rows : rowCount (shared s)
           = wrap64 (rowCount w0 + Z.of_nat (row_count (consumed s))
                     - Z.of_nat (in_hand (fun b => length (rows b)) (ws s)));
  T_columns : columnCount (shared s)
              = wrap64 (columnCount w0 + Z.of_nat (batch_fields (consumed s))
                        - Z.of_nat (in_hand (fun b => field_total (rows b)) (ws s)));
  T_execs : (exec_count (calls (shared s)) + in_hand (fun b => length (rows b)) (ws s)
             = exec_count (calls w0) + row_count (consumed s))%nat;
  T_local : columnCountWorker (shared s) = 0
}.

(** A step that leaves the counters and the local field count alone and
    hands no row to the driver. *)
Definition keeps {A : Type} (x : run A) : Prop :=
  forall w, columnCount (snd (x w)) = columnCount w
            /\ rowCount (snd (x w)) = rowCount w
            /\ columnCountWorker (snd (x w)) = columnCountWorker w
            /\ exec_count (calls (snd (x w))) = exec_count (calls w).

(** The options with no worker. *)
Definition no_worker_options : Options :=
  {| postgresConnect := postgresConnect defaults;
     workers := 0;
     batchSize := batchSize defaults;
     doLoad := doLoad defaults;
     makeHypertable := makeHypertable defaults;
     logBatches := logBatches defaults;
     tagIndex := tagIndex defaults;
     fieldIndex := fieldIndex defaults;
     fieldIndexCount := fieldIndexCount defaults;
     reportingPeriod := reportingPeriod defaults;
     numberPartitions := numberPartitions defaults |}.

(** The statement an index type gives for a column; none for the empty
    type. *)
Definition index_statement (hypertable field idx : string) : option string :=
  if String.eqb idx "TIME-VALUE"
  then Some ("CREATE INDEX ON " ++ hypertable ++ " (time, " ++ field ++ ")")%string
  else if String.eqb idx "VALUE-TIME"
  then Some ("CREATE INDEX ON " ++ hypertable ++ " (" ++ field ++ ",time)")%string
  else None.

(** The index statements of the fields of a header line from position
    [idx] on, in the order the loops meet them. *)
Fixpoint planned_indexes (opts : Options) (hypertable : string) (idx : Z)
    (fields : list string) : list string :=
  match fields with
  | [] => []
  | field :: rest =>
      (if negb (Nat.eqb (String.length field) 0) && indexed opts idx
       then omap (index_statement hypertable field)
              (Split comma (if idx =? 0 then tagIndex opts else fieldIndex opts))
       else [])
      ++ planned_indexes opts hypertable (idx + 1) rest
  end.

Definition named (field : string) : bool := negb (Nat.eqb (String.length field) 0).

(** The column definitions of the fields of a header line: the field at
    the first position is the tag, the others are measurements; a field with
    an empty name gives no column. *)
Definition measurement_columns (fields : list string) : list string :=
  (fun field => (field ++ " DOUBLE PRECISION")%string)
    <$> filter (fun field => named field = true) fields.

Definition columns (fields : list string) : list string :=
  match fields with
  | [] => []
  | tag :: measurements =>
      (if named tag then [(tag ++ " TEXT")%string] else [])
      ++ measurement_columns measurements
  end.

(** The statements the bootstrap issues for one relation, and the calls it
    makes before the first header line. *)
Definition relation_statements (opts : Options) (r : relation) : list db_call :=
  MustExec (create_table r) :: (MustExec <$> indexes r)
  ++ (if makeHypertable opts then [MustExec (create_hypertable opts r)] else []).

Definition prologue (opts : Options) : list db_call :=
  [Connect (postgresConnect opts);
   MustExec "DROP DATABASE IF EXISTS benchmark";
   MustExec "CREATE DATABASE benchmark";
   Connect (postgresConnect opts ++ " dbname=benchmark")%string]
  ++ (if makeHypertable opts
      then [MustExec "CREATE EXTENSION IF NOT EXISTS timescaledb CASCADE";
            MustExec "SELECT setup_timescaledb()"]
      else []).

(** The run of the defaults on [demo_input], from the world the bootstrap
    leaves: the worlds once the worker has connected and once it has written
    the batch, and the state at the summary. *)
Definition demo_booted : world :=
  snd (main_header defaults sound_driver (lines demo_input) world_init).

Definition load_connected : world :=
  snd (call sound_driver
         (Connect (postgresConnect defaults ++ " dbname=benchmark")%string) demo_booted).

Definition load_written : world :=
  snd (processBatch defaults sound_driver one_row_batch load_connected).

Definition load_final : state :=
  {| pc := Summary; pending := []; chan := []; chan_closed := true;
     input_done := true; wg := 0; ws := [WDone];
     shared := snd (call sound_driver CloseDb load_written);
     consumed := [one_row_batch]; crashed := None |}.

(** Connections: the calls that open or close one, the closes of a log,
    and the connections the driver has opened over the calls [cs] made after
    the calls [past]. *)
Definition is_link (c : db_call) : bool :=
  match c with Connect _ | CloseDb => true | _ => false end.

Definition is_close (c : db_call) : bool :=
  match c with CloseDb => true | _ => false end.

Definition close_count (cs : list db_call) : nat :=
  length (filter (fun c => is_close c = true) cs).

Fixpoint opened (driver : Driver) (past cs : list db_call) : nat :=
  match cs with
  | [] => 0
  | c :: rest =>
      (match c with
       | Connect _ => if driver past c then 1 else 0
       | _ => 0
       end + opened driver (past ++ [c]) rest)%nat
  end.

(** A step that neither opens nor closes a connection, and a step that
    closes what it opens, whether it returns or panics. *)
Definition neutral {A : Type} (x : run A) : Prop :=
  forall w, exists new, calls (snd (x w)) = calls w ++ new
                        /\ Forall (fun c => is_link c = false) new.

Definition settles (driver : Driver) {A : Type} (x : run A) : Prop :=
  forall w, exists new, calls (snd (x w)) = calls w ++ new
                        /\ opened driver (calls w) new = close_count new.

(** * Properties *)

(** ** The library functions *)

Example ParseInt_ok : ParseInt "1000000000" = Some 1000000000.
Proof. reflexivity. Qed.

Example ParseInt_bad : ParseInt "notanumber" = None.
Proof. reflexivity. Qed.

Example ParseInt_range : ParseInt "9223372036854775808" = None
  /\ ParseInt "-9223372036854775808" = Some (-9223372036854775808).
Proof. split; reflexivity. Qed.

Lemma wrap64_id z : - two63 <= z < two63 -> wrap64 z = z.
Proof.
  intros Hz. unfold wrap64, two64, two63 in *.
  rewrite Z.mod_small; lia.
Qed.

Lemma Cut_contains s : is_Some (Cut comma s) <-> contains comma s = true.
Proof.
  induction s as [|a s IH]; simpl.
  - split; [intros [x Hx]; discriminate | discriminate].
  - destruct (Ascii.eqb a comma); simpl; [split; eauto |].
    rewrite <- IH. destruct (Cut comma s) as [[b c]|]; split; eauto;
      intros [x Hx]; discriminate.
Qed.

Lemma SplitN_2 s :
  SplitN comma s 2 =
  match Cut comma s with Some (a, b) => [a; b] | None => [s] end.
Proof.
  unfold SplitN. simpl. destruct (Cut comma s) as [[a b]|]; reflexivity.
Qed.

(** ** The reader *)

Example scan_two_rows :
  scan 1 {| lines := ["cpu,1000000000,host1,0.5"; "cpu,2000000000,host1,0.6"]; err := None |}
  = Done {| itemsRead := 2;
            batchChan := [ {| hypertable := "cpu"; rows := ["1000000000,host1,0.5"] |};
                           {| hypertable := "cpu"; rows := ["2000000000,host1,0.6"] |} ];
            inputDone := true |}.
Proof. vm_compute. reflexivity. Qed.

Lemma held_empty : held ∅ = 0%nat.
Proof. unfold held. rewrite map_to_list_empty. reflexivity. Qed.

Lemma held_insert_fresh (m : gmap string (list string)) h l :
  m !! h = None -> held (<[h := l]> m) = (length l + held m)%nat.
Proof.
  intros Hm. unfold held. rewrite (map_to_list_insert m h l Hm). reflexivity.
Qed.

Lemma held_insert (m : gmap string (list string)) h l :
  (held (<[h := l]> m) + length (default [] (m !! h)) = length l + held m)%nat.
Proof.
  destruct (m !! h) as [l0|] eqn:Hm; simpl.
  - rewrite <- (insert_delete_id m h l0 Hm) at 2.
    rewrite <- (insert_delete_eq m h l).
    rewrite !held_insert_fresh by apply lookup_delete_eq. lia.
  - rewrite held_insert_fresh by done. lia.
Qed.

Lemma held_append (m : gmap string (list string)) h x :
  held (<[h := (default [] (m !! h) ++ [x])%list]> m) = S (held m).
Proof.
  pose proof (held_insert m h (default [] (m !! h) ++ [x])%list) as E.
  rewrite length_app in E. simpl in E. lia.
Qed.

Lemma held_lookup (m : gmap string (list string)) h l :
  m !! h = Some l -> (length l <= held m)%nat.
Proof.
  intros Hm. unfold held.
  apply (sum_list_with_in (h, l) (fun e => length (snd e))).
  by apply elem_of_map_to_list.
Qed.

Lemma filter_key_absent (L : list (string * list string)) h :
  h ∉ L.*1 -> filter (fun p => fst p = h) L = [].
Proof.
  induction L as [|[k v] L IH]; intros Hh; [reflexivity|].
  rewrite fmap_cons, not_elem_of_cons in Hh. destruct Hh as [Hne Hh].
  rewrite filter_cons_False by (intros Heq; simpl in Heq; by subst). by apply IH.
Qed.

Lemma filter_key_present (L : list (string * list string)) h v :
  NoDup (L.*1) -> (h, v) ∈ L -> filter (fun p => fst p = h) L = [(h, v)].
Proof.
  induction L as [|[k w] L IH]; intros Hnd Hin; [by apply elem_of_nil in Hin|].
  rewrite fmap_cons in Hnd. apply NoDup_cons in Hnd as [Hk Hnd].
  apply elem_of_cons in Hin as [Heq|Hin].
  - inversion Heq; subst k w. rewrite filter_cons_True by reflexivity.
    f_equal. by apply filter_key_absent.
  - rewrite filter_cons_False; [by apply IH|].
    simpl. intros ->. apply Hk. apply list_elem_of_fmap. by exists (h, v).
Qed.

Section ReaderFacts.
Context `{MapRange}.

Lemma range_lookup at_ (m : gmap string (list string)) h l :
  (h, l) ∈ range at_ m <-> m !! h = Some l.
Proof. rewrite (range_perm at_ m). apply elem_of_map_to_list. Qed.

Lemma range_NoDup at_ (m : gmap string (list string)) : NoDup ((range at_ m).*1).
Proof. rewrite (range_perm at_ m). apply NoDup_fst_map_to_list. Qed.

Lemma flush_row_count at_ m : row_count (flush at_ m) = held m.
Proof.
  unfold row_count, flush, held. rewrite <- (range_perm at_ m).
  induction (range at_ m) as [|e L IH]; [reflexivity|].
  rewrite fmap_cons. change (sum_list_with ?f (?x :: ?l)) with (f x + sum_list_with f l)%nat.
  simpl. by rewrite IH.
Qed.

Lemma flush_lookup at_ m b :
  b ∈ flush at_ m <-> m !! hypertable b = Some (rows b).
Proof.
  unfold flush. rewrite list_elem_of_fmap. split.
  - intros [[h l] [-> Hin]]. simpl. by apply (range_lookup at_).
  - intros Hm. exists (hypertable b, rows b). split; [by destruct b|].
    by apply range_lookup.
Qed.

Lemma rows_for_flush at_ m h : rows_for h (flush at_ m) = default [] (m !! h).
Proof.
  unfold rows_for, flush.
  assert (forall L : list (string * list string),
    concat (rows <$> filter (fun b => hypertable b = h)
              ((fun e => {| hypertable := fst e; rows := snd e |}) <$> L))
    = concat (snd <$> filter (fun p => fst p = h) L)) as E.
  { induction L as [|[k v] L IH]; [reflexivity|].
    rewrite fmap_cons. destruct (decide (k = h)) as [Hk|Hk].
    - rewrite !filter_cons_True by done. rewrite !fmap_cons. simpl. by f_equal.
    - rewrite !filter_cons_False by done. done. }
  rewrite E. clear E. destruct (m !! h) as [l|] eqn:Hm; simpl.
  - rewrite (filter_key_present _ h l (range_NoDup at_ m)) by (by apply range_lookup).
    simpl. apply app_nil_r.
  - rewrite filter_key_absent; [reflexivity|].
    intros Hin. apply list_elem_of_fmap in Hin as [[k v] [-> Hin]].
    apply range_lookup in Hin. simpl in *. congruence.
Qed.

Lemma accumulate_spec m text :
  accumulate m text =
  match Cut comma text with
  | Some (h, copyLine) =>
      Done (<[h := (default [] (m !! h) ++ [copyLine])%list]> m)
  | None => Fatal (IndexOutOfRange 1 1)
  end.
Proof.
  unfold accumulate. rewrite SplitN_2.
  destruct (Cut comma text) as [[a b]|]; reflexivity.
Qed.

End ReaderFacts.

Lemma rows_for_app h bs1 bs2 :
  rows_for h (bs1 ++ bs2) = (rows_for h bs1 ++ rows_for h bs2)%list.
Proof. unfold rows_for. by rewrite filter_app, fmap_app, concat_app. Qed.

Lemma row_count_app bs1 bs2 :
  row_count (bs1 ++ bs2) = (row_count bs1 + row_count bs2)%nat.
Proof. apply sum_list_with_app. Qed.

Lemma lines_for_snoc h pre text :
  lines_for h (pre ++ [text]) =
  (lines_for h pre ++
   match Cut comma text with
   | Some (k, c) => if decide (k = h) then [c] else []
   | None => []
   end)%list.
Proof.
  unfold lines_for. rewrite omap_app, filter_app, fmap_app. f_equal.
  simpl. destruct (Cut comma text) as [[k c]|]; simpl; [|reflexivity].
  rewrite filter_cons. simpl. destruct (decide (k = h)); reflexivity.
Qed.

Section ReaderInvariant.
Context `{MapRange}.

Lemma scan_inv_init itemsPerBatch : scan_inv itemsPerBatch [] scan_init.
Proof.
  split; simpl.
  - done.
  - by rewrite held_empty.
  - left. apply held_empty.
  - by rewrite held_empty.
  - intros h. by rewrite lookup_empty.
  - apply map_Forall_empty.
  - constructor.
  - intros _. exists []. by split.
Qed.

Lemma scan_line_inv itemsPerBatch pre st text h c :
  itemsPerBatch < two63 \/ Z.of_nat (length pre) + 1 < two63 ->
  scan_inv itemsPerBatch pre st ->
  Cut comma text = Some (h, c) ->
  exists st', scan_line itemsPerBatch st text = Done st'
    /\ scan_inv itemsPerBatch (pre ++ [text]) st'.
Proof.
  intros NW [Hl Hn Hs Ht Hr Hbn Hsn Hg] Hcut.
  unfold scan_line. rewrite accumulate_spec, Hcut. simpl.
  set (m := <[h := (default [] (batch st !! h) ++ [c])%list]> (batch st)).
  assert (held m = S (held (batch st))) as Hm by apply held_append.
  assert (wrap64 (n st + 1) = n st + 1) as Hw.
  { apply wrap64_id. unfold two63 in *. lia. }
  assert (map_Forall (fun _ l => l <> []) m) as Hmn.
  { apply map_Forall_insert_2; [|done]. by destruct (default [] (batch st !! h)). }
  assert (forall k, default [] (m !! k)
    = (default [] (batch st !! k) ++ if decide (h = k) then [c] else [])%list) as Hmk.
  { intros k. unfold m. destruct (decide (h = k)) as [->|Hne].
    - by rewrite lookup_insert_eq.
    - rewrite lookup_insert_ne by done. by rewrite app_nil_r. }
  rewrite Hw. destruct (itemsPerBatch <=? n st + 1) eqn:Hfl.
  - apply Z.leb_le in Hfl. eexists. split; [reflexivity|].
    split; simpl.
    + rewrite length_app. simpl. intros Hb. rewrite Hl by lia.
      rewrite wrap64_id by (unfold two63 in *; lia). lia.
    + by rewrite held_empty.
    + left. apply held_empty.
    + rewrite row_count_app, flush_row_count, held_empty, length_app. simpl. lia.
    + intros k. rewrite rows_for_app, rows_for_flush, lookup_empty, Hmk. simpl.
      rewrite app_nil_r, lines_for_snoc, Hcut, <- Hr, <- app_assoc.
      repeat f_equal.
    + apply map_Forall_empty.
    + apply Forall_app. split; [done|]. apply Forall_forall. intros b Hb.
      apply flush_lookup in Hb. by apply (Hmn _ _ Hb).
    + intros Hpos. destruct (Hg Hpos) as (groups & Hsent & Hall).
      exists (groups ++ [flush (wrap64 (linesRead st + 1)) m]). split.
      * rewrite concat_app, Hsent. simpl. by rewrite app_nil_r.
      * apply Forall_app. split; [done|]. constructor; [|done].
        rewrite flush_row_count, Hm. lia.
  - apply Z.leb_gt in Hfl. eexists. split; [reflexivity|].
    split; simpl.
    + rewrite length_app. simpl. intros Hb. rewrite Hl by lia.
      rewrite wrap64_id by (unfold two63 in *; lia). lia.
    + rewrite Hm. lia.
    + by right.
    + rewrite Hm, length_app. simpl. lia.
    + intros k. rewrite Hmk, lines_for_snoc, Hcut, <- Hr, <- app_assoc.
      repeat f_equal.
    + done.
    + done.
    + done.
Qed.

End ReaderInvariant.

Lemma Cut_spec s h c :
  Cut comma s = Some (h, c) ->
  s = (h ++ String comma c)%string /\ contains comma h = false.
Proof.
  revert h c. induction s as [|a s IH]; intros h c; simpl; [discriminate|].
  destruct (Ascii.eqb a comma) eqn:Ha.
  - intros [= <- <-]. apply Ascii.eqb_eq in Ha. by subst a.
  - destruct (Cut comma s) as [[b d]|]; [|discriminate].
    intros [= <- <-]. destruct (IH b d eq_refl) as [-> Hb].
    simpl. by rewrite Ha.
Qed.

Section ReaderLoop.
Context `{MapRange}.

Lemma scan_line_done itemsPerBatch st text :
  contains comma text = true -> is_done (scan_line itemsPerBatch st text) = true.
Proof.
  intros Hc. apply Cut_contains in Hc as [[h c] Hc].
  unfold scan_line. rewrite accumulate_spec, Hc. simpl.
  by destruct (itemsPerBatch <=? _).
Qed.

Lemma scan_line_fatal itemsPerBatch st text :
  contains comma text = false ->
  scan_line itemsPerBatch st text = Fatal (IndexOutOfRange 1 1).
Proof.
  intros Hc. unfold scan_line. rewrite accumulate_spec.
  destruct (Cut comma text) as [[h c]|] eqn:E; [|reflexivity].
  assert (contains comma text = true) by (apply Cut_contains; eauto).
  congruence.
Qed.

(** The loop stops at the first line without a comma, and only there. *)
Lemma scan_loop_fatal itemsPerBatch ls : forall st,
  Exists (fun l => contains comma l = false) ls ->
  scan_loop itemsPerBatch st ls = Fatal (IndexOutOfRange 1 1).
Proof.
  induction ls as [|text rest IH]; intros st Hex; [by apply Exists_nil in Hex|].
  simpl. destruct (contains comma text) eqn:Hc.
  - apply Exists_cons in Hex as [Hex|Hex]; [congruence|].
    pose proof (scan_line_done itemsPerBatch st text Hc) as Hd.
    destruct (scan_line itemsPerBatch st text) as [st'|e]; [|discriminate].
    simpl. by apply IH.
  - by rewrite scan_line_fatal.
Qed.

Lemma scan_loop_done itemsPerBatch ls : forall st,
  Forall (fun l => contains comma l = true) ls ->
  is_done (scan_loop itemsPerBatch st ls) = true.
Proof.
  induction ls as [|text rest IH]; intros st Hall; [reflexivity|].
  apply Forall_cons in Hall as [Hc Hall]. simpl.
  pose proof (scan_line_done itemsPerBatch st text Hc) as Hd.
  destruct (scan_line itemsPerBatch st text) as [st'|e]; [|discriminate].
  simpl. by apply IH.
Qed.

Lemma commas_or_not (ls : list string) :
  Forall (fun l => contains comma l = true) ls
  \/ Exists (fun l => contains comma l = false) ls.
Proof.
  induction ls as [|l ls [IH|IH]]; [by left| |].
  - destruct (contains comma l) eqn:E; [left | right]; by constructor.
  - right. by constructor.
Qed.

Lemma scan_loop_inv itemsPerBatch ls : forall pre st st',
  itemsPerBatch < two63 \/ Z.of_nat (length (pre ++ ls)) < two63 ->
  scan_inv itemsPerBatch pre st ->
  scan_loop itemsPerBatch st ls = Done st' ->
  scan_inv itemsPerBatch (pre ++ ls) st'.
Proof.
  induction ls as [|text rest IH]; intros pre st st' NW Hinv Hrun.
  - simpl in Hrun. injection Hrun as <-. by rewrite app_nil_r.
  - simpl in Hrun. destruct (contains comma text) eqn:Hc.
    + apply Cut_contains in Hc as [[h c] Hc].
      destruct (scan_line_inv itemsPerBatch pre st text h c) as (st1 & E & Hinv1);
        [|done|done|].
      { destruct NW as [NW|NW]; [by left | right].
        rewrite length_app in NW. simpl in NW. lia. }
      rewrite E in Hrun. simpl in Hrun.
      replace (pre ++ text :: rest) with ((pre ++ [text]) ++ rest)
        by (by rewrite <- app_assoc).
      apply (IH _ st1); [|done|done].
      by rewrite <- app_assoc.
    + rewrite scan_line_fatal in Hrun by done. discriminate.
Qed.

Lemma final_flush_row_count itemsPerBatch pre st :
  scan_inv itemsPerBatch pre st -> row_count (final_flush st) = held (batch st).
Proof.
  intros Hinv. unfold final_flush. destruct (0 <? n st) eqn:E.
  - apply flush_row_count.
  - apply Z.ltb_ge in E. rewrite (inv_n _ _ _ Hinv) in E.
    simpl. unfold row_count. simpl. lia.
Qed.

Lemma final_flush_rows_for itemsPerBatch pre st h :
  scan_inv itemsPerBatch pre st ->
  rows_for h (final_flush st) = default [] (batch st !! h).
Proof.
  intros Hinv. unfold final_flush. destruct (0 <? n st) eqn:E.
  - apply rows_for_flush.
  - apply Z.ltb_ge in E. rewrite (inv_n _ _ _ Hinv) in E.
    destruct (batch st !! h) as [l|] eqn:Hl; [|reflexivity].
    pose proof (held_lookup _ _ _ Hl) as Hle.
    pose proof (inv_batch_nonempty _ _ _ Hinv h l Hl) as Hne. simpl in Hne.
    destruct l; [done | simpl in Hle; lia].
Qed.

Lemma final_flush_nonempty itemsPerBatch pre st :
  scan_inv itemsPerBatch pre st ->
  Forall (fun b => rows b <> []) (final_flush st).
Proof.
  intros Hinv. unfold final_flush. destruct (0 <? n st); [|constructor].
  apply Forall_forall. intros b Hb. apply flush_lookup in Hb.
  by apply (inv_batch_nonempty _ _ _ Hinv _ _ Hb).
Qed.

End ReaderLoop.

(** The reader's script of a run that panics is well defined: the loop
    completes on the lines before the first one without a comma. *)
Lemma good_prefix_commas ls :
  Forall (fun l => contains comma l = true) (good_prefix ls).
Proof.
  induction ls as [|l rest IH]; simpl; [constructor|].
  destruct (contains comma l) eqn:E; by constructor.
Qed.

Lemma good_prefix_done `{MapRange} itemsPerBatch st ls :
  is_done (scan_loop itemsPerBatch st (good_prefix ls)) = true.
Proof. apply scan_loop_done, good_prefix_commas. Qed.

(** C1, as the claim states it, fails: a line without a comma is an input
    stream too, and on it [scan] reads the line, panics at [parts[1]] and
    returns nothing. *)
Lemma scan_line_without_comma_panics :
  scan 1 no_comma_line = Fatal (IndexOutOfRange 1 1).
Proof. reflexivity. Qed.

(** C1 (amended): on every input stream on which [scan] returns, the value
    it returns is the number of lines read, that number is the sum of the
    row counts of the batches it has put on the queue (threshold flushes and
    the final flush together), and for every relation the rows sent are the
    rows read, in the order read: none dropped, none sent twice; it has
    closed [inputDone]. *)
Theorem scan_conserves_rows `{MapRange} (itemsPerBatch : Z) (scanner : Scanner)
    (r : scanned) :
  Z.of_nat (length (lines scanner)) < two63 ->
  scan itemsPerBatch scanner = Done r ->
  itemsRead r = Z.of_nat (length (lines scanner))
  /\ Z.of_nat (row_count (batchChan r)) = itemsRead r
  /\ (forall h, rows_for h (batchChan r) = lines_for h (lines scanner))
  /\ inputDone r = true.
Proof.
  intros Hlen Hscan. unfold scan in Hscan.
  destruct (scan_loop itemsPerBatch scan_init (lines scanner)) as [st|e] eqn:Hrun;
    [|discriminate].
  pose proof (scan_loop_inv itemsPerBatch (lines scanner) [] scan_init st
                (or_intror Hlen) (scan_inv_init itemsPerBatch) Hrun) as Hinv.
  simpl in Hinv, Hscan. destruct (err scanner); [discriminate|].
  injection Hscan as <-. simpl.
  pose proof (inv_lines _ _ _ Hinv Hlen) as Hl.
  split; [done|]. split; [|split; [|done]].
  - rewrite row_count_app, (final_flush_row_count _ _ _ Hinv), Hl.
    f_equal. apply (inv_total _ _ _ Hinv).
  - intros h. rewrite rows_for_app, (final_flush_rows_for _ _ _ h Hinv).
    apply (inv_rows _ _ _ Hinv).
Qed.

Lemma scan_conserves_rows_witness :
  Z.of_nat (length (lines three_lines)) < two63
  /\ scan 2 three_lines = Done three_lines_scanned
  /\ itemsRead three_lines_scanned = 3
  /\ Z.of_nat (row_count (batchChan three_lines_scanned)) = 3
  /\ (forall h, rows_for h (batchChan three_lines_scanned) = lines_for h (lines three_lines)).
Proof.
  assert (scan 2 three_lines = Done three_lines_scanned) as E by (vm_compute; reflexivity).
  split; [reflexivity|]. split; [exact E|].
  destruct (scan_conserves_rows 2 three_lines three_lines_scanned eq_refl E)
    as (H1 & H2 & H3 & _).
  split; [exact H1|]. split; [exact H2 | exact H3].
Defined.

(** C4, as the claim states it, fails twice.  With a batch size of 0 every
    line is flushed as a batch of one row, more than the configured size; and
    with a batch size of 2 and two relations the threshold flush after the
    second line sends two batches of one row each, smaller than the
    configured size although neither belongs to the final flush (here the
    final flush sends nothing). *)
Lemma scan_batches_off_the_configured_size :
  (scan 0 {| lines := ["cpu,1"]; err := None |}
   = Done {| itemsRead := 1;
             batchChan := [ {| hypertable := "cpu"; rows := ["1"] |} ];
             inputDone := true |})
  /\ (exists st,
        scan_loop 2 scan_init (lines two_relations) = Done st
        /\ final_flush st = []
        /\ sent st = [ {| hypertable := "cpu"; rows := ["1"] |};
                       {| hypertable := "mem"; rows := ["2"] |};
                       {| hypertable := "cpu"; rows := ["3"; "4"] |} ]).
Proof.
  split; [vm_compute; reflexivity|].
  eexists. split; [vm_compute; reflexivity|]. split; reflexivity.
Qed.

Lemma collect_snoc ls text :
  collect (ls ++ [text])
  = match accumulate (collect ls) text with
    | Done m' => m'
    | Fatal _ => collect ls
    end.
Proof. unfold collect. by rewrite foldl_app. Qed.

Section ReaderBlocks.
Context `{MapRange}.

Lemma block_inv_init itemsPerBatch :
  1 <= itemsPerBatch -> block_inv itemsPerBatch [] scan_init [] [] [].
Proof.
  intros Hpos. split; simpl; try done; try constructor; lia.
Qed.

Lemma scan_line_blocks itemsPerBatch pre st st' text blocks cur flushes :
  itemsPerBatch < two63 ->
  block_inv itemsPerBatch pre st blocks cur flushes ->
  scan_line itemsPerBatch st text = Done st' ->
  exists blocks' cur' flushes',
    block_inv itemsPerBatch (pre ++ [text]) st' blocks' cur' flushes'.
Proof.
  intros Hint [Bp Bb Bc Bs Bf Br Bm Bh Bn]. unfold scan_line.
  pose proof (collect_snoc cur text) as Hcol. rewrite <- Bm in Hcol.
  rewrite accumulate_spec in Hcol |- *.
  destruct (Cut comma text) as [[h c]|]; [|discriminate]. simpl.
  set (m := <[h := (default [] (batch st !! h) ++ [c])%list]> (batch st)) in *.
  assert (held m = S (length cur)) as Hm by (unfold m; by rewrite held_append, Bh).
  assert (wrap64 (n st + 1) = Z.of_nat (length cur) + 1) as Hw.
  { rewrite Bn. apply wrap64_id. unfold two63 in *. lia. }
  rewrite Hw. destruct (itemsPerBatch <=? Z.of_nat (length cur) + 1) eqn:Hfl.
  - apply Z.leb_le in Hfl. intros [= <-].
    exists (blocks ++ [cur ++ [text]]), [],
           (flushes ++ [flush (wrap64 (linesRead st + 1)) m]).
    split; simpl.
    + rewrite Bp, concat_app. simpl. by rewrite !app_nil_r, <- app_assoc.
    + apply Forall_app. split; [done|]. constructor; [|done].
      rewrite length_app. simpl. lia.
    + lia.
    + rewrite Bs, concat_app. simpl. by rewrite app_nil_r.
    + apply Forall2_app; [done|]. constructor; [|constructor].
      eexists. by rewrite Hcol.
    + apply Forall_app. split; [done|]. constructor; [|done].
      rewrite flush_row_count, Hm. lia.
    + reflexivity.
    + apply held_empty.
    + reflexivity.
  - apply Z.leb_gt in Hfl. intros [= <-].
    exists blocks, (cur ++ [text]), flushes.
    split; simpl; try done.
    + by rewrite Bp, <- app_assoc.
    + rewrite length_app. simpl. lia.
    + rewrite length_app. simpl. lia.
    + rewrite length_app. simpl. lia.
Qed.

Lemma scan_loop_blocks itemsPerBatch ls : forall pre st st' blocks cur flushes,
  itemsPerBatch < two63 ->
  block_inv itemsPerBatch pre st blocks cur flushes ->
  scan_loop itemsPerBatch st ls = Done st' ->
  exists blocks' cur' flushes',
    block_inv itemsPerBatch (pre ++ ls) st' blocks' cur' flushes'.
Proof.
  induction ls as [|text rest IH]; intros pre st st' blocks cur flushes Hint Hinv.
  - intros [= <-]. rewrite app_nil_r. by exists blocks, cur, flushes.
  - simpl.
    destruct (scan_line itemsPerBatch st text) as [st1|e] eqn:E; simpl;
      [|discriminate].
    destruct (scan_line_blocks _ _ _ _ _ _ _ _ Hint Hinv E)
      as (blocks1 & cur1 & flushes1 & Hinv1).
    intros Hrest.
    replace (pre ++ text :: rest) with ((pre ++ [text]) ++ rest)
      by (by rewrite <- app_assoc).
    by apply (IH _ st1 st' blocks1 cur1 flushes1).
Qed.

End ReaderBlocks.

(** C4 (amended): every batch [scan] puts on the queue is non-empty, and a
    relation without an accumulator at a flush gets no batch.  When the
    configured batch size is at least 1, no batch holds more rows than
    that.  The input is then a sequence of blocks of that many lines each,
    followed by fewer lines than that; what the loop sends is one threshold
    flush per block, in order, each the flush of the accumulator of its
    block, whose batches hold exactly the configured number of rows between
    them (so a batch is smaller whenever the flush has more than one
    relation); and the final flush after the loop is the flush of the
    accumulator of the lines that follow the last block (nothing when there
    is none), whose batches hold fewer than the configured number between
    them. *)
Theorem scan_batch_sizes `{MapRange} (itemsPerBatch : Z) (scanner : Scanner) (r : scanned) :
  itemsPerBatch < two63 ->
  scan itemsPerBatch scanner = Done r ->
  Forall (fun b => rows b <> []) (batchChan r)
  /\ (forall at_ m h, m !! h = None -> Forall (fun b => hypertable b <> h) (flush at_ m))
  /\ (1 <= itemsPerBatch ->
      Forall (fun b => Z.of_nat (length (rows b)) <= itemsPerBatch) (batchChan r)
      /\ exists st blocks rest flushes,
           scan_loop itemsPerBatch scan_init (lines scanner) = Done st
           /\ batchChan r = sent st ++ final_flush st
           /\ lines scanner = concat blocks ++ rest
           /\ Forall (fun block => Z.of_nat (length block) = itemsPerBatch) blocks
           /\ Z.of_nat (length rest) < itemsPerBatch
           /\ sent st = concat flushes
           /\ Forall2 (fun block g => exists at_, g = flush at_ (collect block))
                blocks flushes
           /\ Forall (fun g => Z.of_nat (row_count g) = itemsPerBatch) flushes
           /\ (rest = [] -> final_flush st = [])
           /\ (rest <> [] -> final_flush st = flush (linesRead st) (collect rest))
           /\ Z.of_nat (row_count (final_flush st)) = Z.of_nat (length rest)).
Proof.
  intros Hint Hscan. unfold scan in Hscan.
  destruct (scan_loop itemsPerBatch scan_init (lines scanner)) as [st|e] eqn:Hrun;
    [|discriminate].
  simpl in Hscan. destruct (err scanner); [discriminate|]. injection Hscan as <-.
  pose proof (scan_loop_inv itemsPerBatch (lines scanner) [] scan_init st
                (or_introl Hint) (scan_inv_init itemsPerBatch) Hrun) as Hinv.
  simpl in *. split; [|split].
  - apply Forall_app. split; [apply (inv_sent_nonempty _ _ _ Hinv)|].
    apply (final_flush_nonempty _ _ _ Hinv).
  - intros at_ m h Hm. apply Forall_forall. intros b Hb Heq.
    apply flush_lookup in Hb. congruence.
  - intros Hpos.
    destruct (scan_loop_blocks itemsPerBatch (lines scanner) [] scan_init st [] [] []
                Hint (block_inv_init itemsPerBatch Hpos) Hrun)
      as (blocks & rest & flushes & [Bp Bb Bc Bs Bf Br Bm Bh Bn]).
    simpl in Bp.
    assert (Z.of_nat (row_count (final_flush st)) = Z.of_nat (length rest)) as Hlast.
    { rewrite (final_flush_row_count _ _ _ Hinv). by rewrite Bh. }
    split.
    + apply Forall_app. split.
      * rewrite Bs. apply Forall_concat. eapply Forall_impl; [exact Br|].
        intros g Hg. apply Forall_forall. intros b Hb. cbv beta in Hg.
        pose proof (sum_list_with_in b (fun b => length (rows b)) g Hb) as Hle.
        unfold row_count in Hg. lia.
      * apply Forall_forall. intros b Hb.
        pose proof (sum_list_with_in b (fun b => length (rows b)) _ Hb) as Hle.
        unfold row_count in Hlast. lia.
    + exists st, blocks, rest, flushes.
      split; [done|]. split; [done|]. split; [done|]. split; [done|].
      split; [done|]. split; [done|]. split; [done|]. split; [done|].
      split; [|split; [|exact Hlast]]; unfold final_flush; rewrite Bn, Bm.
      * intros ->. reflexivity.
      * intros Hne. destruct rest; [done|]. reflexivity.
Qed.

Lemma scan_batch_sizes_witness :
  2 < two63
  /\ scan 2 three_lines = Done three_lines_scanned
  /\ Forall (fun b => rows b <> []) (batchChan three_lines_scanned)
  /\ Forall (fun b => Z.of_nat (length (rows b)) <= 2) (batchChan three_lines_scanned)
  /\ exists st blocks rest flushes,
       scan_loop 2 scan_init (lines three_lines) = Done st
       /\ batchChan three_lines_scanned = sent st ++ final_flush st
       /\ lines three_lines = concat blocks ++ rest
       /\ Forall (fun block => Z.of_nat (length block) = 2) blocks
       /\ Z.of_nat (length rest) < 2
       /\ sent st = concat flushes
       /\ Forall2 (fun block g => exists at_, g = flush at_ (collect block))
            blocks flushes
       /\ Forall (fun g => Z.of_nat (row_count g) = 2) flushes
       /\ (rest = [] -> final_flush st = [])
       /\ (rest <> [] -> final_flush st = flush (linesRead st) (collect rest))
       /\ Z.of_nat (row_count (final_flush st)) = Z.of_nat (length rest).
Proof.
  assert (scan 2 three_lines = Done three_lines_scanned) as E by (vm_compute; reflexivity).
  split; [reflexivity|]. split; [exact E|].
  destruct (scan_batch_sizes 2 three_lines three_lines_scanned eq_refl E)
    as (Hne & _ & Hsz).
  split; [exact Hne|]. apply Hsz. lia.
Defined.

(** C10: the split of a line is defined exactly when the line holds a
    comma.  For such a line the text after the first comma is appended to the
    accumulator keyed by the text before it; for a line without a comma
    [parts] has one element and [parts[1]] is out of range, and [scan] ends in
    that panic exactly when some line of the input has no comma. *)
Theorem scan_needs_a_comma `{MapRange} (itemsPerBatch : Z) :
  (forall m text, contains comma text = true ->
     exists h c, text = (h ++ String comma c)%string
       /\ contains comma h = false
       /\ accumulate m text = Done (<[h := default [] (m !! h) ++ [c]]> m))
  /\ (forall m text, contains comma text = false ->
        accumulate m text = Fatal (IndexOutOfRange 1 1))
  /\ (forall scanner,
        scan itemsPerBatch scanner = Fatal (IndexOutOfRange 1 1)
        <-> Exists (fun l => contains comma l = false) (lines scanner)).
Proof.
  split; [|split].
  - intros m text Hc. apply Cut_contains in Hc as [[h c] Hc].
    destruct (Cut_spec _ _ _ Hc) as [-> Hh]. exists h, c.
    split; [done|]. split; [done|]. by rewrite accumulate_spec, Hc.
  - intros m text Hc. rewrite accumulate_spec.
    destruct (Cut comma text) as [[h c]|] eqn:E; [|reflexivity].
    assert (contains comma text = true) by (apply Cut_contains; eauto).
    congruence.
  - intros scanner. unfold scan. split.
    + intros Hf. destruct (commas_or_not (lines scanner)) as [Hall|Hex]; [|done].
      pose proof (scan_loop_done itemsPerBatch _ scan_init Hall) as Hd.
      destruct (scan_loop itemsPerBatch scan_init (lines scanner)); [|discriminate].
      simpl in Hf. destruct (err scanner); discriminate.
    + intros Hex. by rewrite scan_loop_fatal.
Qed.

Example scan_needs_a_comma_reached :
  scan 10000 {| lines := ["cpu,1,a"; "cpu"; "cpu,2,b"]; err := None |}
  = Fatal (IndexOutOfRange 1 1).
Proof. reflexivity. Qed.

(** ** The workers *)

Lemma Split_leading line : Split comma line = leading line :: tl (Split comma line).
Proof.
  unfold leading. destruct line as [|a s]; [reflexivity|]. simpl.
  destruct (Ascii.eqb a comma); [reflexivity|].
  destruct (Split comma s); reflexivity.
Qed.

Lemma exec_count_snoc cs c :
  exec_count (cs ++ [c]) = (exec_count cs + if is_exec c then 1 else 0)%nat.
Proof.
  unfold exec_count. rewrite filter_app, length_app, filter_cons, filter_nil.
  destruct (is_exec c); simpl; [|lia].
  destruct (decide (true = true)); [reflexivity | done].
Qed.

Section WorkerFacts.
Variable opts : Options.
Variable driver : Driver.

Lemma run_bind_eq {A B : Type} (x : run A) (f : A -> run B) w :
  (x ≫= f) w =
  match x w with
  | (Done a, w') => f a w'
  | (Fatal e, w') => (Fatal e, w')
  end.
Proof. reflexivity. Qed.

(** Past the first slot nothing is parsed: the loop cannot fail. *)
Lemma fill_text sp : forall ind in_,
  (0 < ind)%nat -> is_done (fill ind sp in_) = true.
Proof.
  induction sp as [|v rest IH]; intros ind in_ Hind; [reflexivity|].
  simpl. destruct ind; [lia|]. simpl. apply IH. lia.
Qed.

Lemma fill_leading v rest in_ :
  ParseInt v = None -> fill 0 (v :: rest) in_ = Fatal (ParseError v).
Proof. intros E. simpl. by rewrite E. Qed.

Lemma fill_parsed v rest in_ timeInt :
  ParseInt v = Some timeInt -> is_done (fill 0 (v :: rest) in_) = true.
Proof. intros E. simpl. rewrite E. apply fill_text. lia. Qed.

(** What a row becomes: the timestamp, then the other fields as text. *)
Lemma fill_text_value sp : forall pre,
  (0 < length pre)%nat ->
  fill (length pre) sp (pre ++ replicate (length sp) ArgNil)
  = Done (pre ++ (ArgText <$> sp)).
Proof.
  induction sp as [|v rest IH]; intros pre Hpre; simpl.
  - reflexivity.
  - destruct (length pre) as [|k] eqn:Hk; [lia|]. simpl.
    rewrite <- Hk.
    replace (<[length pre := ArgText v]> (pre ++ ArgNil :: replicate (length rest) ArgNil))
      with ((pre ++ [ArgText v]) ++ replicate (length rest) ArgNil).
    + replace (S (length pre)) with (length (pre ++ [ArgText v]))
        by (rewrite length_app; simpl; lia).
      rewrite IH by (rewrite length_app; lia). by rewrite <- app_assoc.
    + rewrite <- app_assoc. simpl.
      rewrite insert_app_r_alt by lia. by rewrite Nat.sub_diag.
Qed.

Lemma fill_value v rest timeInt :
  ParseInt v = Some timeInt ->
  fill 0 (v :: rest) (replicate (length (v :: rest)) ArgNil)
  = Done (ArgTime (Z.quot timeInt 1000000000) (Z.rem timeInt 1000000000)
            :: (ArgText <$> rest)).
Proof.
  intros E. simpl. rewrite E.
  apply (fill_text_value rest [ArgTime _ _]). simpl. lia.
Qed.

Lemma process_row_eq line w :
  process_row driver line w =
  match fill 0 (Split comma line) (replicate (length (Split comma line)) ArgNil) with
  | Done in_ => call driver (Exec in_) (counted w (length (Split comma line)))
  | Fatal e => (Fatal e, counted w (length (Split comma line)))
  end.
Proof.
  unfold process_row. rewrite run_bind_eq. simpl. rewrite run_bind_eq.
  unfold lift, counted.
  destruct (fill 0 _ _); reflexivity.
Qed.

End WorkerFacts.

Section WorkerRows.
Variable opts : Options.
Variable driver : Driver.

(** A row either stops at its leading field, before anything is handed to
    the driver, or goes to the driver in one [Exec]. *)
Lemma process_row_cases line w :
  (ParseInt (leading line) = None
   /\ process_row driver line w
      = (Fatal (ParseError (leading line)), counted w (length (Split comma line))))
  \/ (exists timeInt in_,
        ParseInt (leading line) = Some timeInt
        /\ process_row driver line w
           = call driver (Exec in_) (counted w (length (Split comma line)))).
Proof.
  rewrite process_row_eq. pose proof (Split_leading line) as Hsp.
  destruct (Split comma line) as [|v rest] eqn:Esp; [discriminate|].
  assert (leading line = v) as Hv by congruence. rewrite Hv.
  destruct (ParseInt v) as [timeInt|] eqn:E.
  - right. exists timeInt.
    pose proof (fill_parsed v rest (replicate (length (v :: rest)) ArgNil) timeInt E) as Hd.
    destruct (fill 0 (v :: rest) _) as [in_|e]; [|discriminate]. by exists in_.
  - left. split; [done|]. by rewrite fill_leading.
Qed.

Lemma process_rows_cons line rest w :
  process_rows driver (line :: rest) w =
  match process_row driver line w with
  | (Done _, w1) => process_rows driver rest w1
  | (Fatal e, w1) => (Fatal e, w1)
  end.
Proof. reflexivity. Qed.

(** The loop over the rows leaves the shared counters alone, hands at most
    one [Exec] per row to the driver, and when it completes has handed over
    every row and counted every field. *)
Lemma process_rows_sound ls : forall w,
  same_counters w (snd (process_rows driver ls w))
  /\ batchLines (snd (process_rows driver ls w)) = batchLines w
  /\ (exec_count (calls (snd (process_rows driver ls w)))
      <= exec_count (calls w) + length ls)%nat
  /\ (is_done (fst (process_rows driver ls w)) = true ->
      exec_count (calls (snd (process_rows driver ls w)))
      = (exec_count (calls w) + length ls)%nat
      /\ columnCountWorker (snd (process_rows driver ls w))
         = field_count_from (columnCountWorker w) ls).
Proof.
  induction ls as [|line rest IH]; intros w.
  - simpl. repeat split; lia.
  - rewrite process_rows_cons.
    destruct (process_row_cases line w) as [[_ E]|(t & in_ & _ & E)]; rewrite E.
    + simpl. repeat split; try lia; try discriminate.
    + unfold call. simpl. destruct (driver (calls w) (Exec in_)).
      * match goal with |- context [process_rows driver rest ?w1] =>
          destruct (IH w1) as (Hc & Hb & Hle & Hd) end.
        simpl in *. rewrite exec_count_snoc in Hle, Hd. simpl in Hle, Hd.
        split; [exact Hc|]. split; [exact Hb|]. split; [lia|].
        intros Hdone. destruct (Hd Hdone) as [He Hf]. split; [lia | exact Hf].
      * simpl. rewrite exec_count_snoc. simpl. repeat split; try lia; try discriminate.
Qed.

(** A row whose leading field does not parse stops the loop: no row at or
    after it reaches the driver. *)
Lemma process_rows_bad ls : forall w i bad,
  ls !! i = Some bad ->
  ParseInt (leading bad) = None ->
  is_done (fst (process_rows driver ls w)) = false
  /\ (exec_count (calls (snd (process_rows driver ls w)))
      <= exec_count (calls w) + i)%nat.
Proof.
  induction ls as [|line rest IH]; intros w i bad Hi Hbad; [done|].
  rewrite process_rows_cons.
  destruct (process_row_cases line w) as [[_ E]|(t & in_ & Ht & E)]; rewrite E.
  - simpl. split; [done | lia].
  - destruct i as [|i]; [simpl in Hi; congruence|]. simpl in Hi.
    unfold call. simpl. destruct (driver (calls w) (Exec in_)).
    + match goal with |- context [process_rows driver rest ?w1] =>
        destruct (IH w1 i bad Hi Hbad) as [Hf Hle] end.
      simpl in *. rewrite exec_count_snoc in Hle. simpl in Hle.
      split; [done | lia].
    + simpl. rewrite exec_count_snoc. simpl. split; [done | lia].
Qed.

(** With a driver that accepts every call, the panic is the parse error of
    the first such row, and exactly the rows before it were handed over. *)
Lemma process_rows_first_bad pre bad post : forall w,
  (forall cs c, driver cs c = true) ->
  Forall (fun line => is_Some (ParseInt (leading line))) pre ->
  ParseInt (leading bad) = None ->
  fst (process_rows driver (pre ++ bad :: post) w) = Fatal (ParseError (leading bad))
  /\ exec_count (calls (snd (process_rows driver (pre ++ bad :: post) w)))
     = (exec_count (calls w) + length pre)%nat.
Proof.
  induction pre as [|line pre IH]; intros w Hok Hpre Hbad.
  - simpl app. rewrite process_rows_cons.
    destruct (process_row_cases bad w) as [[_ E]|(t & in_ & Ht & _)]; [|congruence].
    rewrite E. simpl. split; [done | lia].
  - apply Forall_cons in Hpre as [[t Hline] Hpre].
    change ((line :: pre) ++ bad :: post) with (line :: (pre ++ bad :: post)).
    rewrite process_rows_cons.
    destruct (process_row_cases line w) as [[Hn _]|(t' & in_ & _ & E)]; [congruence|].
    rewrite E. unfold call. rewrite Hok.
    match goal with |- context [process_rows driver _ ?w1] =>
      destruct (IH w1 Hok Hpre Hbad) as [Hf Hex] end.
    simpl in *. rewrite exec_count_snoc in Hex. simpl in Hex.
    split; [done | lia].
Qed.

End WorkerRows.

Section WorkerBatch.
Variable opts : Options.
Variable driver : Driver.

Lemma call_inv c w r w1 :
  call driver c w = (r, w1) ->
  same_counters w w1 /\ calls w1 = calls w ++ [c]
  /\ columnCountWorker w1 = columnCountWorker w
  /\ (forall e, r = Fatal e -> e = DbError c).
Proof.
  unfold call. destruct (driver _ _); intros [= <- <-]; simpl;
    (split; [by split|]); (split; [done|]); (split; [done|]); congruence.
Qed.

Lemma process_rows_fatal ls : forall w e w',
  process_rows driver ls w = (Fatal e, w') -> after_rows e = false.
Proof.
  induction ls as [|line rest IH]; intros w e w'; [discriminate|].
  rewrite process_rows_cons.
  destruct (process_row_cases driver line w) as [[_ E]|(t & in_ & _ & E)]; rewrite E.
  - by intros [= <- _].
  - unfold call. destruct (driver _ _); [apply IH | by intros [= <- _]].
Qed.

Lemma processBatch_eq b w :
  doLoad opts = true ->
  processBatch opts driver b w =
  match call driver Begin w with
  | (Fatal e, w1) => (Fatal e, w1)
  | (Done _, w1) =>
    match call driver (Prepare (copyCmd b)) w1 with
    | (Fatal e, w2) => (Fatal e, w2)
    | (Done _, w2) =>
      match process_rows driver (rows b) w2 with
      | (Fatal e, w3) => (Fatal e, w3)
      | (Done _, w3) =>
        match call driver CloseStmt (snd (add_counters (length (rows b)) w3)) with
        | (Fatal e, w4) => (Fatal e, w4)
        | (Done _, w4) =>
          match call driver Commit w4 with
          | (Fatal e, w5) => (Fatal e, w5)
          | (Done _, w5) =>
              if logBatches opts then print_batch opts w5 else (Done tt, w5)
          end
        end
      end
    end
  end.
Proof.
  intros Hload. unfold processBatch. rewrite Hload. simpl.
  rewrite run_bind_eq. destruct (call driver Begin w) as [[[]|e] w1]; [|reflexivity].
  rewrite run_bind_eq. destruct (call driver (Prepare _) w1) as [[[]|e] w2]; [|reflexivity].
  rewrite run_bind_eq. destruct (process_rows driver (rows b) w2) as [[[]|e] w3]; [|reflexivity].
  rewrite run_bind_eq. simpl. rewrite run_bind_eq.
  destruct (call driver CloseStmt _) as [[[]|e] w4]; [|reflexivity].
  rewrite run_bind_eq. destruct (call driver Commit w4) as [[[]|e] w5]; [|reflexivity].
  by destruct (logBatches opts).
Qed.

(** Where a batch written with [doLoad] can end, and with which counters. *)
Lemma processBatch_cases b w :
  doLoad opts = true ->
  columnCountWorker w = 0 ->
  (exists e w', processBatch opts driver b w = (Fatal e, w')
     /\ after_rows e = false /\ same_counters w w')
  \/ (exists e w', processBatch opts driver b w = (Fatal e, w')
        /\ after_rows e = true /\ advanced b w w')
  \/ (exists w', processBatch opts driver b w = (Done tt, w')
        /\ advanced b w w' /\ columnCountWorker w' = 0).
Proof.
  intros Hload Hlocal. rewrite processBatch_eq by done.
  destruct (call driver Begin w) as [[[]|e] w1] eqn:E1;
    apply call_inv in E1 as ([Hc1 Hr1] & Hl1 & Hw1 & He1).
  2: { left. exists e, w1. rewrite (He1 e eq_refl). by repeat split. }
  destruct (call driver (Prepare _) w1) as [[[]|e] w2] eqn:E2;
    apply call_inv in E2 as ([Hc2 Hr2] & Hl2 & Hw2 & He2).
  2: { left. exists e, w2. rewrite (He2 e eq_refl).
       split; [done|]. split; [done|]. split; congruence. }
  destruct (process_rows_sound driver (rows b) w2) as ([Hc3 Hr3] & _ & _ & Hd).
  destruct (process_rows driver (rows b) w2) as [[[]|e] w3] eqn:E3.
  2: { left. exists e, w3. split; [done|].
       split; [by apply (process_rows_fatal _ _ _ _ E3)|]. simpl in *.
       split; congruence. }
  simpl in Hc3, Hr3, Hd. destruct (Hd eq_refl) as [Hex Hcw].
  rewrite Hl2, Hl1, !exec_count_snoc in Hex. simpl in Hex.
  rewrite Hw2, Hw1, Hlocal in Hcw. fold (field_count (rows b)) in Hcw.
  assert (forall w', same_counters (snd (add_counters (length (rows b)) w3)) w' ->
            exec_count (calls w') = exec_count (calls w3) ->
            advanced b w w') as Hadv.
  { intros w' [E1 E2] E3'. unfold advanced. rewrite E1, E2, E3'. simpl.
    rewrite Hcw, Hc3, Hc2, Hc1, Hr3, Hr2, Hr1, Hex.
    split; [done|]. split; [done|]. lia. }
  destruct (call driver CloseStmt _) as [[[]|e] w4] eqn:E4;
    apply call_inv in E4 as (Hs4 & Hl4 & Hw4 & He4).
  2: { right. left. exists e, w4. rewrite (He4 e eq_refl).
       split; [done|]. split; [done|]. apply Hadv; [done|].
       rewrite Hl4, exec_count_snoc. simpl. lia. }
  destruct (call driver Commit w4) as [[[]|e] w5] eqn:E5;
    apply call_inv in E5 as ([Hc5 Hr5] & Hl5 & Hw5 & He5).
  2: { right. left. exists e, w5. rewrite (He5 e eq_refl).
       split; [done|]. split; [done|]. apply Hadv.
       - destruct Hs4. split; congruence.
       - rewrite Hl5, Hl4, !exec_count_snoc. simpl. lia. }
  right. right.
  assert (advanced b w w5) as Hw.
  { apply Hadv.
    - destruct Hs4. split; congruence.
    - rewrite Hl5, Hl4, !exec_count_snoc. simpl. lia. }
  assert (columnCountWorker w5 = 0) as Hz by (rewrite Hw5, Hw4; reflexivity).
  destruct (logBatches opts).
  - exists (snd (print_batch opts w5)). split; [reflexivity|]. split; [exact Hw | exact Hz].
  - exists w5. split; [reflexivity|]. split; [exact Hw | exact Hz].
Qed.

End WorkerBatch.

(** C2, as the claim states it, fails: when the commit fails the counters
    already hold the batch (here 1 row and 3 fields), because the two
    [atomic.AddInt64] stand before [stmt.Close()] and [tx.Commit()]. *)
Lemma counters_hold_an_uncommitted_batch :
  processBatch defaults commit_fails one_row_batch world_init
  = (Fatal (DbError Commit),
     {| columnCount := 3; rowCount := 1;
        calls := [Begin; Prepare (copyCmd one_row_batch);
                  Exec [ArgTime 1 0; ArgText "host1"; ArgText "0.5"];
                  CloseStmt; Commit];
        batchLines := []; columnCountWorker := 0 |}).
Proof. vm_compute. reflexivity. Qed.

(** C2 (amended): for each batch processed with load-writing enabled, the
    worker adds the batch's row count and field count to the shared counters
    once every row of the batch has been handed to the driver, and before it
    closes the statement and commits.  So when the begin, the prepare, a
    parse or an exec fails, the counters are unchanged for that batch; when
    the close or the commit fails, and when the batch completes, they have
    advanced by the batch. *)
Theorem counters_added_before_commit (opts : Options) (driver : Driver)
    (b : hypertableBatch) (w : world) :
  doLoad opts = true ->
  columnCountWorker w = 0 ->
  match processBatch opts driver b w with
  | (Done _, w') => advanced b w w'
  | (Fatal e, w') => if after_rows e then advanced b w w' else same_counters w w'
  end.
Proof.
  intros Hload Hlocal.
  destruct (processBatch_cases opts driver b w Hload Hlocal)
    as [(e & w' & -> & -> & Hs)|[(e & w' & -> & -> & Ha)|(w' & -> & Ha & _)]]; done.
Qed.

Lemma counters_added_before_commit_witness :
  doLoad defaults = true
  /\ columnCountWorker world_init = 0
  /\ match processBatch defaults sound_driver one_row_batch world_init with
     | (Done _, w') => advanced one_row_batch world_init w'
     | (Fatal e, w') =>
         if after_rows e then advanced one_row_batch world_init w'
         else same_counters world_init w'
     end.
Proof.
  split; [reflexivity|]. split; [reflexivity|].
  apply (counters_added_before_commit defaults sound_driver one_row_batch world_init);
    reflexivity.
Defined.

(** With load-writing enabled, the batch as a whole ends where its rows end. *)
Lemma processBatch_parse_error (opts : Options) (driver : Driver)
    (b : hypertableBatch) (w : world) (i : nat) (bad : string) :
  doLoad opts = true ->
  rows b !! i = Some bad ->
  ParseInt (leading bad) = None ->
  exists e w',
    processBatch opts driver b w = (Fatal e, w')
    /\ (forall later, process_all opts driver (b :: later) w = (Fatal e, w'))
    /\ same_counters w w'
    /\ (exec_count (calls w') <= exec_count (calls w) + i)%nat
    /\ ((forall cs c, driver cs c = true) ->
        Forall (fun line => is_Some (ParseInt (leading line))) (take i (rows b)) ->
        e = ParseError (leading bad)
        /\ exec_count (calls w') = (exec_count (calls w) + i)%nat).
Proof.
  intros Hload Hi Hbad.
  assert (forall e w', processBatch opts driver b w = (Fatal e, w') ->
            forall later, process_all opts driver (b :: later) w = (Fatal e, w')) as Hlater.
  { intros e w' E later. simpl. rewrite run_bind_eq. by rewrite E. }
  pose proof (processBatch_eq opts driver b w Hload) as Heq.
  destruct (call driver Begin w) as [[[]|e] w1] eqn:E1;
    pose proof E1 as E1'; apply call_inv in E1' as ([Hc1 Hr1] & Hl1 & _ & He1).
  2: { exists e, w1. split; [done|]. split; [by apply Hlater|]. split; [by split|].
       split; [rewrite Hl1, exec_count_snoc; simpl; lia|].
       intros Hok. unfold call in E1. rewrite Hok in E1. discriminate. }
  destruct (call driver (Prepare _) w1) as [[[]|e] w2] eqn:E2;
    pose proof E2 as E2'; apply call_inv in E2' as ([Hc2 Hr2] & Hl2 & _ & He2).
  2: { exists e, w2. split; [done|]. split; [by apply Hlater|].
       split; [split; congruence|].
       split; [rewrite Hl2, Hl1, !exec_count_snoc; simpl; lia|].
       intros Hok. unfold call in E2. rewrite Hok in E2. discriminate. }
  destruct (process_rows_sound driver (rows b) w2) as ([Hc3 Hr3] & _ & _ & _).
  destruct (process_rows_bad driver (rows b) w2 i bad Hi Hbad) as [Hnd Hle].
  assert (exec_count (calls w2) = exec_count (calls w)) as Hsame.
  { rewrite Hl2, Hl1, !exec_count_snoc. simpl. lia. }
  pose proof (take_drop_middle (rows b) i bad Hi) as Hmid.
  assert (length (take i (rows b)) = i) as Hlen.
  { apply length_take_le. apply lookup_lt_Some in Hi. lia. }
  destruct (process_rows driver (rows b) w2) as [[[]|e] w3] eqn:E3; [discriminate|].
  exists e, w3. split; [done|]. split; [by apply Hlater|]. simpl in *.
  split; [split; congruence|]. split; [lia|].
  intros Hok Hpre.
  destruct (process_rows_first_bad driver (take i (rows b)) bad (drop (S i) (rows b))
              w2 Hok Hpre Hbad) as [Hf Hex].
  rewrite Hmid, E3 in Hf, Hex. simpl in Hf, Hex.
  split; [congruence | lia].
Qed.

(** C5: a batch that holds a row whose leading field does not parse as a
    64-bit decimal integer ends the worker's loop over its rows in a panic:
    no row at or after that row is handed to the driver, and the counters are
    left alone; when the rows before it parse and the driver accepts every
    call, the panic is the parse error of that very row, raised when exactly
    the rows before it have been handed over.  With load-writing enabled
    that is the end of the batch and of the worker: the panic leaves
    [processBatch], and nothing of any later batch runs (no skip and
    continue, no retry). *)
Theorem parse_error_stops_batch (opts : Options) (driver : Driver)
    (b : hypertableBatch) (w : world) (i : nat) (bad : string) :
  rows b !! i = Some bad ->
  ParseInt (leading bad) = None ->
  (exists e w',
     process_rows driver (rows b) w = (Fatal e, w')
     /\ same_counters w w'
     /\ (exec_count (calls w') <= exec_count (calls w) + i)%nat
     /\ ((forall cs c, driver cs c = true) ->
         Forall (fun line => is_Some (ParseInt (leading line))) (take i (rows b)) ->
         e = ParseError (leading bad)
         /\ exec_count (calls w') = (exec_count (calls w) + i)%nat))
  /\ (doLoad opts = true ->
      exists e w',
        processBatch opts driver b w = (Fatal e, w')
        /\ (forall later, process_all opts driver (b :: later) w = (Fatal e, w'))
        /\ same_counters w w'
        /\ (exec_count (calls w') <= exec_count (calls w) + i)%nat
        /\ ((forall cs c, driver cs c = true) ->
            Forall (fun line => is_Some (ParseInt (leading line))) (take i (rows b)) ->
            e = ParseError (leading bad)
            /\ exec_count (calls w') = (exec_count (calls w) + i)%nat)).
Proof.
  intros Hi Hbad. split; [|intros Hload; by apply (processBatch_parse_error opts driver b w i bad)].
  destruct (process_rows_sound driver (rows b) w) as (Hs & _ & _ & _).
  destruct (process_rows_bad driver (rows b) w i bad Hi Hbad) as [Hnd Hle].
  pose proof (take_drop_middle (rows b) i bad Hi) as Hmid.
  assert (length (take i (rows b)) = i) as Hlen.
  { apply length_take_le. apply lookup_lt_Some in Hi. lia. }
  destruct (process_rows driver (rows b) w) as [[[]|e] w'] eqn:E; [discriminate|].
  exists e, w'. simpl in *. split; [done|]. split; [done|]. split; [lia|].
  intros Hok Hpre.
  destruct (process_rows_first_bad driver (take i (rows b)) bad (drop (S i) (rows b))
              w Hok Hpre Hbad) as [Hf Hex].
  rewrite Hmid, E in Hf, Hex. simpl in Hf, Hex.
  split; [congruence | lia].
Qed.

Lemma parse_error_stops_batch_witness :
  rows malformed_batch !! 1%nat = Some "notanumber,host1,0.5"
  /\ ParseInt (leading "notanumber,host1,0.5") = None
  /\ exists e w',
       processBatch defaults sound_driver malformed_batch world_init = (Fatal e, w')
       /\ e = ParseError "notanumber"
       /\ same_counters world_init w'
       /\ exec_count (calls w') = 1%nat.
Proof.
  split; [reflexivity|]. split; [reflexivity|].
  destruct (parse_error_stops_batch defaults sound_driver malformed_batch world_init 1
              "notanumber,host1,0.5" eq_refl eq_refl) as [_ Hbatch].
  destruct (Hbatch eq_refl) as (e & w' & Hrun & _ & Hsame & _ & Hexact).
  exists e, w'. split; [exact Hrun|].
  destruct Hexact as [He Hn]; [reflexivity | repeat constructor; by eexists |].
  split; [exact He|]. split; [exact Hsame | exact Hn].
Defined.

Example malformed_row_panics :
  fst (processBatch defaults sound_driver malformed_batch world_init)
  = Fatal (ParseError "notanumber")
  /\ exec_count (calls (snd (processBatch defaults sound_driver malformed_batch world_init)))
     = 1%nat.
Proof. split; vm_compute; reflexivity. Qed.

(** ** The reporter *)

Module ReporterFacts.
Import Reporter.

Example report_run_a :
  report 0 run_a
  = [ {| time := 1; colrate := 6%float; rowrate := 2%float;
         overallRowrate := 2%float; totalRows := 2%float |};
      {| time := 2; colrate := 3%float; rowrate := 1%float;
         overallRowrate := 1.5%float; totalRows := 3%float |} ].
Proof. vm_compute. reflexivity. Qed.

Lemma report_loop_length start ticks : forall st,
  length (report_loop start st ticks) = length ticks.
Proof.
  induction ticks as [|t rest IH]; intros st; [reflexivity|].
  simpl. by rewrite IH.
Qed.

(** The locals at a tick are what the tick before it read. *)
Lemma report_loop_lookup start ticks : forall p k t,
  ticks !! k = Some t ->
  report_loop start (state_of p) ticks !! k
  = Some (fst (report_tick start
                 (state_of match k with
                           | O => p
                           | S k' => default p (ticks !! k')
                           end) t)).
Proof.
  induction ticks as [|t0 rest IH]; intros p k t Hk; [done|].
  destruct k as [|k']; simpl in Hk.
  - injection Hk as ->. reflexivity.
  - change (report_loop start (state_of p) (t0 :: rest) !! S k')
      with (report_loop start (state_of t0) rest !! k').
    rewrite (IH t0 k' t Hk). destruct k' as [|k'']; [reflexivity|].
    simpl. destruct (rest !! k'') eqn:E; [reflexivity|].
    apply lookup_ge_None in E. apply lookup_lt_Some in Hk. lia.
Qed.

(** C3, as the claim states it, fails: the line of a tick carries no overall
    rate of the column count.  The second ticks of [run_a] and [run_b] print
    the same line, value for value, while the overall column rates at those
    ticks are 4.5 and 5.5 columns a second. *)
Lemma report_line_has_no_overall_colrate :
  report 0 run_a !! 1%nat
  = Some {| time := 2; colrate := 3%float; rowrate := 1%float;
            overallRowrate := 1.5%float; totalRows := 3%float |}
  /\ report 0 run_b !! 1%nat
     = Some {| time := 2; colrate := 3%float; rowrate := 1%float;
               overallRowrate := 1.5%float; totalRows := 3%float |}
  /\ overallColrate 0 {| now := 2000000000; colCount := 9; rowCountRead := 3 |}
     = 4.5%float
  /\ overallColrate 0 {| now := 2000000000; colCount := 11; rowCountRead := 3 |}
     = 5.5%float.
Proof. repeat split; vm_compute; reflexivity. Qed.

(** C3 (amended): the reporter prints one line per tick.  The line holds the
    counters read at that tick as the rate of the column count and the rate
    of the row count over the period since the tick before (since the start
    for the first tick), the rate of the row count alone over the time since
    the start, and the row count itself. *)
Theorem report_lines (start : Time) (ticks : list tick) (k : nat) (t : tick) :
  ticks !! k = Some t ->
  length (report start ticks) = length ticks
  /\ report start ticks !! k
     = Some {| time := Unix (now t);
               colrate :=
                 PrimFloat.div
                   (float64 (wrap64 (colCount t - colCount (previous start ticks k))))
                   (Seconds (Sub (now t) (now (previous start ticks k))));
               rowrate :=
                 PrimFloat.div
                   (float64 (wrap64 (rowCountRead t - rowCountRead (previous start ticks k))))
                   (Seconds (Sub (now t) (now (previous start ticks k))));
               overallRowrate :=
                 PrimFloat.div (float64 (rowCountRead t)) (Seconds (Sub (now t) start));
               totalRows := float64 (rowCountRead t) |}.
Proof.
  intros Hk. split; [apply report_loop_length|].
  unfold report.
  change {| prevTime := start; prevColCount := 0; prevRowCount := 0 |}
    with (state_of {| now := start; colCount := 0; rowCountRead := 0 |}).
  rewrite (report_loop_lookup start ticks _ k t Hk). reflexivity.
Qed.

Lemma report_lines_witness :
  run_a !! 1%nat = Some {| now := 2000000000; colCount := 9; rowCountRead := 3 |}
  /\ length (report 0 run_a) = length run_a
  /\ report 0 run_a !! 1%nat
     = Some {| time := 2; colrate := 3%float; rowrate := 1%float;
               overallRowrate := 1.5%float; totalRows := 3%float |}.
Proof.
  split; [reflexivity|].
  destruct (report_lines 0 run_a 1
              {| now := 2000000000; colCount := 9; rowCountRead := 3 |} eq_refl)
    as [Hlen Hline].
  split; [exact Hlen|]. rewrite Hline. vm_compute. reflexivity.
Defined.

End ReporterFacts.

(** ** The schema bootstrap *)

Example scenario_statements :
  calls (snd (initBenchmarkDB scenario_options sound_driver ["cpu,host,usage"; ""] world_init))
  = [ Connect "host=postgres user=postgres sslmode=disable";
      MustExec "DROP DATABASE IF EXISTS benchmark";
      MustExec "CREATE DATABASE benchmark";
      Connect "host=postgres user=postgres sslmode=disable dbname=benchmark";
      MustExec "CREATE EXTENSION IF NOT EXISTS timescaledb CASCADE";
      MustExec "SELECT setup_timescaledb()";
      MustExec "CREATE TABLE cpu (time timestamptz, host TEXT,usage DOUBLE PRECISION)";
      MustExec "CREATE INDEX ON cpu (host,time)";
      MustExec "CREATE INDEX ON cpu (time, usage)";
      MustExec "SELECT create_hypertable('cpu'::regclass, 'time'::name, partitioning_column => 'host'::name, number_partitions => 1::smallint, chunk_time_interval => 28800000000)";
      CloseDb; CloseDb ].
Proof. vm_compute. reflexivity. Qed.

Lemma outcome_bind_eq {A B : Type} (x : outcome A) (f : A -> outcome B) :
  (x ≫= f) = match x with Done a => f a | Fatal e => Fatal e end.
Proof. reflexivity. Qed.

Lemma index_token_accepted hypertable field idx ixs :
  accepted_index idx = true ->
  index_token hypertable field idx ixs
  = Done (if String.eqb idx "TIME-VALUE"
          then ixs ++ [("CREATE INDEX ON " ++ hypertable ++ " (time, " ++ field ++ ")")%string]
          else if String.eqb idx "VALUE-TIME"
          then ixs ++ [("CREATE INDEX ON " ++ hypertable ++ " (" ++ field ++ ",time)")%string]
          else ixs).
Proof.
  unfold accepted_index, known_index, index_token. intros Hacc.
  destruct (String.eqb idx "TIME-VALUE") eqn:E1.
  - apply String.eqb_eq in E1. subst idx. reflexivity.
  - destruct (String.eqb idx "VALUE-TIME") eqn:E2.
    + apply String.eqb_eq in E2. subst idx. reflexivity.
    + simpl in Hacc. rewrite Hacc. reflexivity.
Qed.

Lemma index_token_rejected hypertable field idx ixs :
  accepted_index idx = false ->
  index_token hypertable field idx ixs = Fatal (UnknownIndexType idx).
Proof.
  unfold accepted_index, known_index, index_token. intros Hacc.
  destruct (String.eqb idx "TIME-VALUE"); [discriminate|].
  destruct (String.eqb idx "VALUE-TIME"); [discriminate|].
  simpl in Hacc. rewrite Hacc. reflexivity.
Qed.

Lemma index_loop_done hypertable field idxTypes : forall ixs,
  is_done (index_loop hypertable field idxTypes ixs) = true
  <-> Forall (fun idx => accepted_index idx = true) idxTypes.
Proof.
  induction idxTypes as [|idx rest IH]; intros ixs; simpl.
  - split; [constructor | done].
  - rewrite outcome_bind_eq. destruct (accepted_index idx) eqn:E.
    + rewrite index_token_accepted by done. rewrite IH, Forall_cons. tauto.
    + rewrite index_token_rejected by done. simpl. rewrite Forall_cons.
      split; [discriminate | intros [? _]; congruence].
Qed.

Lemma index_loop_fatal hypertable field idxTypes : forall ixs e,
  index_loop hypertable field idxTypes ixs = Fatal e ->
  exists idx, e = UnknownIndexType idx /\ idx ∈ idxTypes /\ accepted_index idx = false.
Proof.
  induction idxTypes as [|idx rest IH]; intros ixs e; simpl; [discriminate|].
  rewrite outcome_bind_eq. destruct (accepted_index idx) eqn:E.
  - rewrite index_token_accepted by done. intros Hf.
    destruct (IH _ _ Hf) as (i & -> & Hin & Hi). exists i.
    split; [done|]. split; [by right | done].
  - rewrite index_token_rejected by done. intros [= <-]. exists idx.
    split; [done|]. split; [by left | done].
Qed.

Section SchemaFacts.
Variable opts : Options.

Lemma fields_loop_done fields : forall idx r,
  is_done (fields_loop opts idx fields r) = true
  <-> Forall (fun i => accepted_index i = true) (examined_from opts idx fields).
Proof.
  induction fields as [|field rest IH]; intros idx r; simpl.
  - split; [constructor | done].
  - destruct (Nat.eqb (String.length field) 0); simpl; [apply IH|].
    rewrite outcome_bind_eq, Forall_app. destruct (indexed opts idx).
    + destruct (index_loop _ _ _ _) as [ixs|e] eqn:E.
      * rewrite IH. split; [|tauto]. intros Hrest. split; [|done].
        apply (index_loop_done (table r) field _ (indexes r)). by rewrite E.
      * split; [discriminate|]. intros [Hacc _].
        apply (index_loop_done (table r) field _ (indexes r)) in Hacc.
        by rewrite E in Hacc.
    + rewrite IH. split; [|tauto]. intros Hrest. split; [constructor | done].
Qed.

Lemma fields_loop_fatal fields : forall idx r e,
  fields_loop opts idx fields r = Fatal e ->
  exists i, e = UnknownIndexType i /\ i ∈ examined_from opts idx fields
    /\ accepted_index i = false.
Proof.
  induction fields as [|field rest IH]; intros idx r e; simpl; [discriminate|].
  destruct (Nat.eqb (String.length field) 0); simpl; [apply IH|].
  rewrite outcome_bind_eq. destruct (indexed opts idx).
  - destruct (index_loop _ _ _ _) as [ixs|e'] eqn:E.
    + intros Hf. destruct (IH _ _ _ Hf) as (i & -> & Hin & Hi). exists i.
      split; [done|]. split; [|done]. apply elem_of_app. by right.
    + intros [= <-]. destruct (index_loop_fatal _ _ _ _ _ E) as (i & -> & Hin & Hi).
      exists i. split; [done|]. split; [|done]. apply elem_of_app. by left.
  - intros Hf. destruct (IH _ _ _ Hf) as (i & -> & Hin & Hi). exists i.
    split; [done|]. split; [|done]. apply elem_of_app. by right.
Qed.

Lemma derive_schema_eq text :
  derive_schema opts text
  = fields_loop opts 0 (drop 1 (Split comma text))
      {| table := leading text; partitioningField := ""; fieldDef := []; indexes := [] |}.
Proof.
  unfold derive_schema. rewrite (Split_leading text). reflexivity.
Qed.

End SchemaFacts.

Lemma write_count_snoc cs c :
  write_count (cs ++ [c]) = (write_count cs + if is_write c then 1 else 0)%nat.
Proof.
  unfold write_count. rewrite filter_app, length_app, filter_cons, filter_nil.
  destruct (is_write c); simpl; [|lia].
  destruct (decide (true = true)); [reflexivity | done].
Qed.

Section RunFacts.
Variable driver : Driver.

Lemma quiet_ret {A : Type} (a : A) : quiet (mret a : run A).
Proof. by intros w. Qed.

Lemma quiet_lift {A : Type} (o : outcome A) : quiet (lift o).
Proof. by intros w. Qed.

Lemma quiet_call c : is_write c = false -> quiet (call driver c).
Proof.
  intros Hc w. unfold call.
  destruct (driver _ _); simpl; rewrite write_count_snoc, Hc; lia.
Qed.

Lemma quiet_bind {A B : Type} (x : run A) (f : A -> run B) :
  quiet x -> (forall a, quiet (f a)) -> quiet (x ≫= f).
Proof.
  intros Hx Hf w. rewrite run_bind_eq. specialize (Hx w).
  destruct (x w) as [[a|e] w1]; simpl in *; [|done]. by rewrite Hf.
Qed.

Lemma quiet_deferred_close {A : Type} (body : run A) :
  quiet body -> quiet (deferred_close driver body).
Proof.
  intros Hb w. unfold deferred_close. specialize (Hb w).
  destruct (body w) as [res w1]. simpl in *.
  by rewrite (quiet_call CloseDb eq_refl w1).
Qed.

Lemma fails_bind_l {A B : Type} (x : run A) (f : A -> run B) :
  fails x -> fails (x ≫= f).
Proof.
  intros Hx w. rewrite run_bind_eq. specialize (Hx w).
  by destruct (x w) as [[a|e] w1].
Qed.

Lemma fails_bind_r {A B : Type} (x : run A) (f : A -> run B) :
  (forall a, fails (f a)) -> fails (x ≫= f).
Proof.
  intros Hf w. rewrite run_bind_eq.
  destruct (x w) as [[a|e] w1]; [apply Hf | done].
Qed.

Lemma fails_deferred_close {A : Type} (body : run A) :
  fails body -> fails (deferred_close driver body).
Proof.
  intros Hb w. unfold deferred_close. specialize (Hb w).
  by destruct (body w) as [res w1].
Qed.

End RunFacts.

Section BootstrapFacts.
Variable opts : Options.
Variable driver : Driver.

Lemma quiet_exec_all stmts : quiet (exec_all driver stmts).
Proof.
  induction stmts as [|sql rest IH]; simpl; [apply quiet_ret|].
  apply quiet_bind; [by apply quiet_call | by intros _].
Qed.

Lemma quiet_create_relation text : quiet (create_relation opts driver text).
Proof.
  unfold create_relation. apply quiet_bind; [apply quiet_lift|]. intros r.
  apply quiet_bind; [by apply quiet_call|]. intros _.
  apply quiet_bind; [apply quiet_exec_all|]. intros _.
  destruct (makeHypertable opts); [by apply quiet_call | apply quiet_ret].
Qed.

Lemma quiet_header_loop ls : quiet (header_loop opts driver ls).
Proof.
  induction ls as [|text rest IH]; simpl; [apply quiet_ret|].
  destruct (Nat.eqb (String.length text) 0); [apply quiet_ret|].
  apply quiet_bind; [apply quiet_create_relation | by intros _].
Qed.

Lemma quiet_initBenchmarkDB ls : quiet (initBenchmarkDB opts driver ls).
Proof.
  unfold initBenchmarkDB.
  apply quiet_bind; [by apply quiet_call|]. intros _.
  apply quiet_deferred_close.
  apply quiet_bind; [by apply quiet_call|]. intros _.
  apply quiet_bind; [by apply quiet_call|]. intros _.
  apply quiet_bind; [by apply quiet_call|]. intros _.
  apply quiet_deferred_close.
  apply quiet_bind; [|intros _; apply quiet_header_loop].
  destruct (makeHypertable opts); [|apply quiet_ret].
  apply quiet_bind; [by apply quiet_call | intros _; by apply quiet_call].
Qed.

Lemma quiet_main_header ls : quiet (main_header opts driver ls).
Proof.
  unfold main_header.
  destruct (doLoad opts); [apply quiet_initBenchmarkDB | apply quiet_ret].
Qed.

Lemma fails_create_relation text :
  is_done (derive_schema opts text) = false ->
  fails (create_relation opts driver text).
Proof.
  intros Hd. unfold create_relation. apply fails_bind_l. intros w.
  unfold lift. simpl. exact Hd.
Qed.

Lemma fails_header_loop ls :
  Exists (fun text => is_done (derive_schema opts text) = false) (header_lines ls) ->
  fails (header_loop opts driver ls).
Proof.
  induction ls as [|text rest IH]; simpl; intros Hex.
  - by apply Exists_nil in Hex.
  - destruct (Nat.eqb (String.length text) 0); [by apply Exists_nil in Hex|].
    apply Exists_cons in Hex as [Hd|Hex].
    + apply fails_bind_l. by apply fails_create_relation.
    + apply fails_bind_r. intros _. by apply IH.
Qed.

Lemma fails_initBenchmarkDB ls :
  Exists (fun text => is_done (derive_schema opts text) = false) (header_lines ls) ->
  fails (initBenchmarkDB opts driver ls).
Proof.
  intros Hex. unfold initBenchmarkDB.
  apply fails_bind_r. intros _. apply fails_deferred_close.
  do 3 (apply fails_bind_r; intros _). apply fails_deferred_close.
  apply fails_bind_r. intros _. by apply fails_header_loop.
Qed.

End BootstrapFacts.

(** C7: for the header line [cpu,host,usage] followed by an empty line,
    with the tag index policy [VALUE-TIME] and the measurement index policy
    [TIME-VALUE] (and the count of indexed fields at its default, all, or at
    least 1), the bootstrap derives one index for the tag field, on
    (host,time), and one for the measurement field, on (time, usage), and no
    other; with a driver that accepts every call these are the two index
    statements it runs, and it leaves no line of the input behind. *)
Theorem header_cpu_host_usage (opts : Options) :
  tagIndex opts = "VALUE-TIME" ->
  fieldIndex opts = "TIME-VALUE" ->
  fieldIndexCount opts = -1 \/ 1 <= fieldIndexCount opts ->
  derive_schema opts "cpu,host,usage"
  = Done {| table := "cpu"; partitioningField := "host";
            fieldDef := ["host TEXT"; "usage DOUBLE PRECISION"];
            indexes := ["CREATE INDEX ON cpu (host,time)";
                        "CREATE INDEX ON cpu (time, usage)"] |}
  /\ fst (initBenchmarkDB opts sound_driver ["cpu,host,usage"; ""] world_init) = Done []
  /\ filter (fun c => is_create_index c = true)
       (calls (snd (initBenchmarkDB opts sound_driver ["cpu,host,usage"; ""] world_init)))
     = [MustExec "CREATE INDEX ON cpu (host,time)";
        MustExec "CREATE INDEX ON cpu (time, usage)"].
Proof.
  intros Htag Hfield Hcount.
  assert (indexed opts 0 = true) as H0.
  { unfold indexed. apply orb_true_iff. destruct Hcount as [->|Hc]; [by left|].
    right. apply Z.leb_le. lia. }
  assert (indexed opts 1 = true) as H1.
  { unfold indexed. apply orb_true_iff. destruct Hcount as [->|Hc]; [by left|].
    right. by apply Z.leb_le. }
  assert (derive_schema opts "cpu,host,usage"
          = Done {| table := "cpu"; partitioningField := "host";
                    fieldDef := ["host TEXT"; "usage DOUBLE PRECISION"];
                    indexes := ["CREATE INDEX ON cpu (host,time)";
                                "CREATE INDEX ON cpu (time, usage)"] |}) as Hschema.
  { unfold derive_schema. simpl. rewrite H0. simpl. change (0 + 1) with 1. rewrite H1, Htag, Hfield. reflexivity. }
  split; [exact Hschema|].
  unfold initBenchmarkDB, deferred_close, header_loop, create_relation.
  rewrite !run_bind_eq. simpl lift. unfold lift. rewrite Hschema.
  destruct (makeHypertable opts); split; reflexivity.
Qed.

Lemma header_cpu_host_usage_witness :
  tagIndex scenario_options = "VALUE-TIME"
  /\ fieldIndex scenario_options = "TIME-VALUE"
  /\ fieldIndexCount scenario_options = -1
  /\ derive_schema scenario_options "cpu,host,usage"
     = Done {| table := "cpu"; partitioningField := "host";
               fieldDef := ["host TEXT"; "usage DOUBLE PRECISION"];
               indexes := ["CREATE INDEX ON cpu (host,time)";
                           "CREATE INDEX ON cpu (time, usage)"] |}.
Proof.
  split; [reflexivity|]. split; [reflexivity|]. split; [reflexivity|].
  apply (header_cpu_host_usage scenario_options eq_refl eq_refl (or_introl eq_refl)).
Defined.

(** C8: in the loop over the index types, one that is neither [TIME-VALUE]
    nor [VALUE-TIME] is a panic exactly when it is not the empty string: the
    empty string adds no index and raises nothing, any other raises
    [Unknown index type].  So the schema of a header line is derived exactly
    when every index type the loops look at is one of the two or empty, and
    fails only by that panic, on a type that is none of the three.  The
    header phase hands no row to the database, and a header line with such an
    index type keeps the bootstrap from completing: the run ends before any
    data is written. *)
Theorem unknown_index_type (opts : Options) :
  (forall hypertable field idx ixs,
     known_index idx = false ->
     (is_done (index_token hypertable field idx ixs) = false <-> idx <> "")
     /\ (idx = "" -> index_token hypertable field idx ixs = Done ixs)
     /\ (idx <> "" -> index_token hypertable field idx ixs = Fatal (UnknownIndexType idx)))
  /\ (forall text,
        is_done (derive_schema opts text) = true
        <-> Forall (fun idx => accepted_index idx = true) (examined opts text))
  /\ (forall text e,
        derive_schema opts text = Fatal e ->
        exists idx, e = UnknownIndexType idx /\ idx ∈ examined opts text
          /\ known_index idx = false /\ idx <> "")
  /\ (forall driver ls, quiet (main_header opts driver ls))
  /\ (forall driver ls,
        Exists (fun text => Exists (fun idx => accepted_index idx = false) (examined opts text))
          (header_lines ls) ->
        fails (initBenchmarkDB opts driver ls)).
Proof.
  assert (forall idx, accepted_index idx = false <-> known_index idx = false /\ idx <> "")
    as Hrej.
  { intros idx. unfold accepted_index. rewrite orb_false_iff.
    split; intros [Hk He]; (split; [done|]).
    - by apply String.eqb_neq.
    - by apply String.eqb_neq in He. }
  split; [|split; [|split; [|split]]].
  - intros hypertable field idx ixs Hk.
    assert (idx = "" -> index_token hypertable field idx ixs = Done ixs) as Hempty.
    { intros ->. reflexivity. }
    assert (idx <> "" -> index_token hypertable field idx ixs = Fatal (UnknownIndexType idx))
      as Hother.
    { intros Hne. apply index_token_rejected. by apply Hrej. }
    split; [|by split]. split.
    + intros Hd ->. rewrite Hempty in Hd by done. discriminate.
    + intros Hne. by rewrite Hother.
  - intros text. rewrite derive_schema_eq. apply fields_loop_done.
  - intros text e. rewrite derive_schema_eq. intros Hf.
    destruct (fields_loop_fatal _ _ _ _ _ Hf) as (idx & -> & Hin & Hacc).
    apply Hrej in Hacc as [Hk Hne]. by exists idx.
  - intros driver ls. apply quiet_main_header.
  - intros driver ls Hex. apply fails_initBenchmarkDB.
    eapply Exists_impl; [exact Hex|]. intros text Hbad. cbv beta in Hbad.
    destruct (is_done (derive_schema opts text)) eqn:Hd; [|reflexivity].
    rewrite derive_schema_eq in Hd. apply fields_loop_done in Hd.
    apply Exists_exists in Hbad as (idx & Hin & Hacc).
    rewrite Forall_forall in Hd. specialize (Hd idx Hin). congruence.
Qed.

Example unknown_index_type_panics :
  fst (initBenchmarkDB
         {| postgresConnect := ""; workers := 1; batchSize := 10000; doLoad := true;
            makeHypertable := true; logBatches := false;
            tagIndex := "VALUE-TIME,HASH"; fieldIndex := ",TIME-VALUE";
            fieldIndexCount := -1; reportingPeriod := 1000; numberPartitions := 1 |}
         sound_driver ["cpu,host,usage"; ""] world_init)
  = Fatal (UnknownIndexType "HASH").
Proof. vm_compute. reflexivity. Qed.

Example empty_index_type_skipped :
  derive_schema
    {| postgresConnect := ""; workers := 1; batchSize := 10000; doLoad := true;
       makeHypertable := true; logBatches := false;
       tagIndex := ""; fieldIndex := ",TIME-VALUE";
       fieldIndexCount := -1; reportingPeriod := 1000; numberPartitions := 1 |}
    "cpu,host,usage"
  = Done {| table := "cpu"; partitioningField := "host";
            fieldDef := ["host TEXT"; "usage DOUBLE PRECISION"];
            indexes := ["CREATE INDEX ON cpu (time, usage)"] |}.
Proof. vm_compute. reflexivity. Qed.

(** ** The goroutines *)

Lemma active_app ps qs : active (ps ++ qs) = (active ps + active qs)%nat.
Proof. unfold active. by rewrite filter_app, length_app. Qed.

Lemma active_cons p ps :
  active (p :: ps) = ((if announced p then 0 else 1) + active ps)%nat.
Proof.
  unfold active. rewrite filter_cons. destruct (announced p); simpl.
  - destruct (decide (true = false)); [discriminate | reflexivity].
  - destruct (decide (false = false)); [reflexivity | done].
Qed.

Lemma active_insert ps : forall i p p',
  ps !! i = Some p ->
  (active (<[i := p']> ps) + (if announced p then 0 else 1)
   = active ps + (if announced p' then 0 else 1))%nat.
Proof.
  induction ps as [|q ps IH]; intros i p p' Hi; [done|].
  destruct i as [|i]; simpl in *.
  - injection Hi as ->. rewrite !active_cons. lia.
  - rewrite !active_cons. specialize (IH i p p' Hi). lia.
Qed.

Lemma active_zero ps : active ps = 0%nat -> Forall (fun p => p = WDone) ps.
Proof.
  induction ps as [|p ps IH]; [constructor|].
  rewrite active_cons. destruct p; simpl; try lia.
  intros Hz. constructor; [reflexivity | by apply IH].
Qed.

Lemma lookup_insert_exited (ps : list worker_pc) i p' (Q : Prop) :
  (forall j p, ps !! j = Some p -> exited p = true -> Q) ->
  (exited p' = true -> Q) ->
  forall j p, <[i := p']> ps !! j = Some p -> exited p = true -> Q.
Proof.
  intros Hold Hnew j p Hj Hp.
  apply list_lookup_insert_Some in Hj as [(-> & -> & _)|[_ Hj]]; eauto.
Qed.

Lemma all_done_lookup (ps : list worker_pc) i p :
  Forall (fun p => p = WDone) ps -> ps !! i = Some p -> p = WDone.
Proof. intros Hall Hi. by apply (Forall_lookup_1 _ _ _ _ Hall Hi). Qed.

Section PipelineFacts.
Variable opts : Options.
Variable driver : Driver.
Variable sc : script.

Lemma pipeline_inv_init w : pipeline_inv opts sc (init_state sc w).
Proof.
  split; simpl; try done. lia.
Qed.

Lemma step_inv s s' :
  step opts driver sc s s' -> pipeline_inv opts sc s -> pipeline_inv opts sc s'.
Proof.
  intros Hstep [Hc Hi Hp Hcl He Hw Hcap Hsp Hsum].
  inversion Hstep; subst; clear Hstep.
  all: split; simpl.
  all: try match goal with
           | Hl : ws _ !! _ = Some _ |- match pc _ with _ => _ end =>
               destruct (pc s) eqn:Hpc; rewrite ?length_insert; try done;
               rewrite Hsp in Hl; discriminate
           | Hl : ws _ !! _ = Some _ |- pc _ = Summary -> _ =>
               let Hs := fresh in
               intros Hs; pose proof (all_done_lookup _ _ _ (Hsum Hs) Hl); discriminate
           | Hl : ws _ !! _ = Some ?p |- _ = Z.of_nat (active (<[_ := ?p']> _)) =>
               pose proof (active_insert _ _ _ p' Hl); simpl in *; lia
           end.
  all: repeat match goal with H : pc _ = _ |- _ => rewrite H in *; clear H end.
  all: simpl in *; try done.
  all: try congruence.
  all: try match goal with
           | |- forall j p, <[_ := _]> _ !! j = Some p -> exited p = true -> _ =>
               eapply lookup_insert_exited; [|discriminate]
           end.
  all: try match goal with
           | Hl : ws _ !! _ = Some WExited
             |- forall j p, <[_ := WDone]> _ !! j = Some p -> _ =>
               eapply lookup_insert_exited; [exact He | intros _; by eapply He]
           | |- forall j p, (_ ++ [WStart]) !! j = Some p -> _ =>
               let Hj := fresh "Hj" in let Hx := fresh "Hx" in
               intros ? ? Hj Hx; apply lookup_app_Some in Hj as [Hj|[_ Hj]];
               [by eapply He | apply list_lookup_singleton_Some in Hj as [_ <-]; discriminate]
           | |- forall j p, ws _ !! j = Some p -> exited p = true -> _ =>
               first [ exact He
                     | let Hj := fresh "Hj" in let Hx := fresh "Hx" in
                       let E1 := fresh in let E2 := fresh in
                       intros ? ? Hj Hx; destruct (He _ _ Hj Hx) as [E1 E2]; congruence ]
           | |- _ = Z.of_nat (active (_ ++ [WStart])) =>
               rewrite active_app; unfold active at 2; simpl; lia
           | |- _ -> Forall _ _ => intros _; apply active_zero; lia
           | Hp : pending _ = _ :: _ |- _ ++ _ = to_send _ =>
               rewrite <- Hc, Hp; simpl; by rewrite <- ?app_assoc
           | Hp : chan _ = _ :: _ |- _ ++ _ = to_send _ =>
               rewrite <- Hc, Hp; simpl; by rewrite <- ?app_assoc
           | Hp : chan _ = _ :: _ |- (length _ <= _)%nat =>
               rewrite Hp in Hcap; simpl in Hcap; lia
           | |- (length (_ ++ _) <= _)%nat => rewrite length_app; simpl; lia
           | |- (0 <= _)%nat => lia
           | |- length (<[_ := _]> _) = _ => by rewrite length_insert
           end.
  - rewrite Hsp. simpl. split; [done | lia].
  - destruct Hsp as [Hlen Hle]. rewrite length_app. simpl.
    unfold capacity in *. lia.
  - destruct Hsp as [Hlen Hle]. unfold capacity in *. lia.
  - match goal with Hp : pending _ = _ :: _, Hch : chan _ = [] |- _ =>
      rewrite <- Hc, Hp, Hch; simpl; by rewrite <- app_assoc end.
Qed.

(** Every state of a run satisfies the invariant. *)
Lemma reachable_inv w s :
  reachable opts driver sc (init_state sc w) s -> pipeline_inv opts sc s.
Proof.
  induction 1 as [|s s' _ IH Hstep]; [apply pipeline_inv_init|].
  by apply (step_inv s s').
Qed.



Lemma untouched_call c w0 w :
  is_write c = false -> untouched w0 w -> untouched w0 (snd (call driver c w)).
Proof.
  intros Hc (H1 & H2 & H3). unfold call.
  destruct (driver _ _); (split; [|split]); simpl; try done;
    rewrite write_count_snoc, Hc; lia.
Qed.

Lemma step_untouched s s' w0 :
  doLoad opts = false ->
  step opts driver sc s s' -> untouched w0 (shared s) -> untouched w0 (shared s').
Proof.
  intros Hdry Hstep Hu. inversion Hstep; subst; simpl; try done.
  - match goal with E : call _ ?c _ = _ |- _ =>
      pose proof (untouched_call c w0 (shared s) eq_refl Hu) as Hu';
      by rewrite E in Hu' end.
  - match goal with E : call _ ?c _ = _ |- _ =>
      pose proof (untouched_call c w0 (shared s) eq_refl Hu) as Hu';
      by rewrite E in Hu' end.
  - match goal with E : processBatch _ _ _ _ = _ |- _ =>
      unfold processBatch in E; rewrite Hdry in E; simpl in E;
      by injection E as <- end.
  - match goal with E : processBatch _ _ _ _ = _ |- _ =>
      unfold processBatch in E; rewrite Hdry in E; simpl in E; discriminate end.
  - by apply untouched_call.
Qed.

Lemma reachable_untouched w s :
  doLoad opts = false ->
  reachable opts driver sc (init_state sc w) s -> untouched w (shared s).
Proof.
  intros Hdry. induction 1 as [|s s' _ IH Hstep]; [by repeat split|].
  by apply (step_untouched s s').
Qed.

(** At the summary every batch of the script has been received, the
    channel is closed and empty, and every worker has announced. *)
Lemma summary_state w s :
  reachable opts driver sc (init_state sc w) s ->
  pc s = Summary ->
  Forall (fun p => p = WDone) (ws s) /\ length (ws s) = capacity opts
  /\ chan_closed s = true /\ chan s = [] /\ pending s = []
  /\ consumed s = to_send sc.
Proof.
  intros Hr Hpc. destruct (reachable_inv w s Hr) as [Hc Hi Hp Hcl He Hw Hcap Hsp Hsum].
  rewrite Hpc in *. simpl in *. specialize (Hsum eq_refl). specialize (Hp eq_refl).
  assert (chan s = []) as Hch.
  { destruct (ws s) as [|p ps] eqn:Hws.
    - simpl in Hsp. rewrite <- Hsp in Hcap. by destruct (chan s); [|simpl in Hcap; lia].
    - apply Forall_cons in Hsum as [-> _]. by destruct (He 0%nat WDone eq_refl eq_refl). }
  repeat split; try done.
  by rewrite <- Hc, Hch, Hp, app_nil_r.
Qed.

End PipelineFacts.

(** A complete run exists: one worker, one batch, a driver that accepts the
    calls made.  The states are those of the schedule in which the worker
    connects first, the reader then sends and returns, and [main] closes the
    channel once the batch is written. *)
Ltac fire c :=
  match goal with
  | |- step _ _ _ ?s _ => eapply (c _ _ _ s)
  end.

Ltac fire_worker c i :=
  match goal with
  | |- step _ _ _ ?s _ => eapply (c _ _ _ s i)
  end.

Lemma one_worker_run (opts : Options) (driver : Driver) (b : hypertableBatch) (w w1 w2 : world) :
  workers opts = 1 ->
  call driver (Connect (postgresConnect opts ++ " dbname=benchmark")%string) w = (Done tt, w1) ->
  processBatch opts driver b w1 = (Done tt, w2) ->
  reachable opts driver {| to_send := [b]; reader_end := None |}
    (init_state {| to_send := [b]; reader_end := None |} w)
    {| pc := Summary; pending := []; chan := []; chan_closed := true;
       input_done := true; wg := 0; ws := [WDone];
       shared := snd (call driver CloseDb w2); consumed := [b]; crashed := None |}.
Proof.
  intros Hworkers Hconnect Hbatch.
  set (sc := {| to_send := [b]; reader_end := None |}).
  pose (st := fun p pend ch cl inp g wk sh con =>
    {| pc := p; pending := pend; chan := ch; chan_closed := cl; input_done := inp;
       wg := g; ws := wk; shared := sh; consumed := con; crashed := None |}).
  assert (capacity opts = 1%nat) as Hcap by (unfold capacity; by rewrite Hworkers).
  assert (reachable opts driver sc (init_state sc w)
            (st (Spawning 0) [b] [] false false 0 [] w [])) as R1.
  { eapply reach_step; [apply reach_start|]. fire m_make; simpl; try done. lia. }
  assert (reachable opts driver sc (init_state sc w)
            (st (Spawning 1) [b] [] false false 1 [WStart] w [])) as R2.
  { eapply reach_step; [exact R1|]. fire m_spawn; simpl; try done. lia. }
  assert (reachable opts driver sc (init_state sc w)
            (st Scanning [b] [] false false 1 [WStart] w [])) as R3.
  { eapply reach_step; [exact R2|]. fire m_spawned; simpl; try done. lia. }
  assert (reachable opts driver sc (init_state sc w)
            (st Scanning [b] [] false false 1 [WRecv] w1 [])) as R4.
  { eapply reach_step; [exact R3|]. fire_worker w_connect 0%nat; by simpl. }
  assert (reachable opts driver sc (init_state sc w)
            (st Scanning [] [b] false false 1 [WRecv] w1 [])) as R5.
  { eapply reach_step; [exact R4|]. fire m_send; simpl; try done. lia. }
  assert (reachable opts driver sc (init_state sc w)
            (st Scanning [] [] false false 1 [WBusy b] w1 [b])) as R6.
  { eapply reach_step; [exact R5|]. fire_worker w_recv 0%nat; by simpl. }
  assert (reachable opts driver sc (init_state sc w)
            (st WaitInput [] [] false true 1 [WBusy b] w1 [b])) as R7.
  { eapply reach_step; [exact R6|]. fire m_input_done; by simpl. }
  assert (reachable opts driver sc (init_state sc w)
            (st WaitInput [] [] false true 1 [WRecv] w2 [b])) as R8.
  { eapply reach_step; [exact R7|]. fire_worker w_process 0%nat; by simpl. }
  assert (reachable opts driver sc (init_state sc w)
            (st Closing [] [] false true 1 [WRecv] w2 [b])) as R9.
  { eapply reach_step; [exact R8|]. fire m_recv_input_done; by simpl. }
  assert (reachable opts driver sc (init_state sc w)
            (st Waiting [] [] true true 1 [WRecv] w2 [b])) as R10.
  { eapply reach_step; [exact R9|]. fire m_close; by simpl. }
  assert (reachable opts driver sc (init_state sc w)
            (st Waiting [] [] true true 1 [WExited] w2 [b])) as R11.
  { eapply reach_step; [exact R10|]. fire_worker w_exit 0%nat; by simpl. }
  assert (reachable opts driver sc (init_state sc w)
            (st Waiting [] [] true true 0 [WDone] (snd (call driver CloseDb w2)) [b])) as R12.
  { eapply reach_step; [exact R11|]. fire_worker w_done 0%nat; by simpl. }
  eapply reach_step; [exact R12|]. fire m_wait; by simpl.
Qed.

Lemma returns_ret {A : Type} (a : A) (P : A -> Prop) : P a -> returns (mret a) P.
Proof. intros Ha w a' w' [= <- _]. exact Ha. Qed.

Lemma returns_bind {A B : Type} (x : run A) (f : A -> run B) (P : B -> Prop) :
  (forall a, returns (f a) P) -> returns (x ≫= f) P.
Proof.
  intros Hf w b w'. rewrite run_bind_eq.
  destruct (x w) as [[a|e] w1]; [apply Hf | discriminate].
Qed.

Lemma returns_deferred_close {A : Type} driver (body : run A) (P : A -> Prop) :
  returns body P -> returns (deferred_close driver body) P.
Proof.
  intros Hb w a w'. unfold deferred_close. specialize (Hb w).
  destruct (body w) as [res w1]. intros [= -> _]. by eapply Hb.
Qed.

(** Both branches of the header phase leave the same lines to [scan]. *)
Lemma header_loop_rest opts driver ls :
  returns (header_loop opts driver ls) (fun rest => rest = skip_header ls).
Proof.
  induction ls as [|text rest IH]; simpl; [by apply returns_ret|].
  destruct (Nat.eqb (String.length text) 0); [by apply returns_ret|].
  apply returns_bind. intros _. exact IH.
Qed.

Lemma main_header_rest opts driver ls :
  returns (main_header opts driver ls) (fun rest => rest = skip_header ls).
Proof.
  unfold main_header. destruct (doLoad opts); [|by apply returns_ret].
  unfold initBenchmarkDB. apply returns_bind. intros _.
  apply returns_deferred_close. do 3 (apply returns_bind; intros _).
  apply returns_deferred_close. apply returns_bind. intros _.
  apply header_loop_rest.
Qed.

Lemma boot_init `{MapRange} opts driver input s0 :
  boot opts driver input = Done s0 ->
  exists w, s0 = init_state (boot_script opts input) w
    /\ (doLoad opts = false -> w = world_init).
Proof.
  unfold boot, boot_script.
  destruct (main_header opts driver (lines input) world_init) as [[rest|e] w] eqn:E;
    [|discriminate].
  intros [= <-]. rewrite (main_header_rest _ _ _ _ _ _ E). exists w.
  split; [done|]. intros Hdry. unfold main_header in E. rewrite Hdry in E.
  by injection E as _ <-.
Qed.

Example demo_boot_script : boot_script defaults demo_input = demo_script.
Proof. vm_compute. reflexivity. Qed.

(** C6: in every state a run of [main] passes through, [batchChan] is closed
    only if the reader has closed [inputDone], which it does with nothing
    left to send; a worker whose range has ended, and so any worker that has
    called [workersGroup.Done()], finds the channel closed and empty with
    nothing left to send; and once [workersGroup.Wait()] has returned every
    worker started has called [Done()], the channel is closed and empty, and
    the batches received are the batches sent, in the order sent. *)
Theorem shutdown_order (opts : Options) (driver : Driver) (sc : script)
    (w : world) (s : state) :
  reachable opts driver sc (init_state sc w) s ->
  (chan_closed s = true -> input_done s = true /\ pending s = [])
  /\ (forall i p, ws s !! i = Some p -> exited p = true ->
        chan_closed s = true /\ chan s = [] /\ pending s = [])
  /\ (pc s = Summary ->
        Forall (fun p => p = WDone) (ws s) /\ length (ws s) = capacity opts
        /\ chan_closed s = true /\ chan s = [] /\ consumed s = to_send sc).
Proof.
  intros Hr. pose proof (reachable_inv opts driver sc w s Hr) as Hinv.
  destruct Hinv as [Hc Hi Hp Hcl He Hw Hcap Hsp Hsum].
  assert (chan_closed s = true -> input_done s = true /\ pending s = []) as Hclosed.
  { rewrite Hcl, Hi. intros Hq.
    assert (reader_finished (pc s) = true) as Hf by (by destruct (pc s)). auto. }
  split; [exact Hclosed|]. split.
  - intros i p Hi' Hp'. destruct (He i p Hi' Hp') as [E1 E2].
    split; [done|]. split; [done|]. by apply Hclosed.
  - intros Hpc. destruct (summary_state opts driver sc w s Hr Hpc)
      as (H1 & H2 & H3 & H4 & _ & H6). done.
Qed.

Lemma shutdown_order_witness :
  reachable defaults sound_driver demo_script (init_state demo_script world_init)
    (demo_final defaults)
  /\ pc (demo_final defaults) = Summary
  /\ Forall (fun p => p = WDone) (ws (demo_final defaults))
  /\ chan_closed (demo_final defaults) = true /\ chan (demo_final defaults) = []
  /\ consumed (demo_final defaults) = [one_row_batch].
Proof.
  assert (reachable defaults sound_driver demo_script (init_state demo_script world_init)
            (demo_final defaults)) as Hrun.
  { apply (one_worker_run defaults sound_driver one_row_batch world_init
             (demo_connected defaults) (demo_written defaults)).
    - reflexivity.
    - vm_compute. reflexivity.
    - vm_compute. reflexivity. }
  split; [exact Hrun|]. split; [reflexivity|].
  destruct (shutdown_order defaults sound_driver demo_script world_init
              (demo_final defaults) Hrun) as (_ & _ & Hs).
  destruct (Hs eq_refl) as (H1 & _ & H3 & H4 & H5). done.
Defined.

(** C9: with load-writing disabled, in every state of a run the counters
    are zero and no row has been handed to the database; and when the run
    reaches the summary the workers have received every batch the reader
    sent, which are the batches a run on the same input with load-writing
    enabled has received when it reaches the summary. *)
Theorem dry_run_consumes_the_same `{MapRange} (opts : Options) (driver : Driver)
    (input : Scanner) (s0 s : state) :
  doLoad opts = false ->
  boot opts driver input = Done s0 ->
  reachable opts driver (boot_script opts input) s0 s ->
  (columnCount (shared s) = 0 /\ rowCount (shared s) = 0
   /\ write_count (calls (shared s)) = 0%nat)
  /\ (pc s = Summary -> consumed s = to_send (boot_script opts input))
  /\ (forall opts' driver' s0' s',
        doLoad opts' = true -> batchSize opts' = batchSize opts ->
        boot opts' driver' input = Done s0' ->
        reachable opts' driver' (boot_script opts' input) s0' s' ->
        pc s = Summary -> pc s' = Summary ->
        consumed s = consumed s').
Proof.
  intros Hdry Hboot Hr.
  destruct (boot_init opts driver input s0 Hboot) as (w & -> & Hw).
  rewrite (Hw Hdry) in Hr.
  assert (pc s = Summary -> consumed s = to_send (boot_script opts input)) as Hall.
  { intros Hpc. by destruct (summary_state _ _ _ _ _ Hr Hpc) as (_ & _ & _ & _ & _ & E). }
  split; [|split; [exact Hall|]].
  - by destruct (reachable_untouched opts driver _ world_init s Hdry Hr) as (E1 & E2 & E3).
  - intros opts' driver' s0' s' Hload Hsize Hboot' Hr' Hpc Hpc'.
    destruct (boot_init opts' driver' input s0' Hboot') as (w' & -> & _).
    destruct (summary_state _ _ _ _ _ Hr' Hpc') as (_ & _ & _ & _ & _ & E').
    rewrite (Hall Hpc), E'. unfold boot_script. by rewrite Hsize.
Qed.

Lemma dry_run_consumes_the_same_witness :
  doLoad dry_options = false
  /\ boot dry_options sound_driver demo_input = Done (init_state demo_script world_init)
  /\ reachable dry_options sound_driver (boot_script dry_options demo_input)
       (init_state demo_script world_init) (demo_final dry_options)
  /\ pc (demo_final dry_options) = Summary
  /\ columnCount (shared (demo_final dry_options)) = 0
  /\ rowCount (shared (demo_final dry_options)) = 0
  /\ write_count (calls (shared (demo_final dry_options))) = 0%nat
  /\ consumed (demo_final dry_options) = [one_row_batch].
Proof.
  split; [reflexivity|].
  assert (boot dry_options sound_driver demo_input
          = Done (init_state demo_script world_init)) as Hboot
    by (vm_compute; reflexivity).
  assert (boot_script dry_options demo_input = demo_script) as Hsc
    by (vm_compute; reflexivity).
  assert (reachable dry_options sound_driver (boot_script dry_options demo_input)
            (init_state demo_script world_init) (demo_final dry_options)) as Hrun.
  { rewrite Hsc.
    apply (one_worker_run dry_options sound_driver one_row_batch world_init
             (demo_connected dry_options) (demo_written dry_options)).
    - reflexivity.
    - vm_compute. reflexivity.
    - vm_compute. reflexivity. }
  split; [exact Hboot|]. split; [exact Hrun|]. split; [reflexivity|].
  destruct (dry_run_consumes_the_same dry_options sound_driver demo_input _ _
              eq_refl Hboot Hrun) as ((E1 & E2 & E3) & _ & _).
  split; [exact E1|]. split; [exact E2|]. split; [exact E3|]. reflexivity.
Defined.

(** The run with load-writing enabled on the same input also reaches the
    summary, with the same batch received, one row and three fields counted. *)
Example load_run_reaches_summary :
  exists s0 s,
    boot defaults sound_driver demo_input = Done s0
    /\ reachable defaults sound_driver (boot_script defaults demo_input) s0 s
    /\ pc s = Summary
    /\ consumed s = [one_row_batch]
    /\ rowCount (shared s) = 1 /\ columnCount (shared s) = 3.
Proof.
  set (w0 := snd (main_header defaults sound_driver (lines demo_input) world_init)).
  set (w1 := snd (call sound_driver
                    (Connect (postgresConnect defaults ++ " dbname=benchmark")%string) w0)).
  set (w2 := snd (processBatch defaults sound_driver one_row_batch w1)).
  exists (init_state demo_script w0).
  exists {| pc := Summary; pending := []; chan := []; chan_closed := true;
            input_done := true; wg := 0; ws := [WDone];
            shared := snd (call sound_driver CloseDb w2);
            consumed := [one_row_batch]; crashed := None |}.
  split; [vm_compute; reflexivity|]. split.
  - rewrite demo_boot_script.
    apply (one_worker_run defaults sound_driver one_row_batch w0 w1 w2).
    + reflexivity.
    + vm_compute. reflexivity.
    + vm_compute. reflexivity.
  - split; [reflexivity|]. split; [reflexivity|]. split; vm_compute; reflexivity.
Qed.

(** * Further properties *)

(** ** The header phase *)

Lemma length_zero_empty (text : string) :
  Nat.eqb (String.length text) 0 = true <-> text = "".
Proof.
  destruct text; simpl; split; try done.
Qed.

Lemma header_split ls :
  In "" ls -> ls = header_lines ls ++ "" :: skip_header ls.
Proof.
  induction ls as [|text rest IH]; simpl; [done|].
  destruct (Nat.eqb (String.length text) 0) eqn:E.
  - intros _. apply length_zero_empty in E. by subst text.
  - intros [Heq|Hin].
    + subst text. discriminate.
    + simpl. f_equal. by apply IH.
Qed.

Lemma header_unterminated ls :
  Forall (fun l => Nat.eqb (String.length l) 0 = false) ls ->
  header_lines ls = ls /\ skip_header ls = [].
Proof.
  induction 1 as [|text rest Ht _ [IH1 IH2]]; simpl; [done|].
  rewrite Ht. by rewrite IH1.
Qed.

Lemma header_lines_nonempty ls :
  Forall (fun l => Nat.eqb (String.length l) 0 = false) (header_lines ls).
Proof.
  induction ls as [|text rest IH]; simpl; [constructor|].
  destruct (Nat.eqb (String.length text) 0) eqn:E; by constructor.
Qed.

(** X1: the header phase ends at the first empty line.  When the input has
    one, the header lines are the lines before it, none of them empty, and
    what is left for [scan] are the lines after it, whether the header was
    bootstrapped ([initBenchmarkDB]) or skipped (the [else] of [main]).  When
    the input has no empty line, every line is taken as a header line and
    nothing is left for [scan]. *)
Theorem header_phase_split (opts : Options) (driver : Driver) (ls : list string) :
  (In "" ls -> ls = header_lines ls ++ "" :: skip_header ls)
  /\ Forall (fun l => Nat.eqb (String.length l) 0 = false) (header_lines ls)
  /\ (Forall (fun l => Nat.eqb (String.length l) 0 = false) ls ->
      header_lines ls = ls /\ skip_header ls = [])
  /\ (forall w rest w',
        main_header opts driver ls w = (Done rest, w') -> rest = skip_header ls)
  /\ (forall w rest w',
        initBenchmarkDB opts driver ls w = (Done rest, w') -> rest = skip_header ls).
Proof.
  split; [apply header_split|]. split; [apply header_lines_nonempty|].
  split; [apply header_unterminated|]. split.
  - apply main_header_rest.
  - intros w rest w'. unfold initBenchmarkDB.
    revert w rest w'.
    change (returns (initBenchmarkDB opts driver ls) (fun rest => rest = skip_header ls)).
    unfold initBenchmarkDB. apply returns_bind. intros _.
    apply returns_deferred_close. do 3 (apply returns_bind; intros _).
    apply returns_deferred_close. apply returns_bind. intros _.
    apply header_loop_rest.
Qed.

Example header_without_empty_line :
  skip_header ["cpu,host,usage"; "cpu,1000000000,host1,0.5"] = [].
Proof. reflexivity. Qed.

(** ** The reader *)

Section ReaderMore.
Context `{MapRange}.

Lemma flush_singleton at_ h c :
  flush at_ (<[h := [c]]> ∅) = [ {| hypertable := h; rows := [c] |} ].
Proof.
  unfold flush. pose proof (range_perm at_ (<[h := [c]]> ∅)) as E.
  rewrite insert_empty, map_to_list_singleton in E.
  apply Permutation_singleton_r in E. rewrite insert_empty, E. reflexivity.
Qed.

Lemma scan_loop_one_by_one itemsPerBatch ls : forall st st',
  itemsPerBatch <= 1 ->
  batch st = ∅ -> n st = 0 ->
  scan_loop itemsPerBatch st ls = Done st' ->
  batch st' = ∅ /\ n st' = 0
  /\ sent st' = sent st ++ (line_batch <$> omap (Cut comma) ls).
Proof.
  induction ls as [|text rest IH]; intros st st' Hsmall Hb Hn Hrun; simpl in Hrun.
  - injection Hrun as <-. simpl. by rewrite app_nil_r.
  - unfold scan_line in Hrun. rewrite accumulate_spec in Hrun.
    destruct (Cut comma text) as [[h c]|] eqn:Hcut; [|discriminate].
    simpl in Hrun. rewrite Hn in Hrun. change (wrap64 (0 + 1)) with 1 in Hrun.
    destruct (itemsPerBatch <=? 1) eqn:Hle; [|apply Z.leb_gt in Hle; lia].
    simpl in Hrun. apply IH in Hrun as (E1 & E2 & E3); [|done|reflexivity|reflexivity].
    split; [done|]. split; [done|]. rewrite E3. simpl.
    rewrite Hb, lookup_empty. simpl. rewrite flush_singleton, Hcut. simpl.
    by rewrite <- app_assoc.
Qed.

(** X3: with a batch size of 1 or less (0 and the negative sizes included)
    [scan] sends every line as a batch of its own, in the order read: the
    queue holds one single-row batch per line. *)
Theorem scan_one_batch_per_line (itemsPerBatch : Z) (scanner : Scanner) (r : scanned) :
  itemsPerBatch <= 1 ->
  scan itemsPerBatch scanner = Done r ->
  batchChan r = line_batch <$> omap (Cut comma) (lines scanner).
Proof.
  intros Hsmall Hscan. unfold scan in Hscan.
  destruct (scan_loop itemsPerBatch scan_init (lines scanner)) as [st|e] eqn:Hrun;
    [|discriminate].
  simpl in Hscan. destruct (err scanner); [discriminate|]. injection Hscan as <-.
  apply scan_loop_one_by_one in Hrun as (E1 & E2 & E3); [|done|reflexivity|reflexivity].
  simpl. unfold final_flush. rewrite E2, E3. simpl. by rewrite app_nil_r.
Qed.

End ReaderMore.

Lemma scan_one_batch_per_line_witness :
  0 <= 1
  /\ scan 0 two_relations
     = Done {| itemsRead := 4;
               batchChan := [ {| hypertable := "cpu"; rows := ["1"] |};
                              {| hypertable := "mem"; rows := ["2"] |};
                              {| hypertable := "cpu"; rows := ["3"] |};
                              {| hypertable := "cpu"; rows := ["4"] |} ];
               inputDone := true |}
  /\ line_batch <$> omap (Cut comma) (lines two_relations)
     = [ {| hypertable := "cpu"; rows := ["1"] |};
         {| hypertable := "mem"; rows := ["2"] |};
         {| hypertable := "cpu"; rows := ["3"] |};
         {| hypertable := "cpu"; rows := ["4"] |} ].
Proof.
  assert (scan 0 two_relations
          = Done {| itemsRead := 4;
                    batchChan := [ {| hypertable := "cpu"; rows := ["1"] |};
                                   {| hypertable := "mem"; rows := ["2"] |};
                                   {| hypertable := "cpu"; rows := ["3"] |};
                                   {| hypertable := "cpu"; rows := ["4"] |} ];
                    inputDone := true |}) as E by (vm_compute; reflexivity).
  split; [lia|]. split; [exact E|].
  assert (0 <= 1) as Hle by lia.
  rewrite <- (scan_one_batch_per_line 0 two_relations _ Hle E). reflexivity.
Defined.

Lemma row_count_concat groups (k : Z) :
  Forall (fun g => Z.of_nat (row_count g) = k) groups ->
  Z.of_nat (row_count (concat groups)) = k * Z.of_nat (length groups).
Proof.
  induction 1 as [|g gs Hg _ IH]; simpl; [lia|].
  rewrite row_count_app. lia.
Qed.

Section ReaderSmall.
Context `{MapRange}.

Lemma flush_relations at_ m : hypertable <$> flush at_ m = (range at_ m).*1.
Proof.
  unfold flush. rewrite <- list_fmap_compose. reflexivity.
Qed.

(** X4: an input of fewer lines than the batch size is sent in the final
    flush alone: the queue holds exactly one batch for each relation that has
    a line, no relation twice, and the batch of a relation holds all its
    lines in the order read. *)
Theorem scan_short_input (itemsPerBatch : Z) (scanner : Scanner) (r : scanned) :
  Z.of_nat (length (lines scanner)) < itemsPerBatch ->
  itemsPerBatch < two63 ->
  scan itemsPerBatch scanner = Done r ->
  NoDup (hypertable <$> batchChan r)
  /\ (forall b, b ∈ batchChan r ->
        rows b <> [] /\ rows b = lines_for (hypertable b) (lines scanner))
  /\ (forall h, lines_for h (lines scanner) <> [] ->
        {| hypertable := h; rows := lines_for h (lines scanner) |} ∈ batchChan r).
Proof.
  intros Hshort Hint Hscan. unfold scan in Hscan.
  destruct (scan_loop itemsPerBatch scan_init (lines scanner)) as [st|e] eqn:Hrun;
    [|discriminate].
  simpl in Hscan. destruct (err scanner); [discriminate|]. injection Hscan as <-.
  pose proof (scan_loop_inv itemsPerBatch (lines scanner) [] scan_init st
                (or_introl Hint) (scan_inv_init itemsPerBatch) Hrun) as Hinv.
  simpl in Hinv. simpl.
  assert (sent st = []) as Hsent.
  { destruct (inv_groups _ _ _ Hinv) as (groups & Hs & Hall); [lia|].
    pose proof (row_count_concat groups itemsPerBatch Hall) as Hc.
    pose proof (inv_total _ _ _ Hinv) as Ht. rewrite Hs in Ht.
    destruct groups as [|g gs]; [done|]. simpl length in Hc. nia. }
  assert (forall h, default [] (batch st !! h) = lines_for h (lines scanner)) as Hrows.
  { intros h. rewrite <- (inv_rows _ _ _ Hinv h), Hsent. reflexivity. }
  rewrite Hsent. simpl. unfold final_flush. destruct (0 <? n st) eqn:Hn.
  - split; [rewrite flush_relations; apply range_NoDup|]. split.
    + intros b Hb. apply flush_lookup in Hb.
      split; [by apply (inv_batch_nonempty _ _ _ Hinv _ _ Hb)|].
      by rewrite <- Hrows, Hb.
    + intros h Hh. apply flush_lookup. simpl.
      specialize (Hrows h). destruct (batch st !! h) as [l|]; simpl in Hrows;
        [by rewrite Hrows | congruence].
  - apply Z.ltb_ge in Hn. rewrite (inv_n _ _ _ Hinv) in Hn.
    split; [constructor|]. split; [intros b Hb; by apply elem_of_nil in Hb|].
    intros h Hh. specialize (Hrows h).
    destruct (batch st !! h) as [l|] eqn:Hl; simpl in Hrows; [|congruence].
    pose proof (held_lookup _ _ _ Hl) as Hle. destruct l; [congruence | simpl in Hle; lia].
Qed.

End ReaderSmall.

Lemma scan_short_input_witness :
  Z.of_nat (length (lines three_lines)) < 10000
  /\ 10000 < two63
  /\ scan 10000 three_lines
     = Done {| itemsRead := 3;
               batchChan := [ {| hypertable := "cpu"; rows := ["1,a"; "3,c"] |};
                              {| hypertable := "mem"; rows := ["2,b"] |} ];
               inputDone := true |}
  /\ NoDup (hypertable <$> [ {| hypertable := "cpu"; rows := ["1,a"; "3,c"] |};
                             {| hypertable := "mem"; rows := ["2,b"] |} ]).
Proof.
  assert (scan 10000 three_lines
          = Done {| itemsRead := 3;
                    batchChan := [ {| hypertable := "cpu"; rows := ["1,a"; "3,c"] |};
                                   {| hypertable := "mem"; rows := ["2,b"] |} ];
                    inputDone := true |}) as E by (vm_compute; reflexivity).
  split; [reflexivity|]. split; [reflexivity|]. split; [exact E|].
  by destruct (scan_short_input 10000 three_lines _ eq_refl eq_refl E) as [Hnd _].
Defined.

(** ** The goroutines, at every moment *)

(** X5: at every moment of a run the batches received by the workers,
    then those waiting in [batchChan], then those [scan] has still to send,
    are the batches of the run in the order [scan] sends them: the channel
    hands them over first in, first out, and none is lost or handed over
    twice. *)
Theorem batches_in_order (opts : Options) (driver : Driver) (sc : script)
    (w : world) (s : state) :
  reachable opts driver sc (init_state sc w) s ->
  consumed s ++ chan s ++ pending s = to_send sc.
Proof.
  intros Hr. apply (I_conserve opts sc s (reachable_inv opts driver sc w s Hr)).
Qed.

Lemma demo_run_reaches_final :
  reachable defaults sound_driver demo_script (init_state demo_script world_init)
    (demo_final defaults).
Proof.
  apply (one_worker_run defaults sound_driver one_row_batch world_init
           (demo_connected defaults) (demo_written defaults)).
  - reflexivity.
  - vm_compute. reflexivity.
  - vm_compute. reflexivity.
Qed.

Lemma batches_in_order_witness :
  consumed (demo_final defaults) ++ chan (demo_final defaults)
    ++ pending (demo_final defaults) = to_send demo_script.
Proof.
  apply (batches_in_order defaults sound_driver demo_script world_init
           (demo_final defaults) demo_run_reaches_final).
Defined.

(** X6: at every moment of a run [batchChan] holds at most [workers]
    batches, at most [workers] workers have been started, and the counter
    of [workersGroup] is the number of workers started that have not called
    [Done()]: it is never negative. *)
Theorem queue_and_waitgroup_bounds (opts : Options) (driver : Driver) (sc : script)
    (w : world) (s : state) :
  reachable opts driver sc (init_state sc w) s ->
  (length (chan s) <= capacity opts)%nat
  /\ (length (ws s) <= capacity opts)%nat
  /\ wg s = Z.of_nat (active (ws s))
  /\ 0 <= wg s <= Z.of_nat (length (ws s)).
Proof.
  intros Hr. destruct (reachable_inv opts driver sc w s Hr)
    as [Hc Hi Hp Hcl He Hw Hcap Hsp Hsum].
  split; [exact Hcap|]. split.
  - destruct (pc s); try lia. rewrite Hsp. simpl. lia.
  - split; [exact Hw|]. rewrite Hw. unfold active.
    pose proof (length_filter (fun p => announced p = false) (ws s)). lia.
Qed.

Lemma queue_and_waitgroup_bounds_witness :
  (length (chan (demo_final defaults)) <= capacity defaults)%nat
  /\ (length (ws (demo_final defaults)) <= capacity defaults)%nat
  /\ wg (demo_final defaults) = Z.of_nat (active (ws (demo_final defaults)))
  /\ 0 <= wg (demo_final defaults) <= Z.of_nat (length (ws (demo_final defaults))).
Proof.
  apply (queue_and_waitgroup_bounds defaults sound_driver demo_script world_init
           (demo_final defaults) demo_run_reaches_final).
Defined.

(** X7: with [workers] at 0 or below no batch is ever received.  No worker
    is started, the channel has no room, and [scan] stays at its first send:
    [main] gets past [scan] only when there is nothing to send at all. *)
Theorem no_workers_no_progress (opts : Options) (driver : Driver) (sc : script)
    (w : world) (s : state) :
  workers opts <= 0 ->
  reachable opts driver sc (init_state sc w) s ->
  ws s = [] /\ chan s = [] /\ consumed s = [] /\ pending s = to_send sc
  /\ (reader_finished (pc s) = true -> to_send sc = []).
Proof.
  intros Hnone. induction 1 as [|s s' _ IH Hstep]; [by repeat split|].
  destruct IH as (Hws & Hch & Hco & Hpe & Hfin).
  inversion Hstep; subst; simpl in *;
    repeat match goal with Hpc : pc _ = _ |- _ => rewrite Hpc in *; clear Hpc end;
    simpl in *;
    try match goal with
        | Hl : ws _ !! _ = Some _ |- _ => rewrite Hws in Hl; discriminate
        end;
    try (unfold capacity in *; lia);
    try done.
  all: repeat split; try done; intros; congruence.
Qed.

Lemma no_workers_no_progress_witness :
  workers no_worker_options <= 0
  /\ reachable no_worker_options sound_driver demo_script
       (init_state demo_script world_init)
       (set_pc (set_pc (init_state demo_script world_init) (Spawning 0)) Scanning)
  /\ pending (set_pc (set_pc (init_state demo_script world_init) (Spawning 0)) Scanning)
     = to_send demo_script.
Proof.
  assert (workers no_worker_options <= 0) as Hnone by (simpl; lia).
  assert (reachable no_worker_options sound_driver demo_script
            (init_state demo_script world_init)
            (set_pc (set_pc (init_state demo_script world_init) (Spawning 0)) Scanning))
    as Hr.
  { eapply reach_step; [eapply reach_step; [apply reach_start|]|].
    - fire m_make; simpl; try done.
    - fire m_spawned; simpl; try done. }
  split; [exact Hnone|]. split; [exact Hr|].
  by destruct (no_workers_no_progress no_worker_options sound_driver demo_script world_init
                 _ Hnone Hr) as (_ & _ & _ & Hp & _).
Defined.

(** ** The workers, batch by batch *)

Lemma wrap64_add_r a b : wrap64 (a + wrap64 b) = wrap64 (a + b).
Proof.
  unfold wrap64. f_equal.
  replace (a + ((b + two63) mod two64 - two63) + two63)
    with (a + (b + two63) mod two64) by lia.
  rewrite Z.add_mod_idemp_r by (unfold two64; lia). f_equal. lia.
Qed.

Lemma wrap64_add_l a b : wrap64 (wrap64 a + b) = wrap64 (a + b).
Proof. rewrite (Z.add_comm (wrap64 a)), wrap64_add_r. f_equal. lia. Qed.

Lemma wrap64_idem a : wrap64 (wrap64 a) = wrap64 a.
Proof.
  replace (wrap64 a) with (0 + wrap64 a) at 1 by lia.
  rewrite wrap64_add_r. f_equal.
Qed.

Lemma field_count_from_total ls : forall acc,
  field_count_from (wrap64 acc) ls = wrap64 (acc + Z.of_nat (field_total ls)).
Proof.
  induction ls as [|line rest IH]; intros acc.
  - simpl. f_equal. unfold field_total. simpl. lia.
  - simpl. rewrite wrap64_add_l, IH. f_equal. unfold field_total. simpl. lia.
Qed.

Lemma field_count_total ls : field_count ls = wrap64 (Z.of_nat (field_total ls)).
Proof. apply (field_count_from_total ls 0). Qed.

Lemma convert_fill line :
  fill 0 (Split comma line) (replicate (length (Split comma line)) ArgNil)
  = match convert line with
    | Some in_ => Done in_
    | None => Fatal (ParseError (leading line))
    end.
Proof.
  unfold convert. pose proof (Split_leading line) as Hsp.
  destruct (Split comma line) as [|v rest] eqn:E; [discriminate|].
  assert (leading line = v) as -> by congruence.
  destruct (ParseInt v) as [t|] eqn:Hp.
  - by apply fill_value.
  - by apply fill_leading.
Qed.

Section WorkerMore.
Variable opts : Options.
Variable driver : Driver.

Lemma process_rows_calls ls : forall w w',
  process_rows driver ls w = (Done tt, w') ->
  exists execs, mapM convert ls = Some execs
    /\ calls w' = calls w ++ (Exec <$> execs).
Proof.
  induction ls as [|line rest IH]; intros w w'.
  - intros [= <-]. exists []. split; [reflexivity|]. simpl. by rewrite app_nil_r.
  - rewrite process_rows_cons, process_row_eq, convert_fill.
    destruct (convert line) as [in_|] eqn:Hc; [|discriminate].
    destruct (call driver (Exec in_) _) as [[[]|e] w1] eqn:E; [|discriminate].
    apply call_inv in E as (_ & Hl & _). simpl in Hl.
    intros Hrest. destruct (IH _ _ Hrest) as (execs & Hm & Hcalls).
    exists (in_ :: execs). split.
    + simpl. rewrite Hc. simpl. rewrite Hm. reflexivity.
    + rewrite Hcalls, Hl. simpl. by rewrite <- app_assoc.
Qed.

End WorkerMore.

(** X8: with load-writing enabled, a batch that [processBatch] completes
    has made exactly these driver calls, in this order: begin, prepare of
    [COPY "relation" FROM STDIN], one exec per row in the order of the batch,
    close of the statement, commit.  The leading field of every row parsed as
    an integer; the exec of a row has one argument per field of the row: the
    first is the timestamp made from the instant whose seconds are that
    integer divided by 1000000000 and whose nanoseconds are the remainder
    (rounded towards zero, as Go divides), the others are the other fields as
    text, unchanged.  How line 211 writes that instant out as a string is not
    part of the statement. *)
Theorem committed_batch (opts : Options) (driver : Driver)
    (b : hypertableBatch) (w w' : world) :
  doLoad opts = true ->
  processBatch opts driver b w = (Done tt, w') ->
  exists execs,
    mapM convert (rows b) = Some execs
    /\ calls w' = calls w ++ transaction b execs.
Proof.
  intros Hload. rewrite processBatch_eq by done.
  destruct (call driver Begin w) as [[[]|e] w1] eqn:E1; [|discriminate].
  apply call_inv in E1 as (_ & Hl1 & _).
  destruct (call driver (Prepare _) w1) as [[[]|e] w2] eqn:E2; [|discriminate].
  apply call_inv in E2 as (_ & Hl2 & _).
  destruct (process_rows driver (rows b) w2) as [[[]|e] w3] eqn:E3; [|discriminate].
  destruct (process_rows_calls driver _ _ _ E3) as (execs & Hm & Hl3).
  destruct (call driver CloseStmt _) as [[[]|e] w4] eqn:E4; [|discriminate].
  apply call_inv in E4 as (_ & Hl4 & _). simpl in Hl4.
  destruct (call driver Commit w4) as [[[]|e] w5] eqn:E5; [|discriminate].
  apply call_inv in E5 as (_ & Hl5 & _).
  intros Hend. exists execs. split; [exact Hm|].
  assert (calls w' = calls w5) as ->.
  { destruct (logBatches opts); by injection Hend as <-. }
  rewrite Hl5, Hl4, Hl3, Hl2, Hl1. unfold transaction. simpl.
  rewrite <- !app_assoc. reflexivity.
Qed.

Lemma committed_batch_witness :
  doLoad defaults = true
  /\ mapM convert (rows one_row_batch)
     = Some [[ArgTime 1 0; ArgText "host1"; ArgText "0.5"]]
  /\ calls (demo_written defaults)
     = calls (demo_connected defaults)
       ++ transaction one_row_batch [[ArgTime 1 0; ArgText "host1"; ArgText "0.5"]].
Proof.
  split; [reflexivity|]. split; [reflexivity|].
  assert (processBatch defaults sound_driver one_row_batch (demo_connected defaults)
          = (Done tt, demo_written defaults)) as E by (vm_compute; reflexivity).
  destruct (committed_batch defaults sound_driver one_row_batch _ _ eq_refl E)
    as (execs & Hm & Hc).
  rewrite Hc. assert (Some execs = Some [[ArgTime 1 0; ArgText "host1"; ArgText "0.5"]])
    as [= ->] by (rewrite <- Hm; reflexivity).
  reflexivity.
Defined.

Lemma wrap64_range z : - two63 <= wrap64 z < two63.
Proof.
  unfold wrap64. pose proof (Z.mod_pos_bound (z + two63) two64) as H.
  unfold two64, two63 in *. lia.
Qed.

(** X9: with load-writing enabled, a worker that completes its loop over
    the batches it received has handed every row of every batch to the
    driver and has added to the shared counters the number of those rows and
    the number of their fields (in 64-bit arithmetic); its local field count
    is back at zero. *)
Theorem worker_loop_totals (opts : Options) (driver : Driver)
    (bs : list hypertableBatch) (w w' : world) :
  doLoad opts = true ->
  columnCountWorker w = 0 ->
  - two63 <= rowCount w < two63 ->
  - two63 <= columnCount w < two63 ->
  process_all opts driver bs w = (Done tt, w') ->
  rowCount w' = wrap64 (rowCount w + Z.of_nat (row_count bs))
  /\ columnCount w' = wrap64 (columnCount w + Z.of_nat (batch_fields bs))
  /\ exec_count (calls w') = (exec_count (calls w) + row_count bs)%nat
  /\ columnCountWorker w' = 0.
Proof.
  intros Hload. revert w. induction bs as [|b rest IH]; intros w Hlocal Hr Hc.
  - intros [= <-]. unfold row_count, batch_fields. simpl.
    rewrite !Z.add_0_r, !wrap64_id by done. repeat split; [lia|done].
  - change (process_all opts driver (b :: rest) w)
      with ((processBatch opts driver b
               ≫= fun _ => process_all opts driver rest) w).
    rewrite run_bind_eq.
    destruct (processBatch_cases opts driver b w Hload Hlocal)
      as [(e & w1 & E & _)|[(e & w1 & E & _)|(w1 & E & (Ac & Ar & Ae) & Hl1)]];
      rewrite E; [discriminate..|].
    intros Hrest. apply IH in Hrest as (Er & Ec & Ee & El); [|done|..].
    2: { rewrite Ar. apply wrap64_range. }
    2: { rewrite Ac. apply wrap64_range. }
    rewrite Er, Ec, Ee, Ar, Ac, Ae, field_count_total.
    rewrite wrap64_add_r, !wrap64_add_l.
    unfold row_count, batch_fields. simpl.
    fold (row_count rest). fold (batch_fields rest).
    repeat split; [f_equal; lia|f_equal; lia|lia|done].
Qed.

Lemma worker_loop_totals_witness :
  doLoad defaults = true
  /\ rowCount (demo_written defaults) = 1
  /\ columnCount (demo_written defaults) = 3
  /\ exec_count (calls (demo_written defaults)) = 1%nat.
Proof.
  split; [reflexivity|].
  assert (process_all defaults sound_driver [one_row_batch] (demo_connected defaults)
          = (Done tt, demo_written defaults)) as E by (vm_compute; reflexivity).
  destruct (worker_loop_totals defaults sound_driver [one_row_batch]
              (demo_connected defaults) (demo_written defaults)
              eq_refl eq_refl ltac:(by vm_compute) ltac:(by vm_compute) E)
    as (Er & Ec & Ee & _).
  rewrite Er, Ec, Ee. repeat split.
Defined.

(** ** The schema of a header line and the bootstrap *)

Lemma index_loop_statements hypertable field idxTypes : forall ixs ixs',
  index_loop hypertable field idxTypes ixs = Done ixs' ->
  ixs' = ixs ++ omap (index_statement hypertable field) idxTypes.
Proof.
  induction idxTypes as [|idx rest IH]; intros ixs ixs'; simpl.
  - intros [= <-]. by rewrite app_nil_r.
  - rewrite outcome_bind_eq. destruct (accepted_index idx) eqn:E.
    + rewrite index_token_accepted by done. intros Hrest.
      apply IH in Hrest as ->. unfold index_statement.
      destruct (String.eqb idx "TIME-VALUE"); [by rewrite <- app_assoc|].
      destruct (String.eqb idx "VALUE-TIME"); [by rewrite <- app_assoc|done].
    + by rewrite index_token_rejected.
Qed.

Lemma measurement_columns_cons field rest :
  measurement_columns (field :: rest)
  = (if named field then [(field ++ " DOUBLE PRECISION")%string] else [])
    ++ measurement_columns rest.
Proof.
  unfold measurement_columns. rewrite filter_cons.
  destruct (decide (named field = true)) as [Hn|Hn].
  - rewrite Hn. done.
  - apply not_true_is_false in Hn. rewrite Hn. done.
Qed.

Lemma fields_loop_schema opts fields : forall idx r r',
  fields_loop opts idx fields r = Done r' ->
  table r' = table r
  /\ indexes r' = indexes r ++ planned_indexes opts (table r) idx fields
  /\ (0 < idx ->
      partitioningField r' = partitioningField r
      /\ fieldDef r' = fieldDef r ++ measurement_columns fields).
Proof.
  induction fields as [|field rest IH]; intros idx r r'; simpl.
  - intros [= <-]. rewrite !app_nil_r. done.
  - rewrite measurement_columns_cons. unfold named.
    destruct (Nat.eqb (String.length field) 0) eqn:Elen; simpl.
    + intros Hrest. apply IH in Hrest as (Et & Ei & Hpos).
      split; [done|]. split; [done|]. intros Hidx. apply Hpos. lia.
    + rewrite outcome_bind_eq.
      destruct (if indexed opts idx then _ else _) as [ixs|e] eqn:Eix; [|discriminate].
      intros Hrest. apply IH in Hrest as (Et & Ei & Hpos). simpl in *.
      split; [done|]. split.
      * rewrite Ei. destruct (indexed opts idx).
        -- apply index_loop_statements in Eix as ->. by rewrite <- app_assoc.
        -- injection Eix as <-. done.
      * intros Hidx. destruct (Hpos ltac:(lia)) as [Ep Ef].
        assert ((idx =? 0) = false) as Hz by lia. rewrite Hz in Ep, Ef.
        split; [done|]. rewrite Ef, <- app_assoc. done.
Qed.

(** X10: the schema derived from a header line.  The relation is the
    text before the first comma; the partitioning column is the field right
    after it (empty when that field is empty or missing); the columns are the
    named fields in order, TEXT for the field at the first position and
    DOUBLE PRECISION for every other; the index statements are those of the
    index types of the named fields within the indexed positions, in order.
    A field with an empty name gives neither a column nor an index but still
    takes up a position. *)
Theorem derived_schema (opts : Options) (text : string) (r : relation) :
  derive_schema opts text = Done r ->
  table r = leading text
  /\ partitioningField r = hd "" (drop 1 (Split comma text))
  /\ fieldDef r = columns (drop 1 (Split comma text))
  /\ indexes r = planned_indexes opts (leading text) 0 (drop 1 (Split comma text)).
Proof.
  unfold derive_schema. pose proof (Split_leading text) as Hsp.
  destruct (Split comma text) as [|hypertable fields] eqn:E; [discriminate|].
  assert (leading text = hypertable) as -> by congruence.
  simpl. rewrite drop_0. destruct fields as [|tag measurements]; simpl.
  - intros [= <-]. done.
  - unfold named. destruct (Nat.eqb (String.length tag) 0) eqn:Elen; simpl.
    + intros Hrest. apply fields_loop_schema in Hrest as (Et & Ei & Hpos).
      destruct (Hpos ltac:(lia)) as [Ep Ef]. simpl in *.
      split; [done|]. split; [|done].
      rewrite Ep. apply Nat.eqb_eq in Elen. by destruct tag.
    + rewrite outcome_bind_eq.
      destruct (if indexed opts 0 then _ else _) as [ixs|e] eqn:Eix; [|discriminate].
      intros Hrest. apply fields_loop_schema in Hrest as (Et & Ei & Hpos).
      destruct (Hpos ltac:(lia)) as [Ep Ef]. simpl in *.
      split; [done|]. split; [done|]. split; [done|].
      rewrite Ei. destruct (indexed opts 0).
      * apply index_loop_statements in Eix as ->. done.
      * by injection Eix as <-.
Qed.

Lemma derived_schema_witness :
  exists r, derive_schema defaults "cpu,,usage,,idle" = Done r
  /\ table r = "cpu"
  /\ partitioningField r = ""
  /\ fieldDef r = ["usage DOUBLE PRECISION"; "idle DOUBLE PRECISION"]
  /\ indexes r = ["CREATE INDEX ON cpu (time, usage)"; "CREATE INDEX ON cpu (time, idle)"].
Proof.
  destruct (derive_schema defaults "cpu,,usage,,idle") as [r|e] eqn:E;
    [|by vm_compute in E].
  exists r. split; [reflexivity|].
  destruct (derived_schema defaults _ r E) as (Et & Ep & Ef & Ei).
  rewrite Et, Ep, Ef, Ei. by vm_compute.
Defined.

Section BootstrapCalls.
Variable opts : Options.
Variable driver : Driver.

Lemma exec_all_calls stmts : forall w w',
  exec_all driver stmts w = (Done tt, w') ->
  calls w' = calls w ++ (MustExec <$> stmts).
Proof.
  induction stmts as [|sql rest IH]; intros w w'; simpl.
  - intros [= <-]. by rewrite app_nil_r.
  - rewrite run_bind_eq.
    destruct (call driver (MustExec sql) w) as [[[]|e] w1] eqn:E; [|discriminate].
    apply call_inv in E as (_ & Hl & _). intros Hrest.
    apply IH in Hrest as ->. rewrite Hl, <- app_assoc. done.
Qed.

Lemma create_relation_calls text w w' :
  create_relation opts driver text w = (Done tt, w') ->
  exists r, derive_schema opts text = Done r
    /\ calls w' = calls w ++ relation_statements opts r.
Proof.
  unfold create_relation. rewrite run_bind_eq. unfold lift at 1.
  destruct (derive_schema opts text) as [r|e]; [|discriminate].
  rewrite run_bind_eq.
  destruct (call driver (MustExec (create_table r)) w) as [[[]|e] w1] eqn:E1;
    [|discriminate].
  apply call_inv in E1 as (_ & Hl1 & _). rewrite run_bind_eq.
  destruct (exec_all driver (indexes r) w1) as [[[]|e] w2] eqn:E2; [|discriminate].
  apply exec_all_calls in E2. intros Hend. exists r. split; [done|].
  unfold relation_statements. destruct (makeHypertable opts).
  - destruct (call driver _ w2) as [[[]|e] w3] eqn:E3; [|discriminate].
    apply call_inv in E3 as (_ & Hl3 & _). injection Hend as <-.
    rewrite Hl3, E2, Hl1. simpl. rewrite <- !app_assoc. done.
  - injection Hend as <-. rewrite E2, Hl1. simpl.
    rewrite app_nil_r, <- app_assoc. done.
Qed.

Lemma deferred_close_inv {A : Type} (body : run A) w res w' :
  deferred_close driver body w = (res, w') ->
  exists wa, body w = (res, wa) /\ calls w' = calls wa ++ [CloseDb].
Proof.
  unfold deferred_close. destruct (body w) as [res' wa]. intros [= -> <-].
  exists wa. split; [done|]. unfold call. by destruct (driver _ _).
Qed.

Lemma header_loop_calls ls : forall w rest w',
  header_loop opts driver ls w = (Done rest, w') ->
  exists rs,
    Forall2 (fun text r => derive_schema opts text = Done r) (header_lines ls) rs
    /\ calls w' = calls w ++ concat (relation_statements opts <$> rs).
Proof.
  induction ls as [|text more IH]; intros w rest w'; simpl.
  - intros [= _ <-]. exists []. split; [constructor|]. by rewrite app_nil_r.
  - destruct (Nat.eqb (String.length text) 0).
    + intros [= _ <-]. exists []. split; [constructor|]. by rewrite app_nil_r.
    + rewrite run_bind_eq.
      destruct (create_relation opts driver text w) as [[[]|e] w1] eqn:E;
        [|discriminate].
      apply create_relation_calls in E as (r & Hr & Hl). intros Hrest.
      apply IH in Hrest as (rs & Hrs & Hl'). exists (r :: rs).
      split; [by constructor|]. rewrite Hl', Hl, fmap_cons, concat_cons.
      by rewrite <- app_assoc.
Qed.

End BootstrapCalls.

(** X11: a bootstrap that completes has made exactly these calls, in
    this order: the connection, DROP DATABASE and CREATE DATABASE, the
    connection to the benchmark database, the two extension statements when
    hypertables are made; then for each header line before the first empty
    line, in order, its CREATE TABLE, its index statements and, when
    hypertables are made, its create_hypertable; then the close of the second
    connection and the close of the first. *)
Theorem bootstrap_statements (opts : Options) (driver : Driver)
    (ls rest : list string) (w w' : world) :
  initBenchmarkDB opts driver ls w = (Done rest, w') ->
  exists rs,
    Forall2 (fun text r => derive_schema opts text = Done r) (header_lines ls) rs
    /\ calls w' = calls w ++ prologue opts
                    ++ concat (relation_statements opts <$> rs)
                    ++ [CloseDb; CloseDb].
Proof.
  unfold initBenchmarkDB. rewrite run_bind_eq.
  destruct (call driver (Connect _) w) as [[[]|e] w1] eqn:E1; [|discriminate].
  apply call_inv in E1 as (_ & Hl1 & _).
  intros Hbody. apply deferred_close_inv in Hbody as (wa & Hbody & Hla).
  rewrite run_bind_eq in Hbody.
  destruct (call driver (MustExec "DROP DATABASE IF EXISTS benchmark") w1)
    as [[[]|e] w2] eqn:E2; [|discriminate].
  apply call_inv in E2 as (_ & Hl2 & _). rewrite run_bind_eq in Hbody.
  destruct (call driver (MustExec "CREATE DATABASE benchmark") w2)
    as [[[]|e] w3] eqn:E3; [|discriminate].
  apply call_inv in E3 as (_ & Hl3 & _). rewrite run_bind_eq in Hbody.
  destruct (call driver (Connect _) w3) as [[[]|e] w4] eqn:E4; [|discriminate].
  apply call_inv in E4 as (_ & Hl4 & _).
  apply deferred_close_inv in Hbody as (wb & Hinner & Hlb).
  rewrite run_bind_eq in Hinner.
  assert (exists w5, calls w5 = calls w ++ prologue opts
          /\ header_loop opts driver ls w5 = (Done rest, wb))
    as (w5 & Hl5 & Hloop).
  { unfold prologue. destruct (makeHypertable opts).
    - rewrite run_bind_eq in Hinner.
      destruct (call driver (MustExec "CREATE EXTENSION IF NOT EXISTS timescaledb CASCADE") w4)
        as [[[]|e] w5] eqn:E5; [|discriminate].
      apply call_inv in E5 as (_ & Hl5 & _).
      destruct (call driver (MustExec "SELECT setup_timescaledb()") w5)
        as [[[]|e] w6] eqn:E6; [|discriminate].
      apply call_inv in E6 as (_ & Hl6 & _).
      exists w6. split; [|done].
      rewrite Hl6, Hl5, Hl4, Hl3, Hl2, Hl1. simpl. rewrite <- !app_assoc. done.
    - exists w4. split; [|done].
      rewrite Hl4, Hl3, Hl2, Hl1. simpl. rewrite <- !app_assoc. done. }
  apply header_loop_calls in Hloop as (rs & Hrs & Hl). exists rs.
  split; [done|]. rewrite Hla, Hlb, Hl, Hl5, <- !app_assoc. done.
Qed.

Lemma bootstrap_statements_witness :
  exists rs,
    Forall2 (fun text r => derive_schema defaults text = Done r)
      (header_lines (lines demo_input)) rs
    /\ calls (snd (initBenchmarkDB defaults sound_driver (lines demo_input) world_init))
       = calls world_init ++ prologue defaults
           ++ concat (relation_statements defaults <$> rs)
           ++ [CloseDb; CloseDb].
Proof.
  apply (bootstrap_statements defaults sound_driver (lines demo_input)
           ["cpu,1000000000,host1,0.5"] world_init).
  vm_compute. reflexivity.
Defined.

(** ** The counters of a run *)

Lemma in_hand_app f ps qs : in_hand f (ps ++ qs) = (in_hand f ps + in_hand f qs)%nat.
Proof. unfold in_hand. by rewrite sum_list_with_app. Qed.

Lemma in_hand_insert f (ps : list worker_pc) : forall i p p',
  ps !! i = Some p ->
  (in_hand f (<[i := p']> ps) + match p with WBusy b => f b | _ => 0 end
   = in_hand f ps + match p' with WBusy b => f b | _ => 0 end)%nat.
Proof.
  unfold in_hand. induction ps as [|q ps IH]; intros i p p' Hi; [done|].
  destruct i as [|i]; simpl in *.
  - injection Hi as ->. lia.
  - specialize (IH i p p' Hi). lia.
Qed.

Lemma in_hand_done f ps : Forall (fun p => p = WDone) ps -> in_hand f ps = 0%nat.
Proof.
  unfold in_hand. induction 1 as [|p ps -> _ IH]; [done|]. simpl. exact IH.
Qed.

Lemma in_hand_idle f ps : Forall (fun p => writing p = false) ps -> in_hand f ps = 0%nat.
Proof.
  unfold in_hand. induction 1 as [|p ps Hp _ IH]; [done|].
  simpl. rewrite IH. by destruct p.
Qed.

Lemma batch_fields_app bs1 bs2 :
  batch_fields (bs1 ++ bs2) = (batch_fields bs1 + batch_fields bs2)%nat.
Proof. unfold batch_fields. by rewrite sum_list_with_app. Qed.

Lemma in_hand_started f ps : in_hand f (ps ++ [WStart]) = in_hand f ps.
Proof. rewrite in_hand_app. unfold in_hand at 2. simpl. lia. Qed.

Lemma row_count_snoc bs b : row_count (bs ++ [b]) = (row_count bs + length (rows b))%nat.
Proof. rewrite row_count_app. unfold row_count at 2. simpl. lia. Qed.

Lemma batch_fields_snoc bs b :
  batch_fields (bs ++ [b]) = (batch_fields bs + field_total (rows b))%nat.
Proof. rewrite batch_fields_app. unfold batch_fields at 2. simpl. lia. Qed.

Lemma exec_count_call driver c w :
  exec_count (calls (snd (call driver c w)))
  = (exec_count (calls w) + if is_exec c then 1 else 0)%nat.
Proof. unfold call. destruct (driver _ _); simpl; apply exec_count_snoc. Qed.

Section CounterFacts.
Variable opts : Options.
Variable driver : Driver.
Variable sc : script.

Lemma tally_init w0 :
  - two63 <= rowCount w0 < two63 -> - two63 <= columnCount w0 < two63 ->
  columnCountWorker w0 = 0 ->
  tally w0 (init_state sc w0).
Proof.
  intros Hr Hc Hl. split; simpl; try done.
  - unfold row_count. simpl. rewrite wrap64_id; lia.
  - unfold batch_fields. simpl. rewrite wrap64_id; lia.
Qed.

Lemma step_tally w0 s s' :
  doLoad opts = true ->
  step opts driver sc s s' -> tally w0 s -> crashed s' = None -> tally w0 s'.
Proof.
  intros Hload Hstep [Tr Tc Te Tl] Hlive.
  inversion Hstep; subst; simpl in *; try discriminate.
  all: try (split; simpl; done).
  - (* a worker is started *)
    split; simpl; rewrite ?in_hand_started; done.
  - (* a batch is handed over *)
    match goal with Hl : ws s !! _ = Some WRecv |- _ =>
      pose proof (in_hand_insert (fun b => length (rows b)) _ _ _ (WBusy b) Hl) as Ha;
      pose proof (in_hand_insert (fun b => field_total (rows b)) _ _ _ (WBusy b) Hl) as Hb
    end; cbn beta iota in Ha, Hb.
    split; simpl; rewrite ?row_count_snoc, ?batch_fields_snoc; try done.
    + rewrite Tr. f_equal. lia.
    + rewrite Tc. f_equal. lia.
    + lia.
  - (* a worker connects *)
    match goal with Hl : ws s !! _ = Some WStart |- _ =>
      pose proof (in_hand_insert (fun b => length (rows b)) _ _ _ WRecv Hl) as Ha;
      pose proof (in_hand_insert (fun b => field_total (rows b)) _ _ _ WRecv Hl) as Hb
    end; cbn beta iota in Ha, Hb.
    match goal with E : call _ _ _ = _ |- _ =>
      apply call_inv in E as ([Ec Er] & El & Ew & _) end.
    split; simpl.
    + rewrite Er, Tr. f_equal. lia.
    + rewrite Ec, Tc. f_equal. lia.
    + rewrite El, exec_count_snoc. simpl. lia.
    + congruence.
  - (* a batch is received from the buffer *)
    match goal with Hl : ws s !! _ = Some WRecv |- _ =>
      pose proof (in_hand_insert (fun b => length (rows b)) _ _ _ (WBusy b) Hl) as Ha;
      pose proof (in_hand_insert (fun b => field_total (rows b)) _ _ _ (WBusy b) Hl) as Hb
    end; cbn beta iota in Ha, Hb.
    split; simpl; rewrite ?row_count_snoc, ?batch_fields_snoc; try done.
    + rewrite Tr. f_equal. lia.
    + rewrite Tc. f_equal. lia.
    + lia.
  - (* a batch is written *)
    match goal with Hl : ws s !! _ = Some (WBusy _) |- _ =>
      pose proof (in_hand_insert (fun b => length (rows b)) _ _ _ WRecv Hl) as Ha;
      pose proof (in_hand_insert (fun b => field_total (rows b)) _ _ _ WRecv Hl) as Hb
    end; cbn beta iota in Ha, Hb.
    destruct (processBatch_cases opts driver b (shared s) Hload Tl)
      as [(e & w1 & E & _)|[(e & w1 & E & _)|(w1 & E & (Ac & Ar & Ae) & Hl1)]];
      try congruence.
    assert (w1 = w') as -> by congruence.
    split; simpl; try done.
    + rewrite Ar, Tr, wrap64_add_l. f_equal. lia.
    + rewrite Ac, Tc, field_count_total, wrap64_add_r, wrap64_add_l. f_equal. lia.
    + lia.
  - (* a worker leaves its loop *)
    match goal with Hl : ws s !! _ = Some WRecv |- _ =>
      pose proof (in_hand_insert (fun b => length (rows b)) _ _ _ WExited Hl) as Ha;
      pose proof (in_hand_insert (fun b => field_total (rows b)) _ _ _ WExited Hl) as Hb
    end; cbn beta iota in Ha, Hb.
    split; simpl; try done.
    + rewrite Tr. f_equal. lia.
    + rewrite Tc. f_equal. lia.
    + lia.
  - (* a worker announces and closes its connection *)
    match goal with Hl : ws s !! _ = Some WExited |- _ =>
      pose proof (in_hand_insert (fun b => length (rows b)) _ _ _ WDone Hl) as Ha;
      pose proof (in_hand_insert (fun b => field_total (rows b)) _ _ _ WDone Hl) as Hb
    end; cbn beta iota in Ha, Hb.
    destruct (call driver CloseDb (shared s)) as [r w1] eqn:E.
    apply call_inv in E as ([Ec Er] & El & Ew & _).
    split; simpl.
    + rewrite Er, Tr. f_equal. lia.
    + rewrite Ec, Tc. f_equal. lia.
    + rewrite El, exec_count_snoc. simpl. lia.
    + congruence.
Qed.

Lemma step_live s s' :
  step opts driver sc s s' -> crashed s = None.
Proof. by inversion 1. Qed.

Lemma reachable_live s0 s :
  reachable opts driver sc s0 s -> crashed s = None -> crashed s0 = None.
Proof.
  induction 1 as [|s s' _ IH Hstep]; [done|].
  intros _. apply IH. by apply (step_live s s').
Qed.

Lemma reachable_tally w0 s :
  doLoad opts = true ->
  - two63 <= rowCount w0 < two63 -> - two63 <= columnCount w0 < two63 ->
  columnCountWorker w0 = 0 ->
  reachable opts driver sc (init_state sc w0) s ->
  crashed s = None -> tally w0 s.
Proof.
  intros Hload Hr Hc Hl. induction 1 as [|s s' _ IH Hstep]; intros Hlive.
  - by apply tally_init.
  - apply (step_tally w0 s s'); try done. apply IH. by apply (step_live s s').
Qed.

(** Where [scan] has returned it has not panicked, and at the summary no
    goroutine has. *)
Lemma reachable_finished w0 s :
  reachable opts driver sc (init_state sc w0) s ->
  (reader_finished (pc s) = true -> reader_end sc = None)
  /\ (pc s = Summary -> crashed s = None).
Proof.
  induction 1 as [|s1 s2 Hreach [IHr IHs] Hstep]; [by split|].
  pose proof (reachable_inv opts driver sc w0 s1 Hreach) as Hinv.
  pose proof (I_summary _ _ _ Hinv) as Hsum.
  inversion Hstep; subst; simpl in *; split; try done; try congruence.
  all: try (intros Hf; apply IHr;
            match goal with Hp : pc _ = _ |- _ => rewrite Hp in *; done end).
  all: intros Hs;
       match goal with Hl : ws _ !! _ = Some _ |- _ =>
         pose proof (all_done_lookup _ _ _ (Hsum Hs) Hl); discriminate end.
Qed.

End CounterFacts.

(** X2: what the way [scan] ends says of the input.  When it returns, the
    scanner has reported no error and every line holds a comma.  When it ends
    otherwise it is by the panic index out of range [1] with length 1, and
    then some line has no comma, or by [log.Fatalf] with the scanner's error,
    and then every line holds a comma (a line without one panics first).  It
    need not end at all: a send on [batchChan] may wait for ever.  And in a
    run of [main], [main] is past its call of [scan] only if the input after
    the header was read without error and each of its lines holds a comma. *)
Theorem scan_outcomes `{MapRange} (itemsPerBatch : Z) (scanner : Scanner) :
  (forall r,
     scan itemsPerBatch scanner = Done r ->
     err scanner = None
     /\ Forall (fun l => contains comma l = true) (lines scanner))
  /\ (forall e,
        scan itemsPerBatch scanner = Fatal e ->
        (e = IndexOutOfRange 1 1
         /\ Exists (fun l => contains comma l = false) (lines scanner))
        \/ (exists msg, e = ReadError msg /\ err scanner = Some msg
             /\ Forall (fun l => contains comma l = true) (lines scanner)))
  /\ (forall opts driver s0 s,
        boot opts driver scanner = Done s0 ->
        reachable opts driver (boot_script opts scanner) s0 s ->
        reader_finished (pc s) = true ->
        err scanner = None
        /\ Forall (fun l => contains comma l = true) (skip_header (lines scanner))).
Proof.
  assert (forall ipb sc r, scan ipb sc = Done r ->
            err sc = None /\ Forall (fun l => contains comma l = true) (lines sc))
    as Hret.
  { intros ipb sc r. unfold scan.
    destruct (commas_or_not (lines sc)) as [Hall|Hex].
    - destruct (scan_loop ipb scan_init (lines sc)) as [st|e]; [|discriminate].
      simpl. by destruct (err sc).
    - by rewrite scan_loop_fatal. }
  split; [apply Hret|]. split.
  - intros e. unfold scan.
    destruct (commas_or_not (lines scanner)) as [Hall|Hex].
    + pose proof (scan_loop_done itemsPerBatch (lines scanner) scan_init Hall) as Hd.
      destruct (scan_loop itemsPerBatch scan_init (lines scanner)) as [st|e'];
        [|discriminate].
      simpl. destruct (err scanner) as [m|]; [|discriminate].
      intros [= <-]. right. by exists m.
    + rewrite scan_loop_fatal by done. simpl. intros [= <-]. by left.
  - intros opts driver s0 s Hboot Hrun Hfin.
    destruct (boot_init opts driver scanner s0 Hboot) as (w & -> & _).
    destruct (reachable_finished _ _ _ _ _ Hrun) as [Hend _].
    specialize (Hend Hfin). unfold boot_script, reader_script in Hend.
    destruct (scan (batchSize opts) _) as [r|e] eqn:Hscan; [|discriminate].
    apply Hret in Hscan. exact Hscan.
Qed.

(** The two ways in which [scan] ends otherwise, on inputs of one line. *)
Example scan_ends_otherwise :
  scan 1 {| lines := ["cpu"]; err := None |} = Fatal (IndexOutOfRange 1 1)
  /\ scan 1 {| lines := ["cpu,1"]; err := Some "read" |} = Fatal (ReadError "read").
Proof. split; reflexivity. Qed.

(** X12: in a run with load-writing enabled, at every moment at which
    no goroutine has panicked and no worker is inside a batch (each is
    before its connect, at its receive, or past its loop), the shared counters
    hold exactly the batches the workers have received: the row counter their
    rows, the column counter their fields (in 64-bit arithmetic), and the
    driver has been handed one row per row counted, whatever the driver
    answers.  What the counters hold while a worker is inside a batch is
    C2. *)
Theorem counters_between_batches (opts : Options) (driver : Driver) (sc : script)
    (w0 : world) (s : state) :
  doLoad opts = true ->
  columnCountWorker w0 = 0 ->
  - two63 <= rowCount w0 < two63 ->
  - two63 <= columnCount w0 < two63 ->
  reachable opts driver sc (init_state sc w0) s ->
  crashed s = None ->
  Forall (fun p => writing p = false) (ws s) ->
  rowCount (shared s) = wrap64 (rowCount w0 + Z.of_nat (row_count (consumed s)))
  /\ columnCount (shared s)
     = wrap64 (columnCount w0 + Z.of_nat (batch_fields (consumed s)))
  /\ exec_count (calls (shared s))
     = (exec_count (calls w0) + row_count (consumed s))%nat.
Proof.
  intros Hload Hl Hr Hc Hrun Hlive Hidle.
  destruct (reachable_tally opts driver sc w0 s Hload Hr Hc Hl Hrun Hlive)
    as [Tr Tc Te _].
  rewrite !in_hand_idle in * by done.
  split; [rewrite Tr; f_equal; lia|]. split; [rewrite Tc; f_equal; lia|]. lia.
Qed.

Lemma counters_between_batches_witness :
  doLoad defaults = true
  /\ reachable defaults sound_driver demo_script (init_state demo_script world_init)
       (demo_final defaults)
  /\ rowCount (shared (demo_final defaults)) = 1
  /\ columnCount (shared (demo_final defaults)) = 3
  /\ exec_count (calls (shared (demo_final defaults))) = 1%nat.
Proof.
  split; [reflexivity|].
  assert (reachable defaults sound_driver demo_script (init_state demo_script world_init)
            (demo_final defaults)) as Hrun.
  { apply (one_worker_run defaults sound_driver one_row_batch world_init
             (demo_connected defaults) (demo_written defaults)).
    - reflexivity.
    - vm_compute. reflexivity.
    - vm_compute. reflexivity. }
  split; [exact Hrun|].
  destruct (counters_between_batches defaults sound_driver demo_script world_init
              (demo_final defaults) eq_refl eq_refl
              ltac:(by vm_compute) ltac:(by vm_compute) Hrun eq_refl
              ltac:(by repeat constructor))
    as (Er & Ec & Ee).
  split; [rewrite Er; reflexivity|]. split; [rewrite Ec; reflexivity|].
  rewrite Ee. reflexivity.
Defined.

(** ** From the input to the summary *)

Lemma field_total_snoc ls x :
  field_total (ls ++ [x]) = (field_total ls + length (Split comma x))%nat.
Proof. unfold field_total. rewrite sum_list_with_app. simpl. lia. Qed.

Lemma held_fields_empty : held_fields ∅ = 0%nat.
Proof. unfold held_fields. rewrite map_to_list_empty. reflexivity. Qed.

Lemma held_fields_insert_fresh (m : gmap string (list string)) h l :
  m !! h = None -> held_fields (<[h := l]> m) = (field_total l + held_fields m)%nat.
Proof.
  intros Hm. unfold held_fields. rewrite (map_to_list_insert m h l Hm). reflexivity.
Qed.

Lemma held_fields_insert (m : gmap string (list string)) h l :
  (held_fields (<[h := l]> m) + field_total (default [] (m !! h))
   = field_total l + held_fields m)%nat.
Proof.
  destruct (m !! h) as [l0|] eqn:Hm; simpl.
  - rewrite <- (insert_delete_id m h l0 Hm) at 2.
    rewrite <- (insert_delete_eq m h l).
    rewrite !held_fields_insert_fresh by apply lookup_delete_eq. lia.
  - rewrite held_fields_insert_fresh by done. lia.
Qed.

Lemma held_fields_append (m : gmap string (list string)) h x :
  held_fields (<[h := (default [] (m !! h) ++ [x])%list]> m)
  = (held_fields m + length (Split comma x))%nat.
Proof.
  pose proof (held_fields_insert m h (default [] (m !! h) ++ [x])%list) as E.
  rewrite field_total_snoc in E. lia.
Qed.

Lemma held_fields_zero (m : gmap string (list string)) :
  held m = 0%nat -> held_fields m = 0%nat.
Proof.
  unfold held, held_fields. induction (map_to_list m) as [|[h l] L IH]; [done|].
  simpl. intros Hz. destruct l; [|simpl in Hz; lia].
  unfold field_total at 1. simpl. apply IH. simpl in Hz. lia.
Qed.

Lemma copy_lines_cons text rest :
  copy_lines (text :: rest)
  = match Cut comma text with
    | Some (_, c) => c :: copy_lines rest
    | None => copy_lines rest
    end.
Proof. unfold copy_lines. simpl. by destruct (Cut comma text) as [[h c]|]. Qed.

Section ReaderFields.
Context `{MapRange}.

Lemma flush_batch_fields at_ m : batch_fields (flush at_ m) = held_fields m.
Proof.
  unfold batch_fields, flush, held_fields. rewrite <- (range_perm at_ m).
  induction (range at_ m) as [|e L IH]; [reflexivity|].
  rewrite fmap_cons. simpl. by rewrite IH.
Qed.

(** The loop of [scan] neither loses nor adds a field. *)
Lemma scan_loop_fields itemsPerBatch ls : forall st st',
  scan_loop itemsPerBatch st ls = Done st' ->
  (batch_fields (sent st') + held_fields (batch st')
   = batch_fields (sent st) + held_fields (batch st) + field_total (copy_lines ls))%nat.
Proof.
  induction ls as [|text rest IH]; intros st st'.
  - intros [= <-]. unfold field_total. simpl. lia.
  - simpl. rewrite outcome_bind_eq. unfold scan_line at 1.
    rewrite accumulate_spec, copy_lines_cons.
    destruct (Cut comma text) as [[h c]|]; [|discriminate]. simpl.
    destruct (itemsPerBatch <=? _); intros Hrest; apply IH in Hrest;
      rewrite Hrest; simpl.
    + rewrite batch_fields_app, flush_batch_fields, held_fields_append,
        held_fields_empty.
      unfold field_total at 2. simpl. fold (field_total (copy_lines rest)). lia.
    + rewrite held_fields_append.
      unfold field_total at 2. simpl. fold (field_total (copy_lines rest)). lia.
Qed.

(** A [scan] that returns has read as many lines as it returns, and the
    batches it has sent hold the rows and the fields of the copy lines. *)
Lemma scan_totals itemsPerBatch scanner r :
  Z.of_nat (length (lines scanner)) < two63 ->
  scan itemsPerBatch scanner = Done r ->
  itemsRead r = Z.of_nat (length (lines scanner))
  /\ row_count (batchChan r) = length (lines scanner)
  /\ batch_fields (batchChan r) = field_total (copy_lines (lines scanner)).
Proof.
  intros Hlen. unfold scan.
  destruct (scan_loop itemsPerBatch scan_init (lines scanner)) as [st|e] eqn:Hrun;
    [|discriminate].
  pose proof (scan_loop_inv itemsPerBatch (lines scanner) [] scan_init st
                (or_intror Hlen) (scan_inv_init itemsPerBatch) Hrun) as Hinv.
  pose proof (scan_loop_fields _ _ _ _ Hrun) as Hf.
  simpl in Hinv, Hf. rewrite held_fields_empty in Hf.
  destruct (err scanner); [discriminate|]. intros [= <-]. simpl.
  split; [by apply (inv_lines _ _ _ Hinv)|]. split.
  - rewrite row_count_app, (final_flush_row_count _ _ _ Hinv).
    apply (inv_total _ _ _ Hinv).
  - assert (batch_fields (final_flush st) = held_fields (batch st)) as Hlast.
    { unfold final_flush. destruct (0 <? n st) eqn:E.
      - apply flush_batch_fields.
      - apply Z.ltb_ge in E. rewrite (inv_n _ _ _ Hinv) in E.
        rewrite held_fields_zero by lia. reflexivity. }
    rewrite batch_fields_app, Hlast.
    change (batch_fields []) with 0%nat in Hf. lia.
Qed.

End ReaderFields.

Section KeepsFacts.
Variable opts : Options.
Variable driver : Driver.

Lemma keeps_ret {A : Type} (a : A) : keeps (mret a : run A).
Proof. by intros w. Qed.

Lemma keeps_lift {A : Type} (o : outcome A) : keeps (lift o).
Proof. by intros w. Qed.

Lemma keeps_call c : is_exec c = false -> keeps (call driver c).
Proof.
  intros Hc w. rewrite exec_count_call, Hc. unfold call.
  destruct (driver _ _); simpl; repeat split; lia.
Qed.

Lemma keeps_bind {A B : Type} (x : run A) (f : A -> run B) :
  keeps x -> (forall a, keeps (f a)) -> keeps (x ≫= f).
Proof.
  intros Hx Hf w. rewrite run_bind_eq. specialize (Hx w).
  destruct (x w) as [[a|e] w1]; simpl in *; [|done].
  destruct (Hf a w1) as (E1 & E2 & E3 & E4). destruct Hx as (F1 & F2 & F3 & F4).
  repeat split; congruence.
Qed.

Lemma keeps_deferred_close {A : Type} (body : run A) :
  keeps body -> keeps (deferred_close driver body).
Proof.
  intros Hb w. unfold deferred_close. specialize (Hb w).
  destruct (body w) as [res w1]. simpl in *.
  destruct (keeps_call CloseDb eq_refl w1) as (E1 & E2 & E3 & E4).
  destruct Hb as (F1 & F2 & F3 & F4). repeat split; congruence.
Qed.

Lemma keeps_exec_all stmts : keeps (exec_all driver stmts).
Proof.
  induction stmts as [|sql rest IH]; simpl; [apply keeps_ret|].
  apply keeps_bind; [by apply keeps_call | by intros _].
Qed.

Lemma keeps_create_relation text : keeps (create_relation opts driver text).
Proof.
  unfold create_relation. apply keeps_bind; [apply keeps_lift|]. intros r.
  apply keeps_bind; [by apply keeps_call|]. intros _.
  apply keeps_bind; [apply keeps_exec_all|]. intros _.
  destruct (makeHypertable opts); [by apply keeps_call | apply keeps_ret].
Qed.

Lemma keeps_header_loop ls : keeps (header_loop opts driver ls).
Proof.
  induction ls as [|text rest IH]; simpl; [apply keeps_ret|].
  destruct (Nat.eqb (String.length text) 0); [apply keeps_ret|].
  apply keeps_bind; [apply keeps_create_relation | by intros _].
Qed.

Lemma keeps_initBenchmarkDB ls : keeps (initBenchmarkDB opts driver ls).
Proof.
  unfold initBenchmarkDB.
  apply keeps_bind; [by apply keeps_call|]. intros _.
  apply keeps_deferred_close.
  apply keeps_bind; [by apply keeps_call|]. intros _.
  apply keeps_bind; [by apply keeps_call|]. intros _.
  apply keeps_bind; [by apply keeps_call|]. intros _.
  apply keeps_deferred_close.
  apply keeps_bind; [|intros _; apply keeps_header_loop].
  destruct (makeHypertable opts); [|apply keeps_ret].
  apply keeps_bind; [by apply keeps_call | intros _; by apply keeps_call].
Qed.

Lemma keeps_main_header ls : keeps (main_header opts driver ls).
Proof.
  unfold main_header.
  destruct (doLoad opts); [apply keeps_initBenchmarkDB | apply keeps_ret].
Qed.

End KeepsFacts.

(** X13: a run of [main] with load-writing enabled that reaches the
    summary has read every line after the header without a panic, and its
    two summary lines agree with what was written: the rows [scan] reports
    are the rows the workers counted and the rows handed to the driver, one
    per data line, and the columns reported are the fields of the copy lines
    of the input (in 64-bit arithmetic), for every driver, every interleaving
    and every order of Go's map iteration. *)
Theorem summary_counts `{MapRange} (opts : Options) (driver : Driver)
    (input : Scanner) (s0 s : state) :
  doLoad opts = true ->
  Z.of_nat (length (skip_header (lines input))) < two63 ->
  boot opts driver input = Done s0 ->
  reachable opts driver (boot_script opts input) s0 s ->
  pc s = Summary ->
  exists r,
    scan (batchSize opts) {| lines := skip_header (lines input); err := err input |}
    = Done r
    /\ itemsRead r = Z.of_nat (length (skip_header (lines input)))
    /\ rowCount (shared s) = itemsRead r
    /\ exec_count (calls (shared s)) = length (skip_header (lines input))
    /\ columnCount (shared s)
       = wrap64 (Z.of_nat (field_total (copy_lines (skip_header (lines input))))).
Proof.
  intros Hload Hlen Hboot Hrun Hpc. unfold boot in Hboot.
  destruct (main_header opts driver (lines input) world_init) as [[rest|e] w0] eqn:E;
    [|discriminate].
  injection Hboot as <-. rewrite (main_header_rest _ _ _ _ _ _ E) in Hrun.
  fold (boot_script opts input) in Hrun.
  destruct (keeps_main_header opts driver (lines input) world_init)
    as (Kc & Kr & Kl & Ke).
  rewrite E in Kc, Kr, Kl, Ke. simpl in Kc, Kr, Kl, Ke.
  destruct (reachable_finished _ _ _ _ _ Hrun) as [Hfin Hlive].
  rewrite Hpc in Hfin. specialize (Hfin eq_refl). specialize (Hlive Hpc).
  destruct (summary_state _ _ _ _ _ Hrun Hpc) as (Hdone & _ & _ & _ & _ & Hcons).
  assert (- two63 <= 0 < two63) as Hz by (by vm_compute).
  destruct (reachable_tally opts driver _ w0 s Hload
              ltac:(by rewrite Kr) ltac:(by rewrite Kc) Kl Hrun Hlive)
    as [Tr Tc Te _].
  rewrite !in_hand_done, Hcons, ?Kr, ?Kc, ?Ke in * by done.
  unfold boot_script, reader_script in Hfin, Tr, Tc, Te.
  destruct (scan (batchSize opts) _) as [r|e] eqn:Hscan; [|discriminate].
  simpl in Tr, Tc, Te. exists r. split; [reflexivity|].
  destruct (scan_totals (batchSize opts)
              {| lines := skip_header (lines input); err := err input |} r Hlen Hscan)
    as (Hi & Hrows & Hfields).
  simpl in Hi, Hrows, Hfields. rewrite Hrows in Tr, Te. rewrite Hfields in Tc.
  split; [exact Hi|]. split; [|split].
  - rewrite Tr, Hi.
    replace (0 + Z.of_nat (length (skip_header (lines input))) - Z.of_nat 0)
      with (Z.of_nat (length (skip_header (lines input)))) by lia.
    apply wrap64_id. unfold two63 in *. lia.
  - lia.
  - rewrite Tc. f_equal. lia.
Qed.

Lemma summary_counts_witness :
  doLoad defaults = true
  /\ boot defaults sound_driver demo_input = Done (init_state demo_script demo_booted)
  /\ reachable defaults sound_driver (boot_script defaults demo_input)
       (init_state demo_script demo_booted) load_final
  /\ rowCount (shared load_final) = 1
  /\ exec_count (calls (shared load_final)) = 1%nat
  /\ columnCount (shared load_final) = 3.
Proof.
  split; [reflexivity|].
  assert (boot defaults sound_driver demo_input
          = Done (init_state demo_script demo_booted)) as Hboot
    by (vm_compute; reflexivity).
  assert (reachable defaults sound_driver (boot_script defaults demo_input)
            (init_state demo_script demo_booted) load_final) as Hrun.
  { rewrite demo_boot_script.
    apply (one_worker_run defaults sound_driver one_row_batch demo_booted
             load_connected load_written).
    - reflexivity.
    - vm_compute. reflexivity.
    - vm_compute. reflexivity. }
  split; [exact Hboot|]. split; [exact Hrun|].
  destruct (summary_counts defaults sound_driver demo_input _ _
              eq_refl ltac:(by vm_compute) Hboot Hrun eq_refl)
    as (r & Hscan & Hi & Er & Ee & Ec).
  split; [rewrite Er, Hi; reflexivity|]. split; [rewrite Ee; reflexivity|].
  rewrite Ec. reflexivity.
Defined.

(** ** No deadlock *)

Lemma active_pos ps :
  (0 < active ps)%nat -> exists i p, ps !! i = Some p /\ announced p = false.
Proof.
  induction ps as [|q ps IH]; [unfold active; simpl; lia|].
  rewrite active_cons. destruct (announced q) eqn:E.
  - intros Hpos. destruct (IH ltac:(lia)) as (i & p & Hi & Hp).
    by exists (S i), p.
  - intros _. by exists 0%nat, q.
Qed.

Section ProgressFacts.
Variable opts : Options.
Variable driver : Driver.
Variable sc : script.

(** A worker that has not announced can take a step, unless it waits at
    its receive on an open and empty channel. *)
Lemma worker_can_step s i p :
  crashed s = None -> ws s !! i = Some p -> announced p = false ->
  (p = WRecv -> chan s <> [] \/ chan_closed s = true) ->
  exists s', step opts driver sc s s'.
Proof.
  intros Hlive Hi Hp Hrecv. destruct p; try discriminate.
  - destruct (call driver (Connect (postgresConnect opts ++ " dbname=benchmark")%string)
                (shared s)) as [[[]|e] w'] eqn:E.
    + eexists. by apply (w_connect opts driver sc s i w').
    + eexists. by apply (w_connect_panics opts driver sc s i e w').
  - destruct (chan s) as [|b rest] eqn:Hch.
    + destruct (Hrecv eq_refl) as [?|Hcl]; [done|].
      eexists. by apply (w_exit opts driver sc s i).
    + eexists. by apply (w_recv opts driver sc s i b rest).
  - destruct (processBatch opts driver b (shared s)) as [[[]|e] w'] eqn:E.
    + eexists. by apply (w_process opts driver sc s i b w').
    + eexists. by apply (w_process_panics opts driver sc s i b e w').
  - eexists. by apply (w_done opts driver sc s i).
Qed.

End ProgressFacts.

(** X15: with at least one worker (or nothing to send) the goroutines
    never deadlock: in every state of a run in which no goroutine has
    panicked, either [main] is at its summary or some goroutine can take a
    step, whatever the driver answers. *)
Theorem pipeline_progress (opts : Options) (driver : Driver) (sc : script)
    (w : world) (s : state) :
  1 <= workers opts \/ to_send sc = [] ->
  reachable opts driver sc (init_state sc w) s ->
  crashed s = None ->
  pc s = Summary \/ exists s', step opts driver sc s s'.
Proof.
  intros Hw Hrun Hlive.
  destruct (reachable_inv opts driver sc w s Hrun) as [Hc Hi Hp Hcl He Hwg Hcap Hsp Hsum].
  destruct (pc s) as [|i| | | | |] eqn:Hpc; simpl in *.
  - right. destruct (Z_lt_le_dec (workers opts) 0).
    + eexists. by apply (m_make_panics opts driver sc s).
    + eexists. by apply (m_make opts driver sc s).
  - right. destruct (Z_lt_le_dec (Z.of_nat i) (workers opts)).
    + eexists. by apply (m_spawn opts driver sc s i).
    + eexists. by apply (m_spawned opts driver sc s i).
  - right. destruct (pending s) as [|b rest] eqn:Hpend.
    + destruct (reader_end sc) as [e|] eqn:Hend.
      * eexists. by apply (m_scan_panics opts driver sc s e).
      * eexists. by apply (m_input_done opts driver sc s).
    + destruct (lt_dec (length (chan s)) (capacity opts)) as [Hroom|Hfull].
      * eexists. by apply (m_send opts driver sc s b rest).
      * destruct Hw as [Hw|Hnone].
        2: { rewrite Hnone in Hc. by destruct (consumed s), (chan s). }
        assert (1 <= capacity opts)%nat as Hcap1 by (unfold capacity; lia).
        destruct (ws s) as [|p ps] eqn:Hws; [simpl in Hsp; lia|].
        assert (ws s !! 0%nat = Some p) as H0 by (by rewrite Hws).
        assert (exited p = false) as Hex.
        { destruct (exited p) eqn:E; [|done].
          destruct (He 0%nat p eq_refl E). congruence. }
        apply (worker_can_step opts driver sc s 0%nat p Hlive H0).
        -- by destruct p.
        -- intros _. left. destruct (chan s); [simpl in Hfull; lia | done].
  - right. eexists. apply (m_recv_input_done opts driver sc s); congruence.
  - right. eexists. by apply (m_close opts driver sc s).
  - right. destruct (Z.eq_dec (wg s) 0) as [Hz|Hnz].
    + eexists. by apply (m_wait opts driver sc s).
    + destruct (active_pos (ws s) ltac:(lia)) as (i & p & Hip & Hnot).
      apply (worker_can_step opts driver sc s i p Hlive Hip Hnot).
      intros _. by right.
  - by left.
Qed.

Lemma pipeline_progress_witness :
  1 <= workers defaults
  /\ (pc (init_state demo_script world_init) = Summary
      \/ exists s', step defaults sound_driver demo_script
                      (init_state demo_script world_init) s').
Proof.
  split; [by vm_compute|].
  apply (pipeline_progress defaults sound_driver demo_script world_init).
  - left. by vm_compute.
  - apply reach_start.
  - reflexivity.
Defined.

(** ** Connections *)

Lemma close_count_app cs1 cs2 :
  close_count (cs1 ++ cs2) = (close_count cs1 + close_count cs2)%nat.
Proof. unfold close_count. by rewrite filter_app, length_app. Qed.

Lemma opened_app driver cs1 : forall past cs2,
  opened driver past (cs1 ++ cs2)
  = (opened driver past cs1 + opened driver (past ++ cs1) cs2)%nat.
Proof.
  induction cs1 as [|c cs1 IH]; intros past cs2; simpl.
  - by rewrite app_nil_r.
  - rewrite IH, <- app_assoc. simpl. lia.
Qed.

Lemma neutral_calls driver new : forall past,
  Forall (fun c => is_link c = false) new ->
  opened driver past new = 0%nat /\ close_count new = 0%nat.
Proof.
  induction new as [|c new IH]; intros past Hall; [done|].
  apply Forall_cons in Hall as [Hc Hall].
  destruct (IH (past ++ [c]) Hall) as [E1 E2]. simpl. rewrite E1.
  unfold close_count in *. rewrite filter_cons.
  destruct c; try discriminate; simpl;
    (destruct (decide (false = true)); [discriminate | done]).
Qed.

Section LinkFacts.
Variable opts : Options.
Variable driver : Driver.

Lemma neutral_same {A : Type} (x : run A) :
  (forall w, calls (snd (x w)) = calls w) -> neutral x.
Proof. intros Hx w. exists []. by rewrite Hx, app_nil_r. Qed.

Lemma neutral_ret {A : Type} (a : A) : neutral (mret a : run A).
Proof. by apply neutral_same. Qed.

Lemma neutral_lift {A : Type} (o : outcome A) : neutral (lift o).
Proof. by apply neutral_same. Qed.

Lemma neutral_call c : is_link c = false -> neutral (call driver c).
Proof.
  intros Hc w. exists [c]. split; [|by constructor].
  unfold call. by destruct (driver _ _).
Qed.

Lemma neutral_bind {A B : Type} (x : run A) (f : A -> run B) :
  neutral x -> (forall a, neutral (f a)) -> neutral (x ≫= f).
Proof.
  intros Hx Hf w. rewrite run_bind_eq. destruct (Hx w) as (n1 & E1 & F1).
  destruct (x w) as [[a|e] w1]; simpl in *; [|by exists n1].
  destruct (Hf a w1) as (n2 & E2 & F2). exists (n1 ++ n2). split.
  - by rewrite E2, E1, <- app_assoc.
  - by apply Forall_app.
Qed.

Lemma neutral_process_rows ls : neutral (process_rows driver ls).
Proof.
  induction ls as [|line rest IH]; simpl; [apply neutral_ret|].
  apply neutral_bind; [|by intros _]. unfold process_row.
  apply neutral_bind; [by apply neutral_same|]. intros _.
  apply neutral_bind; [apply neutral_lift|]. intros in_.
  by apply neutral_call.
Qed.

Lemma neutral_processBatch b : neutral (processBatch opts driver b).
Proof.
  unfold processBatch. destruct (negb (doLoad opts)); [apply neutral_ret|].
  apply neutral_bind; [by apply neutral_call|]. intros _.
  apply neutral_bind; [by apply neutral_call|]. intros _.
  apply neutral_bind; [apply neutral_process_rows|]. intros _.
  apply neutral_bind; [by apply neutral_same|]. intros _.
  apply neutral_bind; [by apply neutral_call|]. intros _.
  apply neutral_bind; [by apply neutral_call|]. intros _.
  destruct (logBatches opts); [by apply neutral_same | apply neutral_ret].
Qed.

Lemma neutral_process_all bs : neutral (process_all opts driver bs).
Proof.
  induction bs as [|b rest IH]; simpl; [apply neutral_ret|].
  apply neutral_bind; [apply neutral_processBatch | by intros _].
Qed.

Lemma neutral_exec_all stmts : neutral (exec_all driver stmts).
Proof.
  induction stmts as [|sql rest IH]; simpl; [apply neutral_ret|].
  apply neutral_bind; [by apply neutral_call | by intros _].
Qed.

Lemma neutral_header_loop ls : neutral (header_loop opts driver ls).
Proof.
  induction ls as [|text rest IH]; simpl; [apply neutral_ret|].
  destruct (Nat.eqb (String.length text) 0); [apply neutral_ret|].
  apply neutral_bind; [|by intros _]. unfold create_relation.
  apply neutral_bind; [apply neutral_lift|]. intros r.
  apply neutral_bind; [by apply neutral_call|]. intros _.
  apply neutral_bind; [apply neutral_exec_all|]. intros _.
  destruct (makeHypertable opts); [by apply neutral_call | apply neutral_ret].
Qed.

Lemma settles_neutral {A : Type} (x : run A) : neutral x -> settles driver x.
Proof.
  intros Hx w. destruct (Hx w) as (new & E & F). exists new. split; [done|].
  destruct (neutral_calls driver new (calls w) F). congruence.
Qed.

Lemma settles_bind {A B : Type} (x : run A) (f : A -> run B) :
  neutral x -> (forall a, settles driver (f a)) -> settles driver (x ≫= f).
Proof.
  intros Hx Hf w. rewrite run_bind_eq. destruct (Hx w) as (n1 & E1 & F1).
  destruct (neutral_calls driver n1 (calls w) F1) as [O1 C1].
  destruct (x w) as [[a|e] w1]; simpl in *.
  - destruct (Hf a w1) as (n2 & E2 & S2). exists (n1 ++ n2). split.
    + by rewrite E2, E1, <- app_assoc.
    + rewrite opened_app, close_count_app, O1, C1, <- E1. simpl. exact S2.
  - exists n1. split; [done | congruence].
Qed.

(** [db := sqlx.MustConnect(...); defer db.Close(); body] *)
Lemma settles_connection {A : Type} dsn (body : run A) :
  settles driver body ->
  settles driver (call driver (Connect dsn) ≫= fun _ => deferred_close driver body).
Proof.
  intros Hb w. rewrite run_bind_eq. unfold call at 1.
  destruct (driver (calls w) (Connect dsn)) eqn:Hd; simpl.
  - unfold deferred_close.
    match goal with |- context [body ?w1] =>
      destruct (Hb w1) as (n & E & S); destruct (body w1) as [res w2] end.
    simpl in *. exists (Connect dsn :: n ++ [CloseDb]). split.
    + unfold call. destruct (driver _ CloseDb); simpl;
        rewrite E, <- !app_assoc; done.
    + change (Connect dsn :: n ++ [CloseDb]) with ([Connect dsn] ++ n ++ [CloseDb]).
      rewrite !opened_app, !close_count_app, S.
      change (close_count [Connect dsn]) with 0%nat.
      change (close_count [CloseDb]) with 1%nat.
      simpl. rewrite Hd. lia.
  - exists [Connect dsn]. split; [done|]. simpl. by rewrite Hd.
Qed.

Lemma processBatches_eq bs w :
  processBatches opts driver bs w
  = (call driver (Connect (postgresConnect opts ++ " dbname=benchmark")%string)
       ≫= fun _ => deferred_close driver (process_all opts driver bs)) w.
Proof.
  rewrite run_bind_eq. unfold processBatches, deferred_close.
  destruct (call driver (Connect _) w) as [[[]|e] w1]; [|done].
  by destruct (process_all opts driver bs w1) as [[[]|e] w2].
Qed.

End LinkFacts.

(** X14: the bootstrap and a worker close every connection they open,
    on return and on a panic alike, and close nothing else: whatever the
    driver answers, the calls they add to the log hold as many closes as
    connections the driver has accepted. *)
Theorem connections_closed (opts : Options) (driver : Driver) (w : world) :
  (forall ls, exists new,
      calls (snd (initBenchmarkDB opts driver ls w)) = calls w ++ new
      /\ opened driver (calls w) new = close_count new)
  /\ (forall received, exists new,
        calls (snd (processBatches opts driver received w)) = calls w ++ new
        /\ opened driver (calls w) new = close_count new).
Proof.
  split.
  - intros ls. unfold initBenchmarkDB. apply settles_connection.
    apply settles_bind; [by apply neutral_call|]. intros _.
    apply settles_bind; [by apply neutral_call|]. intros _.
    apply settles_connection. apply settles_neutral.
    apply neutral_bind; [|intros _; apply neutral_header_loop].
    destruct (makeHypertable opts); [|apply neutral_ret].
    apply neutral_bind; [by apply neutral_call | intros _; by apply neutral_call].
  - intros received. rewrite processBatches_eq.
    apply settles_connection. apply settles_neutral. apply neutral_process_all.
Qed.

(** A driver that refuses the commit: the worker panics, and has closed
    its connection. *)
Example panicking_worker_closes :
  processBatches defaults commit_fails [one_row_batch] world_init
  = (Fatal (DbError Commit),
     snd (processBatches defaults commit_fails [one_row_batch] world_init))
  /\ last (calls (snd (processBatches defaults commit_fails [one_row_batch] world_init)))
     = Some CloseDb.
Proof. split; vm_compute; reflexivity. Qed.

(** ** The first line of the reporter *)

Module ReporterStart.
Import Reporter.

(** X16: the first line the reporter prints gives the same value as the
    row rate of the period and as the overall row rate, and its column rate is
    the column count read over the same time: the first period starts at the
    start, with both previous counts at zero. *)
Theorem first_report_line (start : Time) (t : tick) (rest : list tick) :
  - two63 <= rowCountRead t < two63 ->
  - two63 <= colCount t < two63 ->
  exists line more,
    report start (t :: rest) = line :: more
    /\ rowrate line = overallRowrate line
    /\ colrate line = overallColrate start t
    /\ length more = length rest.
Proof.
  intros Hr Hc. unfold report. simpl. eexists. eexists. split; [reflexivity|].
  simpl. rewrite !Z.sub_0_r, !wrap64_id by done.
  split; [reflexivity|]. split; [reflexivity|].
  apply ReporterFacts.report_loop_length.
Qed.

Lemma first_report_line_witness :
  exists line more,
    report 0 run_a = line :: more
    /\ rowrate line = overallRowrate line
    /\ colrate line = overallColrate 0 {| now := 1000000000; colCount := 6; rowCountRead := 2 |}
    /\ length more = 1%nat.
Proof.
  apply (first_report_line 0 {| now := 1000000000; colCount := 6; rowCountRead := 2 |}
           [ {| now := 2000000000; colCount := 9; rowCountRead := 3 |} ]).
  - by vm_compute.
  - by vm_compute.
Defined.

End ReporterStart.
